(** * etcd v3discovery: the membership ledger and the discovery engine

    A shallow embedding of [server/etcdserver/api/v3discovery] (the
    rendezvous discovery used by etcd with the v3 client) and the
    properties of its ledger ([clusterInfo]) and of its engine
    ([discovery]); with them, the defrag command of etcdctl
    ([etcdctl/ctlv3/command]).

    Go strings are byte strings ([string]); [int], [int64] and [uint] are
    integers in [Z] (64-bit, wrap-around written where the code computes);
    a nil [error] is [None]. *)

From Stdlib Require Import ZArith String Ascii HexString.
From stdpp Require Import list sorting.

Local Open Scope string_scope.
Local Open Scope Z_scope.
Local Open Scope list_scope.

(** ** The Go library functions the package calls *)

(** [strings.HasPrefix(s, prefix)]. *)
Definition HasPrefix (s pfx : string) : bool := String.prefix pfx s.

(** [strings.IndexByte(s, c)]: the index of the first byte equal to [c],
    or -1. *)
Fixpoint IndexByte (s : string) (c : ascii) : Z :=
  match s with
  | EmptyString => -1
  | String b s' =>
      if Ascii.eqb b c then 0
      else let i := IndexByte s' c in if i =? -1 then -1 else i + 1
  end.

(** [strings.IndexRune(s, r)] for a rune below [utf8.RuneSelf], where it is
    [IndexByte(s, byte(r))]. *)
Definition IndexRune (s : string) (r : ascii) : Z := IndexByte s r.

(** [strings.Join(elems, sep)]. *)
Definition strings_Join (elems : list string) (sep : string) : string :=
  String.concat sep elems.

(** The UTF-8 encodings of the runes of [unicode.IsSpace]: the six ASCII
    ones, U+0085, U+00A0, U+1680, U+2000..U+200A, U+2028, U+2029, U+202F,
    U+205F and U+3000. *)
Definition spaceRunes : list (list ascii) :=
  map (map ascii_of_nat)
    [ [9]; [10]; [11]; [12]; [13]; [32];
      [194; 133]; [194; 160]; [225; 154; 128];
      [226; 128; 128]; [226; 128; 129]; [226; 128; 130]; [226; 128; 131];
      [226; 128; 132]; [226; 128; 133]; [226; 128; 134]; [226; 128; 135];
      [226; 128; 136]; [226; 128; 137]; [226; 128; 138];
      [226; 128; 168]; [226; 128; 169]; [226; 128; 175];
      [226; 129; 159]; [227; 128; 128] ]%nat.

(** [stripPrefix p s] is the rest of [s] after [p] when [s] starts with [p]. *)
Fixpoint stripPrefix (p s : list ascii) : option (list ascii) :=
  match p, s with
  | [], _ => Some s
  | _ :: _, [] => None
  | a :: p', b :: s' => if Ascii.eqb a b then stripPrefix p' s' else None
  end.

(** The rest of [s] after its first rune when that rune is one of [runes]. *)
Fixpoint stripRune (runes : list (list ascii)) (s : list ascii)
  : option (list ascii) :=
  match runes with
  | [] => None
  | p :: runes' =>
      match stripPrefix p s with
      | Some rest => Some rest
      | None => stripRune runes' s
      end
  end.

(** [strings.TrimLeftFunc(s, f)] where [f] holds of the runes [runes]: the
    leading runes are dropped as long as they are in [runes]. The fuel
    bounds the number of runes dropped by the length of the string. *)
Fixpoint trimLeft (runes : list (list ascii)) (fuel : nat) (s : list ascii)
  : list ascii :=
  match fuel with
  | O => s
  | S fuel' =>
      match stripRune runes s with
      | Some rest => trimLeft runes fuel' rest
      | None => s
      end
  end.

Definition TrimLeftSpace (s : list ascii) : list ascii :=
  trimLeft spaceRunes (length s) s.

(** The trailing side reads the string backwards: the last rune is in
    [runes] when the reversed string starts with its reversed encoding. *)
Definition TrimRightSpace (s : list ascii) : list ascii :=
  rev (trimLeft (map (@rev ascii) spaceRunes) (length s) (rev s)).

(** [strings.TrimSpace(s)]: [s] without its leading and trailing white
    space, as [TrimFunc(s, unicode.IsSpace)] computes it (left, then right). *)
Definition TrimSpace (s : string) : string :=
  string_of_list_ascii (TrimRightSpace (TrimLeftSpace (list_ascii_of_string s))).

(** The string starts, or ends, with a white space rune. *)
Definition startsWithSpace (s : string) : bool :=
  match stripRune spaceRunes (list_ascii_of_string s) with
  | Some _ => true
  | None => false
  end.

Definition endsWithSpace (s : string) : bool :=
  match stripRune (map (@rev ascii) spaceRunes)
          (rev (list_ascii_of_string s)) with
  | Some _ => true
  | None => false
  end.

(** [path.Clean]: the loop over the path, with the output buffer kept in
    reverse ([rout], its length is the write index [out.w]). *)
Fixpoint spanElem (p : list ascii) : list ascii * list ascii :=
  match p with
  | [] => ([], [])
  | ch :: r =>
      if Ascii.eqb ch "/" then ([], p)
      else let (e, r') := spanElem r in (ch :: e, r')
  end.

(** [out.w--; for out.w > dotdot && out.index(out.w) != '/' { out.w-- }] *)
Fixpoint backtrack (rout : list ascii) (dotdot : nat) : list ascii :=
  match rout with
  | [] => []
  | ch :: r =>
      if (dotdot <? length r)%nat && negb (Ascii.eqb ch "/")
      then backtrack r dotdot else r
  end.

Definition atEndOrSlash (p : list ascii) : bool :=
  match p with
  | [] => true
  | ch :: _ => Ascii.eqb ch "/"
  end.

Fixpoint cleanLoop (fuel : nat) (rooted : bool) (p rout : list ascii)
  (dotdot : nat) : list ascii :=
  match fuel with
  | O => rout
  | S fuel' =>
      match p with
      | [] => rout
      | ch :: p1 =>
          if Ascii.eqb ch "/" then
            (* empty path element *)
            cleanLoop fuel' rooted p1 rout dotdot
          else if Ascii.eqb ch "." && atEndOrSlash p1 then
            (* . element *)
            cleanLoop fuel' rooted p1 rout dotdot
          else if Ascii.eqb ch "."
                  && match p1 with
                     | ch1 :: p2 => Ascii.eqb ch1 "." && atEndOrSlash p2
                     | [] => false
                     end then
            (* .. element: remove to last / *)
            let p2 := tail p1 in
            if (dotdot <? length rout)%nat then
              cleanLoop fuel' rooted p2 (backtrack rout dotdot) dotdot
            else if negb rooted then
              (* cannot backtrack, but not rooted, so append .. element *)
              let rout1 := if (0 <? length rout)%nat
                           then "/"%char :: rout else rout in
              let rout2 := "."%char :: "."%char :: rout1 in
              cleanLoop fuel' rooted p2 rout2 (length rout2)
            else cleanLoop fuel' rooted p2 rout dotdot
          else
            (* real path element: add slash if needed, copy element *)
            let rout1 :=
              if (rooted && negb (length rout =? 1)%nat)
                 || (negb rooted && negb (length rout =? 0)%nat)
              then "/"%char :: rout else rout in
            let (e, rest) := spanElem p in
            cleanLoop fuel' rooted rest (rev e ++ rout1) dotdot
      end
  end.

Definition Clean (path : string) : string :=
  match list_ascii_of_string path with
  | [] => "."
  | (ch :: p1) as p =>
      let out :=
        if Ascii.eqb ch "/"
        then cleanLoop (S (length p)) true p1 ["/"%char] 1
        else cleanLoop (S (length p)) false p [] 0 in
      match out with
      | [] => "."
      | _ => string_of_list_ascii (rev out)
      end
  end.

(** [path.Join(elem...)]: the non-empty leading elements onwards, joined
    with slashes, then cleaned; the empty string when all are empty. *)
Definition path_Join (elem : list string) : string :=
  if forallb (fun e => (String.length e =? 0)%nat) elem then ""
  else
    Clean (fold_left
             (fun buf e =>
                if (0 <? String.length buf)%nat then (buf ++ "/" ++ e)%string
                else e)
             elem "").

(** [strconv.ParseInt(s, 10, 0)] with a 64-bit [int]: [None] stands for a
    syntax or range error. *)
Definition digitVal (ch : ascii) : option Z :=
  let n := Z.of_nat (nat_of_ascii ch) in
  if (48 <=? n) && (n <=? 57) then Some (n - 48) else None.

Fixpoint parseDigits (acc : Z) (s : string) : option Z :=
  match s with
  | EmptyString => Some acc
  | String ch r =>
      match digitVal ch with
      | Some dgt => parseDigits (acc * 10 + dgt) r
      | None => None
      end
  end.

Definition ParseUint (s : string) : option Z :=
  match s with
  | EmptyString => None
  | _ => parseDigits 0 s
  end.

Definition ParseInt (s : string) : option Z :=
  match s with
  | EmptyString => None
  | String ch r =>
      let '(neg, digits) :=
        if Ascii.eqb ch "+" then (false, r)
        else if Ascii.eqb ch "-" then (true, r)
        else (false, s) in
      match ParseUint digits with
      | None => None
      | Some un =>
          let cutoff := 2 ^ 63 in
          if negb neg && (cutoff <=? un) then None
          else if neg && (cutoff <? un) then None
          else Some (if neg then - un else un)
      end
  end.

(** Wrap-around of the 64-bit integer types. *)
Definition wrap_uint (n : Z) : Z := n mod 2 ^ 64.
Definition wrap_int64 (n : Z) : Z := (n + 2 ^ 63) mod 2 ^ 64 - 2 ^ 63.

(** ** Errors *)

(** The package's error values, the errors [add] makes with [errors.New],
    and the errors of the registry client. *)
Inductive error : Type :=
  | ErrInvalidURL
  | ErrBadSizeKey
  | ErrSizeNotFound
  | ErrFullCluster
  | ErrTooManyRetries
  | errorString (msg : string)
  | clientError (msg : string).

(** [err == ErrSizeNotFound], [err == ErrBadSizeKey], [err == ErrFullCluster] *)
Definition isErrSizeNotFound (e : error) : bool :=
  match e with ErrSizeNotFound => true | _ => false end.
Definition isErrBadSizeKey (e : error) : bool :=
  match e with ErrBadSizeKey => true | _ => false end.
Definition isErrFullCluster (e : error) : bool :=
  match e with ErrFullCluster => true | _ => false end.

(** ** Data model *)

Record memberInfo : Type := {
  (* the key used by the member when registering in the discovery service *)
  peerRegKey : string;
  (* "peerName=peerURLs" *)
  peerURLsMap : string;
  (* the member's CreateRevision in the cluster backing the service *)
  createRev : Z
}.

Record clusterInfo : Type := {
  clusterToken : string;
  members : list memberInfo
}.

(** ** Key-space schema *)

Definition discoveryPrefix : string := "/_etcd/registry".

(** key prefix for each cluster: "/_etcd/registry/<ClusterToken>" *)
Definition geClusterKeyPrefix (cluster : string) : string :=
  path_Join [discoveryPrefix; cluster].

(** key format for cluster size:
    "/_etcd/registry/<ClusterToken>/_config/size" *)
Definition geClusterSizeKey (cluster : string) : string :=
  path_Join [geClusterKeyPrefix cluster; "_config/size"].

(** key prefix for each member: "/_etcd/registry/<ClusterToken>/members" *)
Definition getMemberKeyPrefix (token : string) : string :=
  path_Join [geClusterKeyPrefix token; "members"].

(** key format for each member:
    "/_etcd/registry/<ClusterToken>/members/<memberId>" *)
Definition getMemberKey (cluster memberId : string) : string :=
  path_Join [getMemberKeyPrefix cluster; memberId].

(** ** The membership ledger: [clusterInfo] as a [sort.Interface] *)

Definition Len (cls : clusterInfo) : Z := Z.of_nat (length (members cls)).

(** [cls.members[i].createRev < cls.members[j].createRev]; an index out of
    range panics in Go, [sort.Sort] never passes one. *)
Definition Less (cls : clusterInfo) (i j : nat) : bool :=
  match members cls !! i, members cls !! j with
  | Some mi, Some mj => createRev mi <? createRev mj
  | _, _ => false
  end.

Definition Swap (cls : clusterInfo) (i j : nat) : clusterInfo :=
  match members cls !! i, members cls !! j with
  | Some mi, Some mj =>
      {| clusterToken := clusterToken cls;
         members := <[i := mj]> (<[j := mi]> (members cls)) |}
  | _, _ => cls
  end.

(** The insertion sort of Go's [sort] package, which [sort.Sort] runs on a
    slice of at most 12 elements ([insertionSort(data, 0, n)]):
    [for i := 1; i < n; i++ {
       for j := i; j > 0 && data.Less(j, j-1); j-- { data.Swap(j, j-1) } }] *)
Fixpoint insertionSort_inner (data : clusterInfo) (j : nat) : clusterInfo :=
  match j with
  | O => data
  | S j' =>
      if Less data j j' then insertionSort_inner (Swap data j j') j'
      else data
  end.

Definition insertionSort (data : clusterInfo) : clusterInfo :=
  fold_left insertionSort_inner (seq 1 (length (members data) - 1)) data.

(** [cls.exist(mKey)] *)
Definition exist (cls : clusterInfo) (mKey : string) : bool :=
  existsb (fun m => String.eqb mKey (peerRegKey m)) (members cls).

Definition getPeerURLs (cls : clusterInfo) : list string :=
  map peerURLsMap (members cls).

Section Ledger.

(** [sort.Sort] of the Go library, on a [clusterInfo]. *)
Variable sort_Sort : clusterInfo -> clusterInfo.

(** [types.NewURLsMap] of etcd's [client/pkg/v3/types]: the error it
    returns for a string that is no name-to-URLs mapping. *)
Variable NewURLsMap : string -> option error.

(** [cls.add(memberKey, memberValue, rev)]: the ledger afterwards and the
    error returned. *)
Definition add (cls : clusterInfo) (memberKey memberValue : string)
  (rev : Z) : clusterInfo * option error :=
  let membersKeyPrefix := getMemberKeyPrefix (clusterToken cls) in
  if negb (HasPrefix memberKey membersKeyPrefix) then
    (* It should never happen because previously we used exactly the
       same ${membersKeyPrefix} to get or watch the member list. *)
    (cls, Some (errorString "invalid peer registry key"))
  else if IndexRune memberValue "=" =? -1 then
    (* It must be in the format "member1=http://127.0.0.1:2380". *)
    (cls, Some (errorString "invalid peer info returned from discovery service"))
  else if exist cls memberKey then
    (cls, Some (errorString "found duplicate peer from discovery service"))
  else
    let cls1 :=
      {| clusterToken := clusterToken cls;
         members := members cls ++ [ {| peerRegKey := memberKey;
                                        peerURLsMap := memberValue;
                                        createRev := rev |} ] |} in
    (* sort all the members on the CreateRevision in ascending order *)
    (sort_Sort cls1, None).

(** [cls.getInitClusterStr(clusterSize)]: the string and the error. *)
Definition getInitClusterStr (cls : clusterInfo) (clusterSize : Z)
  : string * option error :=
  let peerURLs := getPeerURLs cls in
  let peerURLs :=
    if clusterSize <? Z.of_nat (length peerURLs)
    then take (Z.to_nat clusterSize) peerURLs else peerURLs in
  let us := strings_Join peerURLs "," in
  match NewURLsMap us with
  | Some _ => (us, Some ErrInvalidURL)
  | None => (us, None)
  end.

End Ledger.

(** ** The registry client *)

(** [mvccpb.KeyValue], the fields the package reads. *)
Record KeyValue : Type := {
  Key : string;
  Value : string;
  CreateRevision : Z
}.

(** [clientv3.GetResponse]: [resp.Kvs] and [resp.Header.Revision]. *)
Record GetResponse : Type := {
  Kvs : list KeyValue;
  Revision : Z
}.

Record Event : Type := { Kv : KeyValue }.

Record WatchResponse : Type := { Events : list Event }.

(** The client [d.c]. The registry is shared with the other nodes, so a
    reply is a function of the number of calls made before it and of the
    request: [Get] of a key (with [clientv3.WithPrefix()] when the flag is
    set) replies with a response or an error, [Put] with an error or nil,
    and [Watch] of a prefix from a revision with the responses its channel
    delivers before it is closed. *)
Record Client : Type := {
  Get : nat -> string -> bool -> GetResponse + string;
  Put : nat -> string -> string -> option string;
  Watch : nat -> string -> Z -> list WatchResponse
}.

(** ** The discovery engine *)

(** Number of retries discovery will attempt before giving up and error
    out: [uint(math.MaxUint32)]. *)
Definition nRetries : Z := 4294967295.
Definition maxExponentialRetries : Z := 8.

(** [time.Second], in nanoseconds. *)
Definition time_Second : Z := 1000000000.

(** The [discovery] struct: its token, member id, client and retry counter,
    with the number of client calls made so far and the durations its clock
    was asked to sleep, latest first. *)
Record discovery : Type := {
  d_clusterToken : string;
  d_memberId : Z;
  d_c : Client;
  d_retries : Z;
  d_ncalls : nat;
  d_slept : list Z
}.

Definition set_retries (n : Z) (d : discovery) : discovery :=
  {| d_clusterToken := d_clusterToken d; d_memberId := d_memberId d;
     d_c := d_c d; d_retries := n; d_ncalls := d_ncalls d;
     d_slept := d_slept d |}.

(** One more call of the client. *)
Definition called (d : discovery) : discovery :=
  {| d_clusterToken := d_clusterToken d; d_memberId := d_memberId d;
     d_c := d_c d; d_retries := d_retries d; d_ncalls := S (d_ncalls d);
     d_slept := d_slept d |}.

(** [d.clock.Sleep(t)] *)
Definition Sleep (t : Z) (d : discovery) : discovery :=
  {| d_clusterToken := d_clusterToken d; d_memberId := d_memberId d;
     d_c := d_c d; d_retries := d_retries d; d_ncalls := d_ncalls d;
     d_slept := t :: d_slept d |}.

(** What a method that recurses or loops ends with: its results and the
    engine afterwards, a nil dereference, or no result within the fuel. *)
Inductive Res (A : Type) : Type :=
  | Done (a : A) (d : discovery)
  | Panic
  | OutOfFuel.
Arguments Done {A} a d.
Arguments Panic {A}.
Arguments OutOfFuel {A}.

Definition bind {A B : Type} (r : Res A) (k : A -> discovery -> Res B)
  : Res B :=
  match r with
  | Done a d => k a d
  | Panic => Panic
  | OutOfFuel => OutOfFuel
  end.

(** [d.logAndBackoffForRetry(step)] *)
Definition logAndBackoffForRetry (step : string) (d : discovery)
  : discovery :=
  let d1 := set_retries (wrap_uint (d_retries d + 1)) d in
  (* stops exponential backoff when the retries are more than
     maxExponentialRetries and is set to a constant backoff afterward *)
  let retries := d_retries d1 in
  let retries :=
    if maxExponentialRetries <? retries then maxExponentialRetries
    else retries in
  let retryTimeInSecond :=
    wrap_int64 (wrap_int64 (Z.shiftl 1 retries) * time_Second) in
  Sleep retryTimeInSecond d1.

(** [d.getClusterSize()] *)
Definition getClusterSize (d : discovery) : Z * option error * discovery :=
  let configKey := geClusterSizeKey (d_clusterToken d) in
  match Get (d_c d) (d_ncalls d) configKey false with
  | inr msg => (0, Some (clientError msg), called d)
  | inl resp =>
      match Kvs resp with
      | [] => (0, Some ErrSizeNotFound, called d)
      | kv :: _ =>
          match ParseInt (Value kv) with
          | None => (0, Some ErrBadSizeKey, called d)
          | Some clusterSize =>
              if clusterSize <=? 0 then (0, Some ErrBadSizeKey, called d)
              else (clusterSize, None, called d)
          end
      end
  end.

(** The self scan of [checkCluster]:
    [for _, m := range cls.members {
       if m.peerRegKey == memberSelfId { break }
       if idx >= clusterSize-1 { return cls, clusterSize, rev, ErrFullCluster }
       idx++ }] *)
Fixpoint findSelf (memberSelfId : string) (clusterSize idx : Z)
  (ms : list memberInfo) : option error :=
  match ms with
  | [] => None
  | m :: ms' =>
      if String.eqb (peerRegKey m) memberSelfId then None
      else if clusterSize - 1 <=? idx then Some ErrFullCluster
      else findSelf memberSelfId clusterSize (idx + 1) ms'
  end.

Section Engine.

Variable sort_Sort : clusterInfo -> clusterInfo.
Variable NewURLsMap : string -> option error.

(** [types.ID.String] of etcd's [client/pkg/v3/types]. *)
Variable ID_String : Z -> string.

(** The loop that feeds the key-values of a read to the ledger; the error
    of [add] is logged and dropped. *)
Definition addKv (cls : clusterInfo) (kv : KeyValue) : clusterInfo :=
  let mKey := TrimSpace (Key kv) in
  let mValue := TrimSpace (Value kv) in
  fst (add sort_Sort cls mKey mValue (CreateRevision kv)).

(** [d.getClusterMembers()] *)
Definition getClusterMembers (d : discovery)
  : option clusterInfo * Z * option error * discovery :=
  let membersKeyPrefix := getMemberKeyPrefix (d_clusterToken d) in
  match Get (d_c d) (d_ncalls d) membersKeyPrefix true with
  | inr msg => (None, 0, Some (clientError msg), called d)
  | inl resp =>
      let cls := {| clusterToken := d_clusterToken d; members := [] |} in
      (Some (fold_left addKv (Kvs resp) cls), Revision resp, None, called d)
  end.

Definition checkClusterRetry
  (checkCluster : discovery ->
                  Res (option clusterInfo * Z * Z * option error))
  (d : discovery) : Res (option clusterInfo * Z * Z * option error) :=
  if d_retries d <? nRetries then
    checkCluster (logAndBackoffForRetry "cluster status check" d)
  else Done (None, 0, 0, Some ErrTooManyRetries) d.

(** [d.checkCluster()]; the fuel bounds the depth of the recursion through
    [checkClusterRetry]. *)
Fixpoint checkCluster (fuel : nat) (d : discovery)
  : Res (option clusterInfo * Z * Z * option error) :=
  match fuel with
  | O => OutOfFuel
  | S fuel' =>
      let '(clusterSize, err, d1) := getClusterSize d in
      match err with
      | Some e =>
          if isErrSizeNotFound e || isErrBadSizeKey e
          then Done (None, 0, 0, Some e) d1
          else checkClusterRetry (checkCluster fuel') d1
      | None =>
          let '(ocls, rev, err, d2) := getClusterMembers d1 in
          match err with
          | Some _ => checkClusterRetry (checkCluster fuel') d2
          | None =>
              let d3 := set_retries 0 d2 in
              (* find self position *)
              let memberSelfId :=
                getMemberKey (d_clusterToken d3) (ID_String (d_memberId d3)) in
              match ocls with
              | Some cls =>
                  Done (Some cls, clusterSize, rev,
                        findSelf memberSelfId clusterSize 0 (members cls)) d3
              | None => Panic
              end
          end
      end
  end.

Definition registerSelfRetry
  (registerSelf : discovery -> Res (option error)) (d : discovery)
  : Res (option error) :=
  if d_retries d <? nRetries then
    registerSelf (logAndBackoffForRetry "register member itself" d)
  else Done (Some ErrTooManyRetries) d.

(** [d.registerSelf(contents)] *)
Fixpoint registerSelf (fuel : nat) (contents : string) (d : discovery)
  : Res (option error) :=
  match fuel with
  | O => OutOfFuel
  | S fuel' =>
      let memberKey :=
        getMemberKey (d_clusterToken d) (ID_String (d_memberId d)) in
      match Put (d_c d) (d_ncalls d) memberKey contents with
      | Some _ => registerSelfRetry (registerSelf fuel' contents) (called d)
      | None => Done None (set_retries 0 (called d))
      end
  end.

(** The loop of [waitPeers] over the watch channel:
    [for wresp := range w {
       for _, ev := range wresp.Events { cls.add(...) }
       if cls.Len() >= clusterSize { break } }] *)
Fixpoint consume (cls : clusterInfo) (clusterSize : Z)
  (w : list WatchResponse) : clusterInfo :=
  match w with
  | [] => cls
  | wresp :: w' =>
      let cls1 := fold_left (fun c ev => addKv c (Kv ev)) (Events wresp) cls in
      if clusterSize <=? Len cls1 then cls1 else consume cls1 clusterSize w'
  end.

(** [d.waitPeers(cls, clusterSize, rev)]: the ledger [cls] points to
    afterwards, and the engine. The method has no result. *)
Definition waitPeers (cls : clusterInfo) (clusterSize rev : Z)
  (d : discovery) : clusterInfo * discovery :=
  (* watch from the next revision *)
  let membersKeyPrefix := getMemberKeyPrefix (d_clusterToken d) in
  let w := Watch (d_c d) (d_ncalls d) membersKeyPrefix (wrap_int64 (rev + 1)) in
  (consume cls clusterSize w, called d).

(** [for cls.Len() < clusterSize { d.waitPeers(cls, clusterSize, rev) }] *)
Fixpoint waitLoop (fuel : nat) (cls : clusterInfo) (clusterSize rev : Z)
  (d : discovery) : Res clusterInfo :=
  if Len cls <? clusterSize then
    match fuel with
    | O => OutOfFuel
    | S fuel' =>
        let (cls1, d1) := waitPeers cls clusterSize rev d in
        waitLoop fuel' cls1 clusterSize rev d1
    end
  else Done cls d.

(** [d.getCluster()] *)
Definition getCluster (fuel : nat) (d : discovery)
  : Res (string * option error) :=
  bind (checkCluster fuel d) (fun '(ocls, clusterSize, rev, err) d1 =>
  match err with
  | Some e =>
      if isErrFullCluster e then
        match ocls with
        | Some cls => Done (getInitClusterStr NewURLsMap cls clusterSize) d1
        | None => Panic
        end
      else Done ("", Some e) d1
  | None =>
      match ocls with
      | None => Panic
      | Some cls =>
          bind (waitLoop fuel cls clusterSize rev d1) (fun cls1 d2 =>
          Done (getInitClusterStr NewURLsMap cls1 clusterSize) d2)
      end
  end).

(** [d.joinCluster(config)] *)
Definition joinCluster (fuel : nat) (config : string) (d : discovery)
  : Res (string * option error) :=
  bind (checkCluster fuel d) (fun '(_, _, _, err) d1 =>
  match err with
  | Some e => Done ("", Some e) d1
  | None =>
      bind (registerSelf fuel config d1) (fun err d2 =>
      match err with
      | Some e => Done ("", Some e) d2
      | None =>
          bind (checkCluster fuel d2) (fun '(ocls, clusterSize, rev, err) d3 =>
          match err with
          | Some e => Done ("", Some e) d3
          | None =>
              match ocls with
              | None => Panic
              | Some cls =>
                  bind (waitLoop fuel cls clusterSize rev d3) (fun cls1 d4 =>
                  Done (getInitClusterStr NewURLsMap cls1 clusterSize) d4)
              end
          end)
      end)
  end).

(** [newDiscovery], after the discovery URL is parsed into the cluster
    token and the client is made: the engine starts with no retry counted. *)
Definition newDiscovery (token : string) (c : Client) (id : Z) : discovery :=
  {| d_clusterToken := token; d_memberId := id; d_c := c; d_retries := 0;
     d_ncalls := 0; d_slept := [] |}.

(** [GetCluster] and [JoinCluster], once [newDiscovery] has succeeded. *)
Definition GetCluster (fuel : nat) (token : string) (c : Client)
  : Res (string * option error) :=
  getCluster fuel (newDiscovery token c 0).

Definition JoinCluster (fuel : nat) (token : string) (c : Client) (id : Z)
  (config : string) : Res (string * option error) :=
  joinCluster fuel config (newDiscovery token c id).

End Engine.

(** ** The client configuration *)

(** [DiscoveryConfig] *)
Record DiscoveryConfig : Type := {
  dc_Url : string;
  dc_DialTimeout : Z;
  dc_RequestTimeOut : Z;
  dc_KeepAliveTime : Z;
  dc_KeepAliveTimeout : Z;
  dc_InsecureTransport : bool;
  dc_InsecureSkipVerify : bool;
  dc_CertFile : string;
  dc_KeyFile : string;
  dc_TrustedCAFile : string;
  dc_User : string;
  dc_Password : string
}.

(** [transport.TLSInfo], the fields [newClientCfg] sets. *)
Record TLSInfo : Type := {
  ti_CertFile : string;
  ti_KeyFile : string;
  ti_TrustedCAFile : string
}.

(** [tls.Config]: its [InsecureSkipVerify], and its other fields. *)
Record tls_Config (fields : Type) : Type := {
  tls_InsecureSkipVerify : bool;
  tls_fields : fields
}.
Arguments tls_InsecureSkipVerify {fields} _.
Arguments tls_fields {fields} _.

(** [clientv3.Config], the fields [newClientCfg] sets; [TLS] is a pointer. *)
Record clientv3_Config (fields : Type) : Type := {
  cc_Endpoints : list string;
  cc_DialTimeout : Z;
  cc_DialKeepAliveTime : Z;
  cc_DialKeepAliveTimeout : Z;
  cc_Username : string;
  cc_Password : string;
  cc_TLS : option (tls_Config fields)
}.
Arguments cc_Endpoints {fields} _.
Arguments cc_DialTimeout {fields} _.
Arguments cc_DialKeepAliveTime {fields} _.
Arguments cc_DialKeepAliveTimeout {fields} _.
Arguments cc_Username {fields} _.
Arguments cc_Password {fields} _.
Arguments cc_TLS {fields} _.

Definition set_TLS {fields : Type} (t : option (tls_Config fields))
  (cfg : clientv3_Config fields) : clientv3_Config fields :=
  {| cc_Endpoints := cc_Endpoints cfg; cc_DialTimeout := cc_DialTimeout cfg;
     cc_DialKeepAliveTime := cc_DialKeepAliveTime cfg;
     cc_DialKeepAliveTimeout := cc_DialKeepAliveTimeout cfg;
     cc_Username := cc_Username cfg; cc_Password := cc_Password cfg;
     cc_TLS := t |}.

(** The [TLSInfo] of a configuration that names a certificate, a key or a
    CA file; nil otherwise. *)
Definition tlsInfoOf (dcfg : DiscoveryConfig) : option TLSInfo :=
  if negb (String.eqb (dc_CertFile dcfg) "")
     || negb (String.eqb (dc_KeyFile dcfg) "")
     || negb (String.eqb (dc_TrustedCAFile dcfg) "")
  then Some {| ti_CertFile := dc_CertFile dcfg;
               ti_KeyFile := dc_KeyFile dcfg;
               ti_TrustedCAFile := dc_TrustedCAFile dcfg |}
  else None.

Section ClientCfg.

(** The fields of [tls.Config] besides [InsecureSkipVerify], and their
    zero values. *)
Variable fields : Type.
Variable zero : fields.

(** [transport.TLSInfo.ClientConfig] of etcd's [client/pkg/v3/transport]:
    the configuration and the error it returns. *)
Variable ClientConfig : TLSInfo -> option (tls_Config fields) * option error.

(** [newClientCfg(dcfg, dUrl, lg)] *)
Definition newClientCfg (dcfg : DiscoveryConfig) (dUrl : string)
  : option (clientv3_Config fields) * option error :=
  let cfgtls := tlsInfoOf dcfg in
  let cfg :=
    {| cc_Endpoints := [dUrl];
       cc_DialTimeout := dc_DialTimeout dcfg;
       cc_DialKeepAliveTime := dc_KeepAliveTime dcfg;
       cc_DialKeepAliveTimeout := dc_KeepAliveTimeout dcfg;
       cc_Username := dc_User dcfg;
       cc_Password := dc_Password dcfg;
       cc_TLS := None |} in
  let r :=
    match cfgtls with
    | Some info =>
        match ClientConfig info with
        | (clientTLS, None) => inl (set_TLS clientTLS cfg)
        | (_, Some err) => inr err
        end
    | None => inl cfg
    end in
  match r with
  | inr err => (None, Some err)
  | inl cfg =>
      (* If key/cert is not given but user wants secure connection, we
         should still setup an empty tls configuration for gRPC to setup
         secure connection. *)
      let cfg :=
        match cc_TLS cfg with
        | None =>
            if negb (dc_InsecureTransport dcfg)
            then set_TLS (Some {| tls_InsecureSkipVerify := false;
                                  tls_fields := zero |}) cfg
            else cfg
        | Some _ => cfg
        end in
      (* If the user wants to skip TLS verification then we should set
         the InsecureSkipVerify flag in tls configuration. *)
      let cfg :=
        match cc_TLS cfg with
        | Some t =>
            if dc_InsecureSkipVerify dcfg
            then set_TLS (Some {| tls_InsecureSkipVerify := true;
                                  tls_fields := tls_fields t |}) cfg
            else cfg
        | None => cfg
        end in
      (Some cfg, None)
  end.

End ClientCfg.

(** ** etcdctl: the defrag command *)

(** What the command writes, line by line, and how it ends: it returns,
    or the process exits with [cobrautl.ExitError], through
    [cobrautl.ExitWithError] when an error is given. *)
Inductive line : Type :=
  | Stdout (s : string)
  | Stderr (s : string).

Inductive status : Type :=
  | Returned
  | Exited (err : option string).

Definition newline : string := String "010"%char "".

Definition int_incr (n : Z) : Z := wrap_int64 (n + 1).

Section Defrag.

(** [etcdutl.DefragData]: its error, if any. *)
Variable DefragData : string -> option string.

(** The call number [n] of [c.Defragment(ctx, ep)]: the time it took, as
    [d.String()] prints it, and its error, if any. *)
Variable Defragment : nat -> string -> string * option string.

(** The loop of [defragCommandFunc] over the endpoints. *)
Fixpoint defragLoop (n : nat) (eps : list string) (failures : Z)
  (out : list line) : Z * list line :=
  match eps with
  | [] => (failures, out)
  | ep :: eps' =>
      let (took, err) := Defragment n ep in
      match err with
      | Some e =>
          defragLoop (S n) eps' (int_incr failures)
            (out ++ [Stderr ("Failed to defragment etcd member[" ++ ep
                             ++ "]. took " ++ took ++ ". (" ++ e ++ ")"
                             ++ newline)])
      | None =>
          defragLoop (S n) eps' failures
            (out ++ [Stdout ("Finished defragmenting etcd member[" ++ ep
                             ++ "]. took " ++ took ++ newline)])
      end
  end.

(** [defragCommandFunc], for the value of the [--data-dir] flag, the
    client that [mustClientFromCmd(cmd)] returns and the endpoints that
    [endpointsFromCluster(cmd)] returns. *)
Definition defragCommandFunc (defragDataDir : string) (endpoints : list string)
  : list line * status :=
  if (0 <? String.length defragDataDir)%nat then
    let out :=
      [Stderr ("Use `etcdutl defrag` instead. The --data-dir is going to be decomissioned in v3.6."
               ++ newline ++ newline)] in
    match DefragData defragDataDir with
    | Some err => (out, Exited (Some err))
    | None => (out, Returned)
    end
  else
    let (failures, out) := defragLoop 0 endpoints 0 [] in
    if negb (failures =? 0) then (out, Exited None) else (out, Returned).

End Defrag.

(** The line the command writes for the endpoint [ep]. *)
Definition defragLine (ep : string) (r : string * option string) : line :=
  match snd r with
  | Some e =>
      Stderr ("Failed to defragment etcd member[" ++ ep ++ "]. took "
              ++ fst r ++ ". (" ++ e ++ ")" ++ newline)
  | None =>
      Stdout ("Finished defragmenting etcd member[" ++ ep ++ "]. took "
              ++ fst r ++ newline)
  end.

(** ** Instances of the library functions taken as variables *)

(** [types.ID.String]: the identifier in base 16. *)
Definition ID_hex (id : Z) : string :=
  match id with
  | Z0 => "0"
  | Zpos p => HexString.Raw.of_pos p ""
  | Zneg _ => ""
  end.

(** A validation that accepts every string. *)
Definition acceptURLs (us : string) : option error := None.

(** ** The vocabulary of the properties *)

(** The order of the ledger: ascending [createRev]. *)
Definition byRev : relation memberInfo :=
  fun m1 m2 => createRev m1 <= createRev m2.

(** What the Go library promises of [sort.Sort(cls)]: it only swaps the
    members, and afterwards no member is [Less] than one before it. It
    is not guaranteed to be stable. *)
Definition sortsByLess (sort_Sort : clusterInfo -> clusterInfo) : Prop :=
  forall cls,
    clusterToken (sort_Sort cls) = clusterToken cls /\
    members (sort_Sort cls) ≡ₚ members cls /\
    forall i j, (i < j < length (members (sort_Sort cls)))%nat ->
                Less (sort_Sort cls) j i = false.

(** [&clusterInfo{clusterToken: token}] *)
Definition emptyLedger (token : string) : clusterInfo :=
  {| clusterToken := token; members := [] |}.

(** The calls [cls.add(r.peerRegKey, r.peerURLsMap, r.createRev)] for the
    records [rs] in turn, the errors dropped. *)
Definition addAll (sort_Sort : clusterInfo -> clusterInfo)
  (cls : clusterInfo) (rs : list memberInfo) : clusterInfo :=
  fold_left
    (fun c r => fst (add sort_Sort c (peerRegKey r) (peerURLsMap r) (createRev r)))
    rs cls.

(** A record that [add] accepts into a ledger of [token] that does not
    hold its key. *)
Definition validRecord (token : string) (r : memberInfo) : bool :=
  HasPrefix (peerRegKey r) (getMemberKeyPrefix token)
  && negb (IndexRune (peerURLsMap r) "=" =? -1).

(** The invariant of the ledger. *)
Definition ledger_ok (cls : clusterInfo) : Prop :=
  NoDup (map peerRegKey (members cls)) /\
  Forall (fun m =>
            HasPrefix (peerRegKey m) (getMemberKeyPrefix (clusterToken cls)) = true
            /\ In "="%char (list_ascii_of_string (peerURLsMap m)))
         (members cls) /\
  StronglySorted byRev (members cls).

(** The list insertion the inner loop of [insertionSort] performs, on the
    sorted part read backwards. *)
Fixpoint insr (x : memberInfo) (rpre : list memberInfo) : list memberInfo :=
  match rpre with
  | [] => [x]
  | y :: r =>
      if createRev x <? createRev y then y :: insr x r else x :: y :: r
  end.

(** A string [strconv.ParseInt] can read in base 10: an optional sign and
    at least one decimal digit. *)
Definition isDigit (ch : ascii) : bool :=
  match digitVal ch with Some _ => true | None => false end.

Definition numeric (s : string) : Prop :=
  exists sign digits : string,
    s = (sign ++ digits)%string /\
    (sign = "" \/ sign = "+" \/ sign = "-") /\
    digits <> "" /\
    forallb isDigit (list_ascii_of_string digits) = true.

(** The attempt of [checkCluster] that starts with the call number [n] of
    the client fails for a reason that is retried: the read of the size
    fails, or it succeeds and the read of the members fails. *)
Definition failsAt (c : Client) (token : string) (n : nat) : Prop :=
  (exists msg, Get c n (geClusterSizeKey token) false = inr msg) \/
  (exists resp kv rest size msg,
     Get c n (geClusterSizeKey token) false = inl resp /\
     Kvs resp = kv :: rest /\
     ParseInt (Value kv) = Some size /\ 0 < size /\
     Get c (S n) (getMemberKeyPrefix token) true = inr msg).

(** The key under which this node registers: [memberSelfId]. *)
Definition selfKey (ID_String : Z -> string) (d : discovery) : string :=
  getMemberKey (d_clusterToken d) (ID_String (d_memberId d)).

(** What a method returned, when it did. *)
Definition returned {A : Type} (r : Res A) : option A :=
  match r with
  | Done a _ => Some a
  | _ => None
  end.

(** [s] is [core] with white space runes before and after it, and [core]
    has none at its ends. *)
Definition surroundedBy (core s : string) : Prop :=
  exists ps qs,
    Forall (fun p => p ∈ spaceRunes) ps /\
    Forall (fun q => q ∈ spaceRunes) qs /\
    list_ascii_of_string s
    = concat ps ++ list_ascii_of_string core ++ concat qs /\
    startsWithSpace core = false /\ endsWithSpace core = false.

(** [b] is the first byte of the encoding of a white space rune. *)
Definition isFirstByte (b : ascii) : bool :=
  existsb (fun p => match p with c :: _ => Ascii.eqb c b | [] => false end)
    spaceRunes.

(** No record of the ledger has white space around its key or value. *)
Definition trimmedLedger (cls : clusterInfo) : Prop :=
  Forall (fun m =>
            startsWithSpace (peerRegKey m) = false /\
            endsWithSpace (peerRegKey m) = false /\
            startsWithSpace (peerURLsMap m) = false /\
            endsWithSpace (peerURLsMap m) = false)
         (members cls).

(** A back-off between 2 and 256 seconds. *)
Definition boundedSleep (t : Z) : Prop :=
  2 * time_Second <= t <= 256 * time_Second.

(** The engine [d'] is [d] some calls and back-offs later: the token, the
    member id and the client are the same, the retry counter is within its
    bounds, and what was slept in between is bounded. *)
Definition advances (d d' : discovery) : Prop :=
  d_clusterToken d' = d_clusterToken d /\
  d_memberId d' = d_memberId d /\
  d_c d' = d_c d /\
  (d_ncalls d <= d_ncalls d')%nat /\
  0 <= d_retries d' <= nRetries /\
  exists more, d_slept d' = more ++ d_slept d /\ Forall boundedSleep more.

(** The ledger after the events of the watch responses [w] were fed to it,
    in order. *)
Definition feed (sort_Sort : clusterInfo -> clusterInfo) (cls : clusterInfo)
  (w : list WatchResponse) : clusterInfo :=
  fold_left
    (fun c wresp =>
       fold_left (fun c ev => addKv sort_Sort c (Kv ev)) (Events wresp) c)
    w cls.

(** A path element that [path.Clean] copies as it is: not empty, without
    a slash, and neither [.] nor [..]. *)
Definition plainElem (e : string) : bool :=
  negb (String.eqb e "") && (IndexRune e "/" =? -1)
  && negb (String.eqb e ".") && negb (String.eqb e "..").

Definition plainChars (e : list ascii) : Prop :=
  e <> [] /\ ~ In "/"%char e /\ e <> ["."%char] /\ e <> ["."%char; "."%char].

(** The elements [es], each after a slash; and the rooted path of the
    elements [es], which is the root when there is none. *)
Definition slashed (es : list (list ascii)) : list ascii :=
  concat (map (cons "/"%char) es).

Definition rootedPath (es : list (list ascii)) : list ascii :=
  match es with
  | [] => ["/"%char]
  | _ => slashed es
  end.

(** ** Sample data: a cluster of three members *)

Definition sampleToken : string := "/cluster-1".
Definition m1 : memberInfo :=
  {| peerRegKey := "/_etcd/registry/cluster-1/members/8e9e05c52164694d";
     peerURLsMap := "infra1=http://127.0.0.1:12380"; createRev := 11 |}.
Definition m2 : memberInfo :=
  {| peerRegKey := "/_etcd/registry/cluster-1/members/91bc3c398fb3c146";
     peerURLsMap := "infra2=http://127.0.0.1:22380"; createRev := 12 |}.
Definition m3 : memberInfo :=
  {| peerRegKey := "/_etcd/registry/cluster-1/members/fd422379fda50e48";
     peerURLsMap := "infra3=http://127.0.0.1:32380"; createRev := 13 |}.
Definition m2tie : memberInfo :=
  {| peerRegKey := "/_etcd/registry/cluster-1/members/91bc3c398fb3c146";
     peerURLsMap := "infra2=http://127.0.0.1:22380"; createRev := 11 |}.

(** The member identifiers of the three keys. *)
Definition id1 : Z := 10276657743932975437.
Definition id2 : Z := 10501334649042878790.
Definition id3 : Z := 18249187646912138824.

Definition kvOf (m : memberInfo) : KeyValue :=
  {| Key := peerRegKey m; Value := peerURLsMap m;
     CreateRevision := createRev m |}.

(** A registry that holds the size [size] and the members [ms] at revision
    20, accepts every [Put], and whose watch number [n] delivers [w n]. *)
Definition sampleClient (size : string) (ms : list memberInfo)
  (w : nat -> list WatchResponse) : Client :=
  {| Get := fun _ key withPrefix =>
       if withPrefix then inl {| Kvs := map kvOf ms; Revision := 20 |}
       else inl {| Kvs := [ {| Key := key; Value := size; CreateRevision := 2 |} ];
                   Revision := 20 |};
     Put := fun _ _ _ => None;
     Watch := fun n _ _ => w n |}.

(** A registry that cannot be reached. *)
Definition downClient : Client :=
  {| Get := fun _ _ _ => inr "context deadline exceeded";
     Put := fun _ _ _ => Some "context deadline exceeded";
     Watch := fun _ _ _ => [] |}.

(** The ledger of the three members. *)
Definition ledger3 : clusterInfo :=
  {| clusterToken := sampleToken; members := [m1; m2; m3] |}.

(** * Properties *)

(** ** The library functions *)

Lemma IndexByte_ge s c : -1 <= IndexByte s c.
Proof.
  induction s as [|b s IH]; simpl; [lia|].
  destruct (Ascii.eqb b c); [lia|].
  destruct (Z.eqb_spec (IndexByte s c) (-1)); lia.
Qed.

Lemma IndexRune_absent s c :
  IndexRune s c = -1 <-> ~ In c (list_ascii_of_string s).
Proof.
  unfold IndexRune. induction s as [|b s IH]; simpl.
  - tauto.
  - destruct (Ascii.eqb_spec b c) as [->|Hne].
    + split; [lia | intros H; exfalso; apply H; now left].
    + pose proof (IndexByte_ge s c).
      destruct (Z.eqb_spec (IndexByte s c) (-1)) as [E|E].
      * split; [|reflexivity]. intros _ [H1|H1]; [congruence | tauto].
      * split; [lia|]. intros H1. exfalso. apply E, IH. tauto.
Qed.

Lemma lookup_snoc_pair {A} (pre : list A) y x post :
  (pre ++ y :: x :: post) !! length pre = Some y /\
  (pre ++ y :: x :: post) !! S (length pre) = Some x.
Proof. induction pre; simpl; auto. Qed.

Lemma insert_swap_adjacent {A} (pre : list A) y x post :
  <[S (length pre) := y]> (<[length pre := x]> (pre ++ y :: x :: post))
  = pre ++ x :: y :: post.
Proof. induction pre; simpl; [reflexivity | f_equal; assumption]. Qed.

Lemma insertionSort_inner_spec tok rpre x post :
  insertionSort_inner {| clusterToken := tok; members := rev rpre ++ x :: post |}
    (length rpre)
  = {| clusterToken := tok; members := rev (insr x rpre) ++ post |}.
Proof.
  revert post. induction rpre as [|y r IH]; intros post; [reflexivity|].
  cbn [length insertionSort_inner insr rev].
  rewrite <- app_assoc. cbn [app].
  unfold Less. cbn [members].
  rewrite <- (length_rev r).
  destruct (lookup_snoc_pair (rev r) y x post) as [-> ->].
  destruct (createRev x <? createRev y).
  - unfold Swap. cbn [members clusterToken].
    destruct (lookup_snoc_pair (rev r) y x post) as [-> ->].
    rewrite insert_swap_adjacent. rewrite length_rev, IH.
    cbn [rev]. now rewrite <- app_assoc.
  - cbn [rev]. now rewrite <- !app_assoc.
Qed.

Lemma insr_length x r : length (insr x r) = S (length r).
Proof.
  induction r as [|y r IH]; simpl; [reflexivity|].
  destruct (createRev x <? createRev y); simpl; congruence.
Qed.

Lemma insr_perm x r : insr x r ≡ₚ x :: r.
Proof.
  induction r as [|y r IH]; simpl; [reflexivity|].
  destruct (createRev x <? createRev y); [|reflexivity].
  rewrite IH. apply Permutation_swap.
Qed.

Lemma insr_sorted x r :
  StronglySorted (flip byRev) r -> StronglySorted (flip byRev) (insr x r).
Proof.
  induction 1 as [|y r Hr IH Hy]; simpl.
  - repeat constructor.
  - destruct (Z.ltb_spec (createRev x) (createRev y)) as [Hlt|Hge].
    + constructor; [assumption|].
      rewrite insr_perm. constructor; [|assumption].
      unfold flip, byRev. lia.
    + constructor; [constructor; assumption|].
      constructor; [unfold flip, byRev; lia|].
      eapply Forall_impl; [exact Hy|].
      unfold flip, byRev. intros z Hz. simpl in Hz. lia.
Qed.

Lemma insertionSort_outer_spec tok rest rdone :
  fold_left insertionSort_inner (seq (length rdone) (length rest))
    {| clusterToken := tok; members := rev rdone ++ rest |}
  = {| clusterToken := tok;
       members := rev (fold_left (fun acc x => insr x acc) rest rdone) |}.
Proof.
  revert rdone. induction rest as [|x rest IH]; intros rdone.
  - simpl. now rewrite app_nil_r.
  - cbn [length seq fold_left].
    rewrite insertionSort_inner_spec, <- (insr_length x rdone). apply IH.
Qed.

Lemma insertionSort_spec cls :
  insertionSort cls
  = {| clusterToken := clusterToken cls;
       members := rev (fold_left (fun acc x => insr x acc) (members cls) []) |}.
Proof.
  destruct cls as [tok [|a l]]; [reflexivity|].
  unfold insertionSort. cbn [members clusterToken length].
  replace (S (length l) - 1)%nat with (length l) by lia.
  apply (insertionSort_outer_spec tok l [a]).
Qed.

Lemma fold_insr_perm l acc :
  fold_left (fun acc x => insr x acc) l acc ≡ₚ l ++ acc.
Proof.
  revert acc. induction l as [|x l IH]; intros acc; simpl; [reflexivity|].
  rewrite IH, insr_perm. symmetry. apply Permutation_middle.
Qed.

Lemma fold_insr_sorted l acc :
  StronglySorted (flip byRev) acc ->
  StronglySorted (flip byRev) (fold_left (fun acc x => insr x acc) l acc).
Proof.
  revert acc. induction l as [|x l IH]; intros acc H; simpl; [assumption|].
  apply IH, insr_sorted, H.
Qed.

Lemma StronglySorted_rev_flip {A} (R : relation A) l :
  StronglySorted (flip R) l -> StronglySorted R (rev l).
Proof.
  induction 1 as [|x l Hl IH Hx]; simpl; [constructor|].
  apply StronglySorted_app_2; [|assumption|repeat constructor].
  intros y z Hy Hz. apply list_elem_of_singleton in Hz as ->.
  rewrite Forall_forall in Hx. apply Hx.
  apply list_elem_of_In. apply list_elem_of_In, in_rev in Hy. exact Hy.
Qed.

(** Sortedness read through indices, as [Less] sees it. *)
Lemma StronglySorted_byRev_lookup l :
  StronglySorted byRev l <->
  forall i j a b, (i < j)%nat -> l !! i = Some a -> l !! j = Some b ->
                  createRev a <= createRev b.
Proof.
  split.
  - induction 1 as [|x l Hl IH Hx]; intros i j a b Hij Ha Hb.
    + discriminate.
    + destruct j as [|j]; [lia|]. simpl in Hb.
      destruct i as [|i]; simpl in Ha.
      * injection Ha as <-. rewrite Forall_forall in Hx.
        apply Hx. eapply list_elem_of_lookup_2; eassumption.
      * eapply (IH i j); [lia|eassumption..].
  - induction l as [|x l IH]; intros H; constructor.
    + apply IH. intros i j a b Hij Ha Hb. apply (H (S i) (S j)); [lia|assumption..].
    + apply Forall_forall. intros y Hy.
      apply list_elem_of_lookup in Hy as [k Hk].
      apply (H 0%nat (S k)); [lia|reflexivity|exact Hk].
Qed.

Lemma Less_sorted_iff cls :
  (forall i j, (i < j < length (members cls))%nat -> Less cls j i = false)
  <-> StronglySorted byRev (members cls).
Proof.
  rewrite StronglySorted_byRev_lookup. unfold Less. split.
  - intros H i j a b Hij Ha Hb.
    specialize (H i j). rewrite Ha, Hb in H.
    assert (Hlt : (j < length (members cls))%nat) by (eapply lookup_lt_Some; eassumption).
    specialize (H (conj Hij Hlt)). lia.
  - intros H i j [Hij Hj].
    destruct (members cls !! j) as [b|] eqn:Hb; [|reflexivity].
    destruct (members cls !! i) as [a|] eqn:Ha; [|reflexivity].
    specialize (H i j a b Hij Ha Hb). lia.
Qed.

Lemma insertionSort_sortsByLess : sortsByLess insertionSort.
Proof.
  intros cls. rewrite Less_sorted_iff, insertionSort_spec. cbn [clusterToken members].
  split; [reflexivity|]. split.
  - rewrite <- Permutation_rev, fold_insr_perm. now rewrite app_nil_r.
  - apply StronglySorted_rev_flip, fold_insr_sorted. constructor.
Qed.

Lemma exist_spec cls k :
  exist cls k = true <-> exists m, m ∈ members cls /\ peerRegKey m = k.
Proof.
  unfold exist. rewrite existsb_exists. split.
  - intros [m [Hin Heq]]. exists m. split; [now apply list_elem_of_In|].
    symmetry. now apply String.eqb_eq.
  - intros [m [Hin <-]]. exists m. split; [now apply list_elem_of_In|].
    apply String.eqb_refl.
Qed.

Lemma exist_false_keys cls k :
  exist cls k = false <-> k ∉ map peerRegKey (members cls).
Proof.
  rewrite <- not_true_iff_false, exist_spec. split.
  - intros H Hin. apply H. apply list_elem_of_fmap in Hin as [m [-> Hm]]. eauto.
  - intros H [m [Hm <-]]. apply H. apply list_elem_of_fmap. eauto.
Qed.

Lemma memberInfo_eta r :
  {| peerRegKey := peerRegKey r; peerURLsMap := peerURLsMap r;
     createRev := createRev r |} = r.
Proof. now destruct r. Qed.

Section LedgerFacts.

Variable sort_Sort : clusterInfo -> clusterInfo.
Hypothesis sort_ok : sortsByLess sort_Sort.

Lemma sort_Sort_sorted cls : StronglySorted byRev (members (sort_Sort cls)).
Proof. apply Less_sorted_iff, sort_ok. Qed.

(** What a successful [add] leaves. *)
Lemma add_accepted cls k v r :
  HasPrefix k (getMemberKeyPrefix (clusterToken cls)) = true ->
  IndexRune v "=" <> -1 ->
  exist cls k = false ->
  exists cls', add sort_Sort cls k v r = (cls', None)
    /\ clusterToken cls' = clusterToken cls
    /\ members cls' ≡ₚ members cls
                        ++ [ {| peerRegKey := k; peerURLsMap := v; createRev := r |} ]
    /\ StronglySorted byRev (members cls').
Proof.
  intros Hp Hv He. unfold add. rewrite Hp, He. cbn [negb].
  destruct (Z.eqb_spec (IndexRune v "=") (-1)) as [E|_]; [contradiction|].
  eexists. split; [reflexivity|].
  destruct (sort_ok {| clusterToken := clusterToken cls;
                       members := members cls ++ [ {| peerRegKey := k; peerURLsMap := v; createRev := r |} ] |})
    as (Ht & Hperm & _).
  split; [exact Ht|]. split; [exact Hperm|]. apply sort_Sort_sorted.
Qed.

Lemma add_rejected cls k v r :
  HasPrefix k (getMemberKeyPrefix (clusterToken cls)) = false
  \/ IndexRune v "=" = -1 \/ exist cls k = true ->
  exists e, add sort_Sort cls k v r = (cls, Some e).
Proof.
  unfold add. intros H.
  destruct (HasPrefix k _); cbn [negb]; [|eauto].
  destruct (Z.eqb_spec (IndexRune v "=") (-1)); [eauto|].
  destruct (exist cls k); [eauto|].
  destruct H as [H|[H|H]]; congruence.
Qed.

Lemma add_token cls k v r :
  clusterToken (fst (add sort_Sort cls k v r)) = clusterToken cls.
Proof.
  unfold add.
  destruct (HasPrefix k _); cbn [negb]; [|reflexivity].
  destruct (IndexRune v "=" =? -1); [reflexivity|].
  destruct (exist cls k); [reflexivity|].
  cbn [fst]. now destruct (sort_ok {| clusterToken := clusterToken cls;
    members := members cls ++ [ {| peerRegKey := k; peerURLsMap := v; createRev := r |} ] |}).
Qed.

Lemma add_ledger_ok cls k v r :
  ledger_ok cls -> ledger_ok (fst (add sort_Sort cls k v r)).
Proof.
  intros (Hnd & Hall & Hs).
  destruct (HasPrefix k (getMemberKeyPrefix (clusterToken cls))) eqn:Hp;
    [|destruct (add_rejected cls k v r) as [e ->]; [auto|now split]].
  destruct (Z.eq_dec (IndexRune v "=") (-1)) as [Hv|Hv];
    [destruct (add_rejected cls k v r) as [e ->]; [auto|now split]|].
  destruct (exist cls k) eqn:He;
    [destruct (add_rejected cls k v r) as [e ->]; [auto|now split]|].
  destruct (add_accepted cls k v r Hp Hv He) as (cls' & -> & Ht & Hperm & Hs').
  cbn [fst]. split; [|split; [|exact Hs']].
  - rewrite Hperm, map_app. cbn [map peerRegKey].
    apply NoDup_app. split; [exact Hnd|]. split; [|apply NoDup_singleton].
    intros x Hx Hx'. apply list_elem_of_singleton in Hx' as ->.
    apply exist_false_keys in He. contradiction.
  - rewrite Hperm, Ht. apply Forall_app. split; [exact Hall|].
    repeat constructor; cbn [peerRegKey peerURLsMap]; [exact Hp|].
    destruct (in_dec ascii_dec "="%char (list_ascii_of_string v)) as [Hin|Hnin];
      [exact Hin|]. exfalso. apply Hv. now apply IndexRune_absent.
Qed.

Lemma emptyLedger_ok token : ledger_ok (emptyLedger token).
Proof. repeat split; constructor. Qed.

Lemma addAll_ledger_ok cls rs : ledger_ok cls -> ledger_ok (addAll sort_Sort cls rs).
Proof.
  unfold addAll. revert cls. induction rs as [|r rs IH]; intros cls H; [exact H|].
  cbn [fold_left]. apply IH, add_ledger_ok, H.
Qed.

Lemma addAll_token cls rs :
  clusterToken (addAll sort_Sort cls rs) = clusterToken cls.
Proof.
  unfold addAll. revert cls. induction rs as [|r rs IH]; intros cls; [reflexivity|].
  cbn [fold_left]. rewrite IH. apply add_token.
Qed.

End LedgerFacts.

Lemma NoDup_map_inj {A B} (f : A -> B) l x y :
  NoDup (map f l) -> x ∈ l -> y ∈ l -> f x = f y -> x = y.
Proof.
  induction l as [|a l IH]; intros Hnd Hx Hy Hf; [inversion Hx|].
  cbn [map] in Hnd. apply NoDup_cons in Hnd as [Ha Hnd].
  apply elem_of_cons in Hx as [->|Hx]; apply elem_of_cons in Hy as [->|Hy].
  - reflexivity.
  - exfalso. apply Ha. rewrite Hf. apply list_elem_of_fmap. eauto.
  - exfalso. apply Ha. rewrite <- Hf. apply list_elem_of_fmap. eauto.
  - now apply IH.
Qed.

Section LedgerOrder.

Variable sort_Sort : clusterInfo -> clusterInfo.
Hypothesis sort_ok : sortsByLess sort_Sort.

(** With pairwise distinct keys, the ledger holds the valid records. *)
Lemma addAll_members cls rs :
  NoDup (map peerRegKey rs) ->
  (forall r, r ∈ rs -> exist cls (peerRegKey r) = false) ->
  members (addAll sort_Sort cls rs)
  ≡ₚ members cls ++ filter (fun r => validRecord (clusterToken cls) r = true) rs.
Proof.
  unfold addAll. revert cls. induction rs as [|r rs IH]; intros cls Hnd Hfresh.
  - cbn. now rewrite app_nil_r.
  - cbn [map] in Hnd. apply NoDup_cons in Hnd as [Hr Hnd].
    cbn [fold_left].
    assert (He : exist cls (peerRegKey r) = false) by (apply Hfresh; left).
    destruct (validRecord (clusterToken cls) r) eqn:Hval.
    + rewrite filter_cons_True by exact Hval.
      unfold validRecord in Hval. apply andb_true_iff in Hval as [Hp Hv].
      apply negb_true_iff, Z.eqb_neq in Hv.
      destruct (add_accepted sort_Sort sort_ok cls _ _ (createRev r) Hp Hv He)
        as (cls' & -> & Ht & Hperm & _).
      cbn [fst]. rewrite memberInfo_eta in Hperm.
      rewrite IH, Ht, Hperm; [now rewrite <- app_assoc|exact Hnd|].
      intros r' Hr'. apply exist_false_keys. rewrite Hperm, map_app.
      intros Hin. apply elem_of_app in Hin as [Hin|Hin].
      * apply exist_false_keys in Hin; [exact Hin|]. apply Hfresh. now right.
      * cbn in Hin. apply list_elem_of_singleton in Hin.
        apply Hr. rewrite <- Hin. apply list_elem_of_fmap. eauto.
    + rewrite filter_cons_False by (rewrite Hval; discriminate).
      destruct (add_rejected sort_Sort cls (peerRegKey r) (peerURLsMap r) (createRev r))
        as [e ->].
      { unfold validRecord in Hval. apply andb_false_iff in Hval as [Hp|Hv]; [now left|].
        right; left. now apply negb_false_iff, Z.eqb_eq in Hv. }
      cbn [fst]. apply IH; [exact Hnd|]. intros r' Hr'. apply Hfresh. now right.
Qed.

End LedgerOrder.

Section LedgerClaims.

Variable sort_Sort : clusterInfo -> clusterInfo.
Variable NewURLsMap : string -> option error.
Hypothesis sort_ok : sortsByLess sort_Sort.

Lemma getInitClusterStr_fst cls n :
  fst (getInitClusterStr NewURLsMap cls n)
  = strings_Join
      (if n <? Z.of_nat (length (members cls))
       then map peerURLsMap (take (Z.to_nat n) (members cls))
       else map peerURLsMap (members cls)) ",".
Proof.
  unfold getInitClusterStr, getPeerURLs. rewrite length_map.
  destruct (n <? Z.of_nat (length (members cls)));
    [rewrite <- firstn_map|]; now destruct (NewURLsMap _).
Qed.

(** C1. On a ledger that holds more than [n] accepted records, the initial
    cluster string for the target size [n] is the comma-joined
    [peerURLsMap] of the first [n] records of the ledger: they are in
    ascending revision order, and every record after them has a revision
    at least as large, and contributes nothing to the string. *)
Theorem getInitClusterStr_caps token rs n :
  let cls := addAll sort_Sort (emptyLedger token) rs in
  0 <= n < Len cls ->
  exists first rest,
    members cls = first ++ rest /\
    Z.of_nat (length first) = n /\
    StronglySorted byRev first /\
    (forall a b, a ∈ first -> b ∈ rest -> createRev a <= createRev b) /\
    fst (getInitClusterStr NewURLsMap cls n)
    = strings_Join (map peerURLsMap first) ",".
Proof.
  intros cls Hn. unfold Len in Hn.
  destruct (addAll_ledger_ok sort_Sort sort_ok _ rs (emptyLedger_ok token))
    as (_ & _ & Hs). fold cls in Hs.
  exists (take (Z.to_nat n) (members cls)), (drop (Z.to_nat n) (members cls)).
  rewrite <- (take_drop (Z.to_nat n) (members cls)) in Hs.
  apply StronglySorted_app in Hs as (Hord & Hfirst & _).
  split; [now rewrite take_drop|]. split; [rewrite length_take; lia|].
  split; [exact Hfirst|]. split; [exact Hord|].
  rewrite getInitClusterStr_fst.
  destruct (Z.ltb_spec n (Z.of_nat (length (members cls)))); [reflexivity|lia].
Qed.

(** C3. [add] returns an error and leaves the ledger as it was when the
    key lacks the member prefix of the ledger, when the value holds no
    '=', or when a record with the key is present, with the message of the
    first failing check; otherwise it returns no error and the ledger is
    one record longer. *)
Theorem add_rejects_or_grows cls key value rev :
  let badKey := HasPrefix key (getMemberKeyPrefix (clusterToken cls)) = false in
  let badValue := ~ In "="%char (list_ascii_of_string value) in
  let duplicate := exists m, m ∈ members cls /\ peerRegKey m = key in
  (badKey \/ badValue \/ duplicate ->
   exists e, add sort_Sort cls key value rev = (cls, Some e)) /\
  (badKey ->
   add sort_Sort cls key value rev
   = (cls, Some (errorString "invalid peer registry key"))) /\
  (~ badKey -> badValue ->
   add sort_Sort cls key value rev
   = (cls, Some (errorString "invalid peer info returned from discovery service"))) /\
  (~ badKey -> ~ badValue -> duplicate ->
   add sort_Sort cls key value rev
   = (cls, Some (errorString "found duplicate peer from discovery service"))) /\
  (~ (badKey \/ badValue \/ duplicate) ->
   snd (add sort_Sort cls key value rev) = None /\
   length (members (fst (add sort_Sort cls key value rev)))
   = S (length (members cls))).
Proof using sort_ok.
  intros badKey badValue duplicate. subst badKey badValue duplicate.
  rewrite <- IndexRune_absent, <- exist_spec.
  split; [apply add_rejected|].
  unfold add at 1 2 3.
  destruct (HasPrefix key _) eqn:Hp; cbn [negb].
  2:{ repeat split; intros; try congruence; exfalso;
      match goal with H : ~ _ |- _ => apply H; auto end. }
  destruct (Z.eqb_spec (IndexRune value "=") (-1)) as [Hv|Hv].
  { repeat split; intros; try congruence; exfalso;
      match goal with H : ~ _ |- _ => apply H; auto end. }
  destruct (exist cls key) eqn:He.
  { repeat split; intros; try congruence; exfalso;
      match goal with H : ~ _ |- _ => apply H; auto end. }
  split; [congruence|]. split; [congruence|]. split; [congruence|].
  intros _.
  destruct (add_accepted sort_Sort sort_ok cls key value rev Hp Hv He)
    as (cls' & -> & _ & Hperm & _).
  split; [reflexivity|]. cbn [fst]. rewrite Hperm, length_app. cbn. lia.
Qed.

(** C4. The invariant of the ledger holds of the empty ledger and is kept
    by every [add], which also keeps the cluster token: no two records
    share a key, every key starts with the member prefix of the ledger's
    own token, every value holds '=', and the records are in ascending
    [createRev] order. So it holds after every sequence of [add] calls. *)
Theorem ledger_invariant :
  (forall token, ledger_ok (emptyLedger token)) /\
  (forall cls key value rev,
     ledger_ok cls ->
     ledger_ok (fst (add sort_Sort cls key value rev)) /\
     clusterToken (fst (add sort_Sort cls key value rev)) = clusterToken cls) /\
  (forall token rs,
     ledger_ok (addAll sort_Sort (emptyLedger token) rs) /\
     clusterToken (addAll sort_Sort (emptyLedger token) rs) = token).
Proof using sort_ok.
  split; [apply emptyLedger_ok|]. split.
  - intros cls key value rev H. split; [now apply add_ledger_ok|now apply add_token].
  - intros token rs. split.
    + apply addAll_ledger_ok; [exact sort_ok|apply emptyLedger_ok].
    + now rewrite addAll_token.
Qed.

(** C2, amended. For records with pairwise distinct keys and pairwise
    distinct [createRev], passed to [add] in any order, the ledger is the
    same, and so is the initial cluster string: the valid records in
    ascending [createRev] order. *)
Theorem addAll_order_independent token rs1 rs2 :
  rs1 ≡ₚ rs2 ->
  NoDup (map peerRegKey rs1) ->
  NoDup (map createRev rs1) ->
  addAll sort_Sort (emptyLedger token) rs1
  = addAll sort_Sort (emptyLedger token) rs2 /\
  (members (addAll sort_Sort (emptyLedger token) rs1)
   ≡ₚ filter (fun r => validRecord token r = true) rs1) /\
  StronglySorted byRev (members (addAll sort_Sort (emptyLedger token) rs1)) /\
  forall n,
    getInitClusterStr NewURLsMap (addAll sort_Sort (emptyLedger token) rs1) n
    = getInitClusterStr NewURLsMap (addAll sort_Sort (emptyLedger token) rs2) n.
Proof.
  intros Hperm Hk Hr.
  assert (Hk2 : NoDup (map peerRegKey rs2)) by now rewrite <- Hperm.
  pose proof (addAll_members sort_Sort sort_ok (emptyLedger token) rs1 Hk
                (fun _ _ => eq_refl)) as H1.
  pose proof (addAll_members sort_Sort sort_ok (emptyLedger token) rs2 Hk2
                (fun _ _ => eq_refl)) as H2.
  cbn [emptyLedger members clusterToken app] in H1, H2.
  destruct (addAll_ledger_ok sort_Sort sort_ok _ rs1 (emptyLedger_ok token))
    as (_ & _ & Hs1).
  destruct (addAll_ledger_ok sort_Sort sort_ok _ rs2 (emptyLedger_ok token))
    as (_ & _ & Hs2).
  assert (Heq : addAll sort_Sort (emptyLedger token) rs1
                = addAll sort_Sort (emptyLedger token) rs2).
  { pose proof (addAll_token sort_Sort sort_ok (emptyLedger token) rs1) as Ht1.
    pose proof (addAll_token sort_Sort sort_ok (emptyLedger token) rs2) as Ht2.
    destruct (addAll sort_Sort (emptyLedger token) rs1) as [t1 l1].
    destruct (addAll sort_Sort (emptyLedger token) rs2) as [t2 l2].
    cbn [members clusterToken] in *. f_equal; [congruence|].
    apply (StronglySorted_unique_strong byRev); [|assumption..|].
    - intros x1 x2 Hx1 Hx2 H12 H21.
      apply (NoDup_map_inj createRev rs1); [exact Hr| | |unfold byRev in *; lia].
      + rewrite H1 in Hx1. now apply list_elem_of_filter in Hx1.
      + rewrite H2 in Hx2. apply list_elem_of_filter in Hx2. now rewrite Hperm.
    - now rewrite H1, H2, Hperm. }
  split; [exact Heq|]. split; [exact H1|]. split; [exact Hs1|].
  intros n. now rewrite Heq.
Qed.

End LedgerClaims.

(** ** White space trimming *)

Lemma stripPrefix_length p s rest :
  stripPrefix p s = Some rest -> (length rest + length p = length s)%nat.
Proof.
  revert s. induction p as [|a p IH]; intros [|b s] H; simpl in *;
    try discriminate.
  - injection H as <-. simpl. lia.
  - injection H as <-. simpl. lia.
  - destruct (Ascii.eqb a b); [|discriminate]. apply IH in H. simpl. lia.
Qed.

Lemma stripPrefix_app p s rest w :
  stripPrefix p s = Some rest -> stripPrefix p (s ++ w) = Some (rest ++ w).
Proof.
  revert s. induction p as [|a p IH]; intros [|b s] H; simpl in *;
    try discriminate.
  - now injection H as <-.
  - now injection H as <-.
  - destruct (Ascii.eqb a b); [auto|discriminate].
Qed.

Lemma stripRune_shorter runes s rest :
  Forall (fun p => p <> []) runes ->
  stripRune runes s = Some rest -> (length rest < length s)%nat.
Proof.
  induction 1 as [|p runes Hp _ IH]; simpl; [discriminate|].
  destruct (stripPrefix p s) as [r|] eqn:E; [|exact IH].
  intros [= <-]. apply stripPrefix_length in E.
  destruct p; [contradiction|]. simpl in E. lia.
Qed.

Lemma stripRune_app runes s rest w :
  stripRune runes s = Some rest -> exists rest', stripRune runes (s ++ w) = Some rest'.
Proof.
  induction runes as [|p runes IH]; simpl; [discriminate|].
  destruct (stripPrefix p s) as [r|] eqn:E.
  - intros _. erewrite stripPrefix_app by exact E. eauto.
  - intros H. destruct (stripPrefix p (s ++ w)); eauto.
Qed.

Lemma stripRune_nil runes :
  Forall (fun p => p <> []) runes -> stripRune runes [] = None.
Proof.
  induction 1 as [|p runes Hp _ IH]; simpl; [reflexivity|].
  destruct p; [contradiction|exact IH].
Qed.

(** With enough fuel, nothing is left to strip. *)
Lemma trimLeft_done runes fuel s :
  Forall (fun p => p <> []) runes -> (length s <= fuel)%nat ->
  stripRune runes (trimLeft runes fuel s) = None.
Proof.
  intros Hr. revert s. induction fuel as [|fuel IH]; intros s Hlen; simpl.
  - destruct s; [now apply stripRune_nil|simpl in Hlen; lia].
  - destruct (stripRune runes s) as [rest|] eqn:E; [|exact E].
    apply IH. apply (stripRune_shorter _ _ _ Hr) in E. lia.
Qed.

(** What is left is the end of the string. *)
Lemma trimLeft_suffix runes fuel s :
  exists pre, s = pre ++ trimLeft runes fuel s.
Proof.
  revert s. induction fuel as [|fuel IH]; intros s; simpl; [now exists []|].
  destruct (stripRune runes s) as [rest|] eqn:E; [|now exists []].
  destruct (IH rest) as [pre Hpre].
  assert (Hs : exists q, s = q ++ rest).
  { clear -E. induction runes as [|p runes IHr]; simpl in E; [discriminate|].
    destruct (stripPrefix p s) as [r|] eqn:Ep; [|auto].
    injection E as ->. clear IHr. revert s Ep.
    induction p as [|a p IHp]; intros [|b s] Ep; simpl in Ep; try discriminate.
    - exists []. now injection Ep as <-.
    - exists []. now injection Ep as <-.
    - destruct (Ascii.eqb a b); [|discriminate].
      destruct (IHp s Ep) as [q ->]. now exists (b :: q). }
  destruct Hs as [q ->]. exists (q ++ pre). rewrite <- app_assoc. now f_equal.
Qed.

Lemma spaceRunes_nonempty : Forall (fun p => p <> []) spaceRunes.
Proof. unfold spaceRunes. repeat constructor; discriminate. Qed.

Lemma rev_spaceRunes_nonempty :
  Forall (fun p => p <> []) (map (@rev ascii) spaceRunes).
Proof. unfold spaceRunes. repeat constructor; discriminate. Qed.

(** [TrimSpace] leaves no white space at either end. *)
Lemma TrimSpace_trimmed s :
  startsWithSpace (TrimSpace s) = false /\ endsWithSpace (TrimSpace s) = false.
Proof.
  unfold startsWithSpace, endsWithSpace, TrimSpace.
  rewrite list_ascii_of_string_of_list_ascii.
  set (l := list_ascii_of_string s).
  assert (Hl : stripRune spaceRunes (TrimLeftSpace l) = None)
    by (apply trimLeft_done; [apply spaceRunes_nonempty|lia]).
  set (t := TrimLeftSpace l) in *.
  unfold TrimRightSpace. rewrite rev_involutive. split.
  - destruct (trimLeft_suffix (map (@rev ascii) spaceRunes) (length t) (rev t))
      as [pre Hpre].
    set (r := trimLeft _ _ _) in *.
    destruct (stripRune spaceRunes (rev r)) eqn:E; [|reflexivity].
    apply (stripRune_app _ _ _ (rev pre)) in E as [rest' E].
    rewrite <- rev_app_distr, <- Hpre, rev_involutive in E. congruence.
  - rewrite trimLeft_done; [reflexivity|apply rev_spaceRunes_nonempty|].
    rewrite length_rev. lia.
Qed.

Lemma stripRune_None_trimLeft runes fuel s :
  stripRune runes s = None -> trimLeft runes fuel s = s.
Proof. destruct fuel; simpl; [reflexivity|]. now intros ->. Qed.

(** No encoding of a white space rune starts another one. *)
Lemma stripRune_space p s :
  p ∈ spaceRunes -> stripRune spaceRunes (p ++ s) = Some s.
Proof.
  revert p. apply Forall_forall.
  unfold spaceRunes. cbn [map]. repeat constructor.
Qed.

Lemma stripRune_rev_space p s :
  p ∈ spaceRunes ->
  stripRune (map (@rev ascii) spaceRunes) (rev p ++ s) = Some s.
Proof.
  revert p. apply Forall_forall.
  unfold spaceRunes. cbn [map]. repeat constructor.
Qed.

Lemma trimLeft_concat runes ps : forall fuel s,
  Forall (fun p => p <> [] /\ forall s, stripRune runes (p ++ s) = Some s) ps ->
  (length (concat ps) <= fuel)%nat ->
  exists fuel', trimLeft runes fuel (concat ps ++ s) = trimLeft runes fuel' s.
Proof.
  induction ps as [|p ps IH]; intros fuel s Hps Hfuel.
  - now exists fuel.
  - apply Forall_cons in Hps as [[Hne Hp] Hps].
    change (concat (p :: ps)) with (p ++ concat ps) in *.
    rewrite length_app in Hfuel.
    assert (Hlen : (1 <= length p)%nat) by (destruct p; [contradiction|cbn; lia]).
    remember (length (concat ps)) as n eqn:En.
    destruct fuel as [|fuel]; [lia|].
    cbn [trimLeft]. rewrite <- app_assoc, Hp.
    apply IH; [exact Hps|]. lia.
Qed.

Lemma stripRune_None runes s :
  stripRune runes s = None <-> Forall (fun q => stripPrefix q s = None) runes.
Proof.
  induction runes as [|q runes IH]; simpl.
  - split; [constructor|reflexivity].
  - destruct (stripPrefix q s) eqn:E.
    + split; [discriminate|]. intros H. apply Forall_cons in H as [H _]. congruence.
    + rewrite IH. split; [now constructor|]. intros H. now apply Forall_cons in H.
Qed.

(** A pattern that matches [core ++ w] and not [core] runs over the end
    of [core]. *)
Lemma stripPrefix_straddle q : forall core w r,
  stripPrefix q (core ++ w) = Some r -> stripPrefix q core = None ->
  exists b q2 w2, w = b :: w2 /\ q = core ++ b :: q2.
Proof.
  induction q as [|a q IH]; intros core w r H1 H2; [discriminate|].
  destruct core as [|c core].
  - cbn [app] in *. destruct w as [|b w2]; [discriminate|].
    simpl in H1. destruct (Ascii.eqb_spec a b) as [->|]; [|discriminate].
    now exists b, q, w2.
  - simpl in H1, H2. destruct (Ascii.eqb_spec a c) as [->|]; [|discriminate].
    destruct (IH core w r H1 H2) as (b & q2 & w2 & -> & ->).
    now exists b, q2, w2.
Qed.

Lemma spaceRunes_tails :
  forallb (fun q => forallb (fun b => negb (isFirstByte b)) (tail q)) spaceRunes
  = true.
Proof. vm_compute. reflexivity. Qed.

Lemma stripRune_no_straddle core qs :
  stripRune spaceRunes core = None -> core <> [] ->
  Forall (fun q => q ∈ spaceRunes) qs ->
  stripRune spaceRunes (core ++ concat qs) = None.
Proof.
  intros Hc Hne Hqs. destruct qs as [|q1 qs]; [now rewrite app_nil_r|].
  apply Forall_cons in Hqs as [Hq1 _].
  apply stripRune_None. rewrite stripRune_None in Hc.
  rewrite Forall_forall in Hc |- *. intros q Hq.
  destruct (stripPrefix q (core ++ concat (q1 :: qs))) as [r|] eqn:E; [|reflexivity].
  exfalso. destruct (stripPrefix_straddle q core _ r E (Hc q Hq))
    as (b & q2 & w2 & Hw & ->).
  destruct core as [|c core]; [contradiction|].
  pose proof spaceRunes_tails as Ht. rewrite forallb_forall in Ht.
  specialize (Ht _ (proj1 (list_elem_of_In _ _) Hq)). cbn [tail app] in Ht.
  rewrite forallb_forall in Ht.
  assert (Hin : In b (core ++ b :: q2)) by (apply in_or_app; right; now left).
  specialize (Ht b Hin).
  apply negb_true_iff in Ht.
  assert (Hb : isFirstByte b = true); [|congruence].
  unfold isFirstByte. apply existsb_exists. exists q1.
  split; [now apply list_elem_of_In|].
  cbn [concat] in Hw. destruct q1 as [|c1 q1'].
  - exfalso. revert Hq1. clear. unfold spaceRunes. cbn [map].
    intros H. repeat (apply elem_of_cons in H as [H|H]; [discriminate H|]).
    inversion H.
  - cbn [app] in Hw. injection Hw as -> _. apply Ascii.eqb_refl.
Qed.

(** A string with white space around a core that has none at its ends
    trims to the core. *)
Lemma TrimSpace_surroundedBy core s : surroundedBy core s -> TrimSpace s = core.
Proof.
  intros (ps & qs & Hps & Hqs & Hs & Hl & Hr).
  unfold TrimSpace. rewrite Hs. clear s Hs.
  unfold startsWithSpace in Hl. unfold endsWithSpace in Hr.
  set (c := list_ascii_of_string core) in *.
  assert (Hl' : stripRune spaceRunes c = None) by (now destruct (stripRune _ c)).
  assert (Hr' : stripRune (map (@rev ascii) spaceRunes) (rev c) = None)
    by (now destruct (stripRune _ (rev c))).
  assert (Hps' : Forall (fun p => p <> [] /\
                   forall s, stripRune spaceRunes (p ++ s) = Some s) ps).
  { eapply Forall_impl; [exact Hps|]. intros p Hp. split.
    - pose proof spaceRunes_nonempty as Hn. rewrite Forall_forall in Hn. now apply Hn.
    - intros s. now apply stripRune_space. }
  assert (Hleft : TrimLeftSpace (concat ps ++ c ++ concat qs)
                  = match c with [] => [] | _ => c ++ concat qs end).
  { unfold TrimLeftSpace. destruct c as [|c0 c'] eqn:Ec.
    - cbn [app].
      assert (Hqs' : Forall (fun p => p <> [] /\
                       forall s, stripRune spaceRunes (p ++ s) = Some s) qs).
      { eapply Forall_impl; [exact Hqs|]. intros p Hp. split.
        - pose proof spaceRunes_nonempty as Hn. rewrite Forall_forall in Hn. now apply Hn.
        - intros s. now apply stripRune_space. }
      rewrite <- concat_app.
      destruct (trimLeft_concat spaceRunes (ps ++ qs)
                  (length (concat (ps ++ qs))) []) as (f & E).
      { apply Forall_app. now split. }
      { lia. }
      rewrite app_nil_r in E. rewrite E.
      now apply stripRune_None_trimLeft.
    - destruct (trimLeft_concat spaceRunes ps
                  (length (concat ps ++ (c0 :: c') ++ concat qs))
                  ((c0 :: c') ++ concat qs) Hps') as (f & ->).
      { rewrite length_app. lia. }
      apply stripRune_None_trimLeft.
      apply stripRune_no_straddle; [exact Hl'|discriminate|exact Hqs]. }
  rewrite Hleft. clear Hleft.
  assert (Hright : TrimRightSpace (match c with [] => [] | _ => c ++ concat qs end) = c).
  { destruct c as [|c0 c'] eqn:Ec; [reflexivity|]. rewrite <- Ec in *.
    unfold TrimRightSpace. rewrite rev_app_distr.
    assert (Hrq : exists rs, rev (concat qs) = concat rs /\
              Forall (fun p => p <> [] /\
                 forall s, stripRune (map (@rev ascii) spaceRunes) (p ++ s) = Some s) rs).
    { clear -Hqs. induction Hqs as [|q qs Hq _ (rs & E & Hrs)].
      - exists []. split; [reflexivity|constructor].
      - exists (rs ++ [rev q]). split.
        + cbn [concat]. rewrite rev_app_distr, E, concat_app. cbn [concat].
          now rewrite app_nil_r.
        + apply Forall_app. split; [exact Hrs|]. constructor; [|constructor]. split.
          * pose proof spaceRunes_nonempty as Hn. rewrite Forall_forall in Hn.
            specialize (Hn q Hq). destruct q; [contradiction|].
            intros H. apply (f_equal (@length ascii)) in H.
            simpl in H. rewrite length_app in H. simpl in H. lia.
          * intros s. now apply stripRune_rev_space. }
    destruct Hrq as (rs & E & Hrs). rewrite E.
    destruct (trimLeft_concat (map (@rev ascii) spaceRunes) rs
                (length (c ++ concat qs)) (rev c) Hrs) as (f & ->).
    { rewrite <- E, length_rev, length_app. lia. }
    rewrite stripRune_None_trimLeft by exact Hr'. apply rev_involutive. }
  rewrite Hright. apply string_of_list_ascii_of_string.
Qed.

(** ** The self scan *)

Lemma findSelf_cases self size idx ms :
  findSelf self size idx ms = None \/
  findSelf self size idx ms = Some ErrFullCluster.
Proof.
  revert idx. induction ms as [|m ms IH]; intros idx; simpl; [now left|].
  destruct (String.eqb (peerRegKey m) self); [now left|].
  destruct (size - 1 <=? idx); [now right|apply IH].
Qed.

Lemma findSelf_full self size idx ms :
  findSelf self size idx ms = Some ErrFullCluster <->
  exists i, size - 1 <= idx + Z.of_nat i /\ (i < length ms)%nat /\
            forall j m, (j <= i)%nat -> ms !! j = Some m -> peerRegKey m <> self.
Proof.
  revert idx. induction ms as [|m ms IH]; intros idx; simpl.
  - split; [discriminate|]. intros (i & _ & Hi & _). lia.
  - destruct (String.eqb_spec (peerRegKey m) self) as [Heq|Hne].
    + split; [discriminate|]. intros (i & _ & _ & H).
      exfalso. apply (H 0%nat m); [lia|reflexivity|exact Heq].
    + destruct (Z.leb_spec (size - 1) idx) as [Hle|Hgt].
      * split; [|reflexivity]. intros _. exists 0%nat.
        split; [lia|]. split; [lia|].
        intros j m' Hj Hm'. assert (j = 0%nat) as -> by lia.
        simpl in Hm'. now injection Hm' as <-.
      * rewrite IH. split.
        -- intros (i & Hi & Hlen & H). exists (S i).
           split; [lia|]. split; [lia|].
           intros [|j] m' Hj Hm'; simpl in Hm'; [now injection Hm' as <-|].
           apply (H j); [lia|exact Hm'].
        -- intros (i & Hi & Hlen & H). destruct i as [|i]; [lia|].
           exists i. split; [lia|]. split; [lia|].
           intros j m' Hj Hm'. apply (H (S j)); [lia|exact Hm'].
Qed.

(** The reads only count one more call. *)
Lemma getClusterSize_called d :
  snd (getClusterSize d) = called d.
Proof.
  unfold getClusterSize.
  destruct (Get _ _ _ _) as [resp|msg]; [|reflexivity].
  destruct (Kvs resp) as [|kv rest]; [reflexivity|].
  destruct (ParseInt (Value kv)) as [n|]; [|reflexivity].
  now destruct (n <=? 0).
Qed.

Lemma getClusterSize_positive d size d1 :
  getClusterSize d = (size, None, d1) -> 0 < size.
Proof.
  unfold getClusterSize.
  destruct (Get _ _ _ _) as [resp|msg]; [|discriminate].
  destruct (Kvs resp) as [|kv rest]; [discriminate|].
  destruct (ParseInt (Value kv)) as [n|]; [|discriminate].
  destruct (Z.leb_spec n 0); [discriminate|]. intros [= <- _]. lia.
Qed.

Section EngineFacts.
Opaque getMemberKey getMemberKeyPrefix geClusterSizeKey geClusterKeyPrefix.

Variable sort_Sort : clusterInfo -> clusterInfo.
Variable ID_String : Z -> string.

Lemma getClusterMembers_called d :
  snd (getClusterMembers sort_Sort d) = called d.
Proof.
  unfold getClusterMembers. now destruct (Get _ _ _ _).
Qed.

(** An attempt whose two reads succeed. *)
Lemma checkCluster_reads_ok fuel d size d1 cls rev d2 :
  getClusterSize d = (size, None, d1) ->
  getClusterMembers sort_Sort d1 = (Some cls, rev, None, d2) ->
  checkCluster sort_Sort ID_String (S fuel) d
  = Done (Some cls, size, rev,
          findSelf (getMemberKey (d_clusterToken d) (ID_String (d_memberId d)))
            size 0 (members cls))
         (set_retries 0 d2).
Proof.
  intros Hs Hm. cbn [checkCluster]. rewrite Hs, Hm.
  pose proof (getClusterSize_called d) as E1. rewrite Hs in E1. cbn in E1.
  pose proof (getClusterMembers_called d1) as E2. rewrite Hm in E2. cbn in E2.
  subst d1 d2. reflexivity.
Qed.

(** Whatever [checkCluster] returns with a ledger comes from the self scan
    of that ledger. *)
Lemma checkCluster_scan fuel d cls size rev err d' :
  checkCluster sort_Sort ID_String fuel d = Done (Some cls, size, rev, err) d' ->
  err = findSelf (selfKey ID_String d) size 0 (members cls) /\ d_retries d' = 0.
Proof.
  revert d. induction fuel as [|fuel IH]; intros d; [discriminate|].
  cbn [checkCluster].
  destruct (getClusterSize d) as [[sz e] d1] eqn:Hs.
  pose proof (getClusterSize_called d) as E1. rewrite Hs in E1. cbn in E1. subst d1.
  assert (Hretry : forall d0, selfKey ID_String d0 = selfKey ID_String d ->
            checkClusterRetry (checkCluster sort_Sort ID_String fuel) d0
            = Done (Some cls, size, rev, err) d' ->
            err = findSelf (selfKey ID_String d) size 0 (members cls) /\ d_retries d' = 0).
  { intros d0 Hk. unfold checkClusterRetry.
    destruct (d_retries d0 <? nRetries); [|discriminate].
    intros H. apply IH in H. now rewrite <- Hk. }
  destruct e as [e|].
  - destruct (isErrSizeNotFound e || isErrBadSizeKey e); [discriminate|].
    now apply Hretry.
  - destruct (getClusterMembers sort_Sort (called d)) as [[[ocls rv] e] d2] eqn:Hm.
    pose proof (getClusterMembers_called (called d)) as E2.
    rewrite Hm in E2. cbn in E2. subst d2.
    destruct e as [e|]; [now apply Hretry|].
    destruct ocls as [c|]; [|discriminate].
    intros [= <- <- <- <- <-]. now split.
Qed.

End EngineFacts.

Section CheckClusterClaims.

Variable sort_Sort : clusterInfo -> clusterInfo.
Variable ID_String : Z -> string.

(** C5. When both reads of [checkCluster] succeed, it returns the ledger,
    the size and the revision, with [ErrFullCluster] exactly when the scan
    reaches a position [i >= clusterSize-1] and neither the member there
    nor any member before it has this node's own key. So with a size of 3
    and three records it returns [ErrFullCluster] when none of them is
    self, and no error when one of them is, the last one included. *)
Theorem checkCluster_full_cluster fuel d size d1 cls rev d2 :
  getClusterSize d = (size, None, d1) ->
  getClusterMembers sort_Sort d1 = (Some cls, rev, None, d2) ->
  let self := getMemberKey (d_clusterToken d) (ID_String (d_memberId d)) in
  exists err,
    checkCluster sort_Sort ID_String (S fuel) d
    = Done (Some cls, size, rev, err) (set_retries 0 d2) /\
    (err = None \/ err = Some ErrFullCluster) /\
    (err = Some ErrFullCluster <->
     exists i, size - 1 <= Z.of_nat i /\ (i < length (members cls))%nat /\
               forall j m, (j <= i)%nat -> members cls !! j = Some m ->
                           peerRegKey m <> self) /\
    (size = 3 -> forall a b c, members cls = [a; b; c] ->
       (peerRegKey a <> self /\ peerRegKey b <> self /\ peerRegKey c <> self ->
        err = Some ErrFullCluster) /\
       (peerRegKey a = self \/ peerRegKey b = self \/ peerRegKey c = self ->
        err = None)).
Proof.
  intros Hs Hm self. eexists.
  split; [exact (checkCluster_reads_ok sort_Sort ID_String fuel d size d1 cls rev d2 Hs Hm)|].
  fold self. split; [apply findSelf_cases|]. split; [apply findSelf_full|].
  intros -> a b c ->. cbn [findSelf]. split.
  - intros (Ha & Hb & Hc).
    apply String.eqb_neq in Ha, Hb, Hc. now rewrite Ha, Hb, Hc.
  - intros H.
    destruct (String.eqb_spec (peerRegKey a) self); [reflexivity|].
    destruct (String.eqb_spec (peerRegKey b) self); [reflexivity|].
    destruct (String.eqb_spec (peerRegKey c) self); [reflexivity|].
    exfalso. tauto.
Qed.

(** C6, amended. When this node's own key is among the first
    [clusterSize] records of the ledger that [checkCluster] returns, it
    returns no error, however many records the ledger holds. *)
Theorem checkCluster_self_among_first fuel d cls size rev err d' :
  checkCluster sort_Sort ID_String fuel d = Done (Some cls, size, rev, err) d' ->
  (exists m, m ∈ take (Z.to_nat size) (members cls) /\
             peerRegKey m
             = getMemberKey (d_clusterToken d) (ID_String (d_memberId d))) ->
  err = None.
Proof.
  intros H (m & Hm & Hkey).
  apply checkCluster_scan in H as [-> _]. unfold selfKey.
  destruct (findSelf_cases (getMemberKey (d_clusterToken d) (ID_String (d_memberId d)))
              size 0 (members cls)) as [E|E]; [exact E|].
  exfalso. apply findSelf_full in E as (i & Hi & _ & Hnot).
  apply elem_of_take in Hm as (j & Hj & Hlt).
  apply (Hnot j m); [lia|exact Hj|exact Hkey].
Qed.

End CheckClusterClaims.

(** ** Back-off *)

Lemma backoff_shift k :
  1 <= k <= 8 ->
  wrap_int64 (wrap_int64 (Z.shiftl 1 k) * time_Second) = 2 ^ k * time_Second.
Proof.
  intros H.
  assert (E : k = 1 \/ k = 2 \/ k = 3 \/ k = 4 \/ k = 5 \/ k = 6 \/ k = 7 \/ k = 8)
    by lia.
  destruct E as [->|[->|[->|[->|[->|[->|[->| ->]]]]]]]; reflexivity.
Qed.

Lemma logAndBackoffForRetry_spec step d :
  0 <= d_retries d < nRetries ->
  logAndBackoffForRetry step d
  = Sleep (2 ^ Z.min (d_retries d + 1) 8 * time_Second)
      (set_retries (d_retries d + 1) d).
Proof.
  intros H. unfold logAndBackoffForRetry, nRetries in *.
  assert (Hw : wrap_uint (d_retries d + 1) = d_retries d + 1)
    by (unfold wrap_uint; apply Z.mod_small; lia).
  rewrite Hw. cbn [d_retries set_retries]. unfold maxExponentialRetries.
  destruct (Z.ltb_spec 8 (d_retries d + 1)).
  - rewrite Z.min_r by lia. now rewrite backoff_shift by lia.
  - rewrite Z.min_l by lia. now rewrite backoff_shift by lia.
Qed.

Section BackoffClaims.

Variable sort_Sort : clusterInfo -> clusterInfo.
Variable ID_String : Z -> string.

Lemma registerSelf_resets fuel contents d d' :
  registerSelf ID_String fuel contents d = Done None d' -> d_retries d' = 0.
Proof.
  revert d. induction fuel as [|fuel IH]; intros d; [discriminate|].
  cbn [registerSelf].
  destruct (Put _ _ _ _).
  - unfold registerSelfRetry. destruct (d_retries (called d) <? nRetries);
      [apply IH|discriminate].
  - now intros [= <-].
Qed.

(** C7, amended. The failure number [k] since the last success (the retry
    counter after its increment, so [k >= 1]) sleeps [2^min(k, 8)]
    seconds: exponential up to 256 seconds, then constant. After a
    success of [checkCluster] or [registerSelf] has reset the counter to
    zero, the next failure sleeps 2 seconds. *)
Theorem backoff_duration step d :
  0 <= d_retries d < nRetries ->
  let k := d_retries d + 1 in
  d_retries (logAndBackoffForRetry step d) = k /\
  d_slept (logAndBackoffForRetry step d)
  = 2 ^ Z.min k 8 * time_Second :: d_slept d /\
  (8 <= k ->
   d_slept (logAndBackoffForRetry step d) = 256 * time_Second :: d_slept d) /\
  (forall fuel d0 cls size rev err,
     checkCluster sort_Sort ID_String fuel d0 = Done (Some cls, size, rev, err) d ->
     d_slept (logAndBackoffForRetry step d) = 2 * time_Second :: d_slept d) /\
  (forall fuel contents d0,
     registerSelf ID_String fuel contents d0 = Done None d ->
     d_slept (logAndBackoffForRetry step d) = 2 * time_Second :: d_slept d).
Proof.
  intros H k. rewrite (logAndBackoffForRetry_spec step d H). fold k.
  cbn [d_retries d_slept Sleep set_retries].
  split; [reflexivity|]. split; [reflexivity|]. split.
  - intros Hk. now rewrite Z.min_r by lia.
  - assert (E : d_retries d = 0 ->
                2 ^ Z.min k 8 * time_Second :: d_slept d
                = 2 * time_Second :: d_slept d).
    { intros E. subst k. now rewrite E. }
    split.
    + intros fuel d0 cls size rev err H0. apply E.
      now apply checkCluster_scan in H0.
    + intros fuel contents d0 H0. apply E.
      now apply registerSelf_resets in H0.
Qed.

End BackoffClaims.

Lemma backoff_duration_witness :
  d_retries (logAndBackoffForRetry "cluster status check"
               (set_retries 9 (newDiscovery sampleToken downClient id1))) = 10 /\
  d_slept (logAndBackoffForRetry "cluster status check"
             (set_retries 9 (newDiscovery sampleToken downClient id1)))
  = [256 * time_Second].
Proof.
  pose proof (backoff_duration insertionSort ID_hex "cluster status check"
                (set_retries 9 (newDiscovery sampleToken downClient id1))) as H.
  cbv zeta in H.
  destruct H as (H1 & _ & H2 & _); [vm_compute; split; [discriminate|reflexivity]|].
  split; [exact H1|]. apply H2. vm_compute. discriminate.
Defined.

(** C7 as stated fails after a reset: the counter is incremented before
    the duration is computed, so the first failure sleeps 2 seconds, not
    the 1 second of [2^0]. *)
Lemma first_backoff_is_two_seconds :
  d_retries (newDiscovery sampleToken downClient id1) = 0 /\
  time_Second = 1000000000 /\
  d_slept (logAndBackoffForRetry "cluster status check"
             (newDiscovery sampleToken downClient id1))
  = [2000000000].
Proof. repeat split; reflexivity. Qed.

(** ** Reading the cluster size *)

Lemma parseDigits_digits acc s n :
  parseDigits acc s = Some n -> forallb isDigit (list_ascii_of_string s) = true.
Proof.
  revert acc. induction s as [|ch s IH]; intros acc; simpl; [reflexivity|].
  unfold isDigit at 1. destruct (digitVal ch); [|discriminate].
  intros H. now rewrite (IH _ H).
Qed.

Lemma ParseInt_numeric s n : ParseInt s = Some n -> numeric s.
Proof.
  destruct s as [|ch r]; [discriminate|]. unfold ParseInt.
  assert (Hu : forall digits un, ParseUint digits = Some un ->
            digits <> "" /\ forallb isDigit (list_ascii_of_string digits) = true).
  { intros [|c0 ds] un; [discriminate|]. unfold ParseUint. intros H.
    split; [discriminate|]. eapply parseDigits_digits, H. }
  destruct (Ascii.eqb_spec ch "+") as [->|Hp].
  - destruct (ParseUint r) as [un|] eqn:E; [|discriminate]. intros _.
    exists "+", r. split; [reflexivity|]. split; [tauto|]. eapply Hu, E.
  - destruct (Ascii.eqb_spec ch "-") as [->|Hm].
    + destruct (ParseUint r) as [un|] eqn:E; [|discriminate]. intros _.
      exists "-", r. split; [reflexivity|]. split; [tauto|]. eapply Hu, E.
    + destruct (ParseUint (String ch r)) as [un|] eqn:E; [|discriminate].
      intros _. exists "", (String ch r).
      split; [reflexivity|]. split; [tauto|]. eapply Hu, E.
Qed.

Lemma logAndBackoffForRetry_frame step d :
  d_c (logAndBackoffForRetry step d) = d_c d /\
  d_clusterToken (logAndBackoffForRetry step d) = d_clusterToken d /\
  d_memberId (logAndBackoffForRetry step d) = d_memberId d /\
  d_ncalls (logAndBackoffForRetry step d) = d_ncalls d.
Proof. repeat split. Qed.

Section RetryClaims.

Variable sort_Sort : clusterInfo -> clusterInfo.
Variable ID_String : Z -> string.

Lemma getClusterSize_error d msg :
  Get (d_c d) (d_ncalls d) (geClusterSizeKey (d_clusterToken d)) false = inr msg ->
  getClusterSize d = (0, Some (clientError msg), called d).
Proof. intros H. unfold getClusterSize. now rewrite H. Qed.

Lemma checkCluster_size_retry fuel d msg :
  Get (d_c d) (d_ncalls d) (geClusterSizeKey (d_clusterToken d)) false = inr msg ->
  checkCluster sort_Sort ID_String (S fuel) d
  = checkClusterRetry (checkCluster sort_Sort ID_String fuel) (called d).
Proof.
  intros H. cbn [checkCluster]. now rewrite (getClusterSize_error d msg H).
Qed.

Lemma checkCluster_members_retry fuel d size d1 msg :
  getClusterSize d = (size, None, d1) ->
  Get (d_c d1) (d_ncalls d1) (getMemberKeyPrefix (d_clusterToken d1)) true = inr msg ->
  checkCluster sort_Sort ID_String (S fuel) d
  = checkClusterRetry (checkCluster sort_Sort ID_String fuel) (called d1).
Proof.
  intros Hs H. cbn [checkCluster]. rewrite Hs.
  unfold getClusterMembers. now rewrite H.
Qed.

Lemma checkCluster_exhausts k : forall d fuel,
  d_retries d = nRetries - Z.of_nat k ->
  0 <= d_retries d ->
  (forall n, (d_ncalls d <= n)%nat -> failsAt (d_c d) (d_clusterToken d) n) ->
  (k < fuel)%nat ->
  exists d', checkCluster sort_Sort ID_String fuel d
             = Done (None, 0, 0, Some ErrTooManyRetries) d'
             /\ d_retries d' = nRetries.
Proof.
  induction k as [|k IH]; intros d fuel Hr H0 Hfail Hfuel;
    (destruct fuel as [|fuel]; [lia|]).
  - assert (Hstop : forall d0, d_retries d0 = d_retries d ->
              exists d', checkClusterRetry (checkCluster sort_Sort ID_String fuel) d0
                         = Done (None, 0, 0, Some ErrTooManyRetries) d'
                         /\ d_retries d' = nRetries).
    { intros d0 E. unfold checkClusterRetry.
      destruct (Z.ltb_spec (d_retries d0) nRetries) as [Hlt|_]; [lia|].
      exists d0. split; [reflexivity|lia]. }
    destruct (Hfail (d_ncalls d) (le_n _)) as [[msg Hg]|(resp & kv & rest & size & msg & Hg & Hk & Hp & Hpos & Hg2)].
    + rewrite (checkCluster_size_retry fuel d msg Hg). now apply Hstop.
    + rewrite (checkCluster_members_retry fuel d size (called d) msg).
      * now apply Hstop.
      * unfold getClusterSize. rewrite Hg, Hk, Hp.
        destruct (Z.leb_spec size 0); [lia|reflexivity].
      * exact Hg2.
  - assert (Hgo : forall d0, d_retries d0 = d_retries d ->
              d_c d0 = d_c d -> d_clusterToken d0 = d_clusterToken d ->
              (d_ncalls d <= d_ncalls d0)%nat ->
              exists d', checkClusterRetry (checkCluster sort_Sort ID_String fuel) d0
                         = Done (None, 0, 0, Some ErrTooManyRetries) d'
                         /\ d_retries d' = nRetries).
    { intros d0 E Ec Et En. unfold checkClusterRetry.
      destruct (Z.ltb_spec (d_retries d0) nRetries) as [Hlt|Hge]; [|lia].
      destruct (logAndBackoffForRetry_frame "cluster status check" d0)
        as (Fc & Ft & _ & Fn).
      apply IH.
      - rewrite logAndBackoffForRetry_spec by lia. cbn [d_retries Sleep set_retries]. lia.
      - rewrite logAndBackoffForRetry_spec by lia. cbn [d_retries Sleep set_retries]. lia.
      - rewrite Fc, Ft, Fn, Ec, Et. intros n Hn. apply Hfail. lia.
      - lia. }
    destruct (Hfail (d_ncalls d) (le_n _)) as [[msg Hg]|(resp & kv & rest & size & msg & Hg & Hk & Hp & Hpos & Hg2)].
    + rewrite (checkCluster_size_retry fuel d msg Hg).
      apply Hgo; [reflexivity..|cbn; lia].
    + rewrite (checkCluster_members_retry fuel d size (called d) msg).
      * apply Hgo; [reflexivity..|cbn; lia].
      * unfold getClusterSize. rewrite Hg, Hk, Hp.
        destruct (Z.leb_spec size 0); [lia|reflexivity].
      * exact Hg2.
Qed.

(** C8. The read of the size returns [ErrSizeNotFound] when the key is
    absent and [ErrBadSizeKey] when its value is not numeric or is not
    positive; [checkCluster] returns these two errors at once, with no
    retry counted and no back-off slept. Every other failure of the read
    of the size or of the members goes to [checkClusterRetry], which backs
    off and runs [checkCluster] again while the retry counter is below
    [nRetries], and returns [ErrTooManyRetries] otherwise: when the reads
    keep failing, that is the result. *)
Theorem size_errors_and_retries :
  (forall d resp,
     Get (d_c d) (d_ncalls d) (geClusterSizeKey (d_clusterToken d)) false = inl resp ->
     (Kvs resp = [] -> getClusterSize d = (0, Some ErrSizeNotFound, called d)) /\
     (forall kv rest, Kvs resp = kv :: rest ->
        ~ numeric (Value kv) \/ ParseInt (Value kv) = None \/
        (exists n, ParseInt (Value kv) = Some n /\ n <= 0) ->
        getClusterSize d = (0, Some ErrBadSizeKey, called d))) /\
  (forall fuel d size e d1,
     getClusterSize d = (size, Some e, d1) ->
     e = ErrSizeNotFound \/ e = ErrBadSizeKey ->
     checkCluster sort_Sort ID_String (S fuel) d = Done (None, 0, 0, Some e) (called d)) /\
  (forall fuel d msg,
     Get (d_c d) (d_ncalls d) (geClusterSizeKey (d_clusterToken d)) false = inr msg ->
     checkCluster sort_Sort ID_String (S fuel) d
     = if d_retries d <? nRetries
       then checkCluster sort_Sort ID_String fuel
              (logAndBackoffForRetry "cluster status check" (called d))
       else Done (None, 0, 0, Some ErrTooManyRetries) (called d)) /\
  (forall fuel d size d1 msg,
     getClusterSize d = (size, None, d1) ->
     Get (d_c d1) (d_ncalls d1) (getMemberKeyPrefix (d_clusterToken d1)) true = inr msg ->
     checkCluster sort_Sort ID_String (S fuel) d
     = if d_retries d <? nRetries
       then checkCluster sort_Sort ID_String fuel
              (logAndBackoffForRetry "cluster status check" (called d1))
       else Done (None, 0, 0, Some ErrTooManyRetries) (called d1)) /\
  (forall d fuel,
     0 <= d_retries d <= nRetries ->
     (forall n, (d_ncalls d <= n)%nat -> failsAt (d_c d) (d_clusterToken d) n) ->
     (Z.to_nat (nRetries - d_retries d) < fuel)%nat ->
     exists d', checkCluster sort_Sort ID_String fuel d
                = Done (None, 0, 0, Some ErrTooManyRetries) d'
                /\ d_retries d' = nRetries).
Proof.
  split; [|split; [|split; [|split]]].
  - intros d resp Hg. unfold getClusterSize. rewrite Hg. split.
    + now intros ->.
    + intros kv rest -> H.
      destruct (ParseInt (Value kv)) as [n|] eqn:E; [|reflexivity].
      destruct (Z.leb_spec n 0) as [|Hpos]; [reflexivity|].
      exfalso. destruct H as [H|[H|(n' & H & Hle)]].
      * apply H. eapply ParseInt_numeric, E.
      * discriminate.
      * injection H as <-. lia.
  - intros fuel d size e d1 Hs He. cbn [checkCluster]. rewrite Hs.
    pose proof (getClusterSize_called d) as E1. rewrite Hs in E1. cbn in E1.
    subst d1. now destruct He as [-> | ->].
  - intros fuel d msg Hg. now rewrite (checkCluster_size_retry fuel d msg Hg).
  - intros fuel d size d1 msg Hs Hg.
    rewrite (checkCluster_members_retry fuel d size d1 msg Hs Hg).
    pose proof (getClusterSize_called d) as E1. rewrite Hs in E1. cbn in E1.
    now subst d1.
  - intros d fuel Hr Hfail Hfuel.
    apply (checkCluster_exhausts (Z.to_nat (nRetries - d_retries d)));
      [lia|lia|exact Hfail|exact Hfuel].
Qed.

End RetryClaims.

(** ** Waiting for peers *)

Section WaitClaims.

Variable sort_Sort : clusterInfo -> clusterInfo.
Variable NewURLsMap : string -> option error.
Variable ID_String : Z -> string.

(** The errors [checkCluster] returns. *)
Lemma checkCluster_errors fuel : forall d ocls size rev e d',
  checkCluster sort_Sort ID_String fuel d = Done (ocls, size, rev, Some e) d' ->
  e = ErrFullCluster \/ e = ErrSizeNotFound \/ e = ErrBadSizeKey
  \/ e = ErrTooManyRetries.
Proof.
  induction fuel as [|fuel IH]; intros d ocls size rev e d'; [discriminate|].
  cbn [checkCluster].
  assert (Hretry : forall d0,
            checkClusterRetry (checkCluster sort_Sort ID_String fuel) d0
            = Done (ocls, size, rev, Some e) d' ->
            e = ErrFullCluster \/ e = ErrSizeNotFound \/ e = ErrBadSizeKey
            \/ e = ErrTooManyRetries).
  { intros d0. unfold checkClusterRetry.
    destruct (d_retries d0 <? nRetries); [apply IH|].
    intros [= _ _ _ <- _]. tauto. }
  destruct (getClusterSize d) as [[sz [e0|]] d1].
  - destruct e0; cbn [isErrSizeNotFound isErrBadSizeKey orb];
      try apply Hretry; intros [= _ _ _ <- _]; tauto.
  - destruct (getClusterMembers sort_Sort d1) as [[[oc rv] [e1|]] d2];
      [apply Hretry|].
    destruct oc as [c|]; [|discriminate].
    intros H. injection H as _ _ _ Hf _.
    match type of Hf with
    | findSelf ?k ?s ?i ?m = _ =>
        destruct (findSelf_cases k s i m) as [E|E]; rewrite E in Hf;
          [discriminate|]
    end.
    injection Hf as <-. tauto.
Qed.

Lemma registerSelf_errors fuel contents : forall d e d',
  registerSelf ID_String fuel contents d = Done (Some e) d' ->
  e = ErrTooManyRetries.
Proof.
  induction fuel as [|fuel IH]; intros d e d'; [discriminate|].
  cbn [registerSelf]. destruct (Put _ _ _ _); [|discriminate].
  unfold registerSelfRetry. destruct (d_retries (called d) <? nRetries);
    [apply IH|]. now intros [= <- _].
Qed.

Lemma getInitClusterStr_error cls n e :
  snd (getInitClusterStr NewURLsMap cls n) = Some e -> e = ErrInvalidURL.
Proof.
  unfold getInitClusterStr. destruct (NewURLsMap _); cbn; congruence.
Qed.

(** C9, amended. [waitPeers] makes one [Watch] call from the revision
    after [rev] and feeds the ledger until the stream ends or the ledger
    reaches the target size; it has no error to return, counts no retry
    and sleeps no back-off. When the stream ends with the ledger short of
    the target size, the loop of [getCluster] and [joinCluster] calls
    [waitPeers] again with the same ledger, size and revision. The errors
    the two return come from [checkCluster], [registerSelf] and the
    validation of the string, never from the stream. *)
Theorem waitPeers_ends_without_error :
  (forall cls size rev d,
     waitPeers sort_Sort cls size rev d
     = (consume sort_Sort cls size
          (Watch (d_c d) (d_ncalls d) (getMemberKeyPrefix (d_clusterToken d))
             (wrap_int64 (rev + 1))),
        called d) /\
     d_retries (snd (waitPeers sort_Sort cls size rev d)) = d_retries d /\
     d_slept (snd (waitPeers sort_Sort cls size rev d)) = d_slept d) /\
  (forall fuel cls size rev d,
     Len cls < size ->
     Len (fst (waitPeers sort_Sort cls size rev d)) < size ->
     waitLoop sort_Sort (S (S fuel)) cls size rev d
     = waitLoop sort_Sort fuel
         (fst (waitPeers sort_Sort (fst (waitPeers sort_Sort cls size rev d))
                 size rev (called d)))
         size rev (called (called d))) /\
  (forall fuel d s e d',
     getCluster sort_Sort NewURLsMap ID_String fuel d = Done (s, Some e) d' ->
     e = ErrInvalidURL \/ e = ErrSizeNotFound \/ e = ErrBadSizeKey
     \/ e = ErrTooManyRetries) /\
  (forall fuel config d s e d',
     joinCluster sort_Sort NewURLsMap ID_String fuel config d = Done (s, Some e) d' ->
     e = ErrInvalidURL \/ e = ErrSizeNotFound \/ e = ErrBadSizeKey
     \/ e = ErrTooManyRetries \/ e = ErrFullCluster).
Proof.
  split; [|split; [|split]].
  - intros cls size rev d. repeat split.
  - intros fuel cls size rev d H0 H1.
    cbn [waitLoop]. destruct (Z.ltb_spec (Len cls) size); [|lia].
    cbn [waitPeers fst] in *.
    destruct (Z.ltb_spec (Len (consume sort_Sort cls size
      (Watch (d_c d) (d_ncalls d) (getMemberKeyPrefix (d_clusterToken d))
         (wrap_int64 (rev + 1))))) size); [reflexivity|lia].
  - intros fuel d s e d'. unfold getCluster.
    destruct (checkCluster sort_Sort ID_String fuel d)
      as [[[[ocls size] rev] [e0|]] d1| |] eqn:Hc; cbn [bind]; try discriminate.
    + apply checkCluster_errors in Hc.
      destruct (isErrFullCluster e0) eqn:Hf.
      * destruct ocls as [cls|]; [|discriminate]. intros [= He _].
        left. apply (getInitClusterStr_error cls size). now rewrite He.
      * intros [= _ <- _]. destruct Hc as [->|Hc]; [discriminate|tauto].
    + destruct ocls as [cls|]; [|discriminate].
      destruct (waitLoop sort_Sort fuel cls size rev d1) as [cls1 d2| |];
        cbn [bind]; try discriminate.
      intros [= He _]. left. apply (getInitClusterStr_error cls1 size).
      now rewrite He.
  - intros fuel config d s e d'. unfold joinCluster.
    destruct (checkCluster sort_Sort ID_String fuel d)
      as [[[[ocls size] rev] [e0|]] d1| |] eqn:Hc; cbn [bind]; try discriminate.
    { apply checkCluster_errors in Hc. intros [= _ <- _]. tauto. }
    destruct (registerSelf ID_String fuel config d1) as [[e1|] d2| |] eqn:Hr;
      cbn [bind]; try discriminate.
    { apply registerSelf_errors in Hr. intros [= _ <- _]. tauto. }
    destruct (checkCluster sort_Sort ID_String fuel d2)
      as [[[[ocls2 size2] rev2] [e2|]] d3| |] eqn:Hc2; cbn [bind]; try discriminate.
    { apply checkCluster_errors in Hc2. intros [= _ <- _]. tauto. }
    destruct ocls2 as [cls|]; [|discriminate].
    destruct (waitLoop sort_Sort fuel cls size2 rev2 d3) as [cls1 d4| |];
      cbn [bind]; try discriminate.
    intros [= He _]. left. apply (getInitClusterStr_error cls1 size2).
    now rewrite He.
Qed.

End WaitClaims.

(** ** Trimming of the registry entries *)

Section TrimClaims.

Variable sort_Sort : clusterInfo -> clusterInfo.
Hypothesis sort_ok : sortsByLess sort_Sort.

(** What [add] does to the members: nothing, or one more record. *)
Lemma add_members cls k v r :
  (add sort_Sort cls k v r = (fst (add sort_Sort cls k v r), None) /\
   members (fst (add sort_Sort cls k v r))
   ≡ₚ members cls ++ [ {| peerRegKey := k; peerURLsMap := v; createRev := r |} ])
  \/ (exists e, add sort_Sort cls k v r = (cls, Some e)).
Proof.
  destruct (HasPrefix k (getMemberKeyPrefix (clusterToken cls))) eqn:Hp;
    [|right; apply add_rejected; auto].
  destruct (Z.eq_dec (IndexRune v "=") (-1)) as [Hv|Hv];
    [right; apply add_rejected; auto|].
  destruct (exist cls k) eqn:He; [right; apply add_rejected; auto|].
  destruct (add_accepted sort_Sort sort_ok cls k v r Hp Hv He)
    as (cls' & -> & _ & Hperm & _).
  left. now split.
Qed.

Lemma addKv_trimmed cls kv :
  trimmedLedger cls -> trimmedLedger (addKv sort_Sort cls kv).
Proof.
  unfold trimmedLedger, addKv. intros H.
  destruct (add_members cls (TrimSpace (Key kv)) (TrimSpace (Value kv))
              (CreateRevision kv)) as [[_ Hperm]|[e ->]]; [|exact H].
  rewrite Hperm. apply Forall_app. split; [exact H|].
  constructor; [|constructor]. cbn [peerRegKey peerURLsMap].
  destruct (TrimSpace_trimmed (Key kv)), (TrimSpace_trimmed (Value kv)). tauto.
Qed.

Lemma addKv_exist cls kv k :
  exist cls k = true -> exist (addKv sort_Sort cls kv) k = true.
Proof.
  unfold addKv. intros H.
  destruct (add_members cls (TrimSpace (Key kv)) (TrimSpace (Value kv))
              (CreateRevision kv)) as [[_ Hperm]|[e ->]]; [|exact H].
  apply exist_spec in H as (m & Hm & Hk). apply exist_spec.
  exists m. split; [|exact Hk]. rewrite Hperm. apply elem_of_app. now left.
Qed.

Lemma fold_addKv_trimmed kvs cls :
  trimmedLedger cls -> trimmedLedger (fold_left (addKv sort_Sort) kvs cls).
Proof.
  revert cls. induction kvs as [|kv kvs IH]; intros cls H; [exact H|].
  apply IH, addKv_trimmed, H.
Qed.

Lemma fold_addKv_exist kvs cls k :
  exist cls k = true -> exist (fold_left (addKv sort_Sort) kvs cls) k = true.
Proof.
  revert cls. induction kvs as [|kv kvs IH]; intros cls H; [exact H|].
  apply IH, addKv_exist, H.
Qed.

Lemma fold_addKv_token kvs cls :
  clusterToken (fold_left (addKv sort_Sort) kvs cls) = clusterToken cls.
Proof.
  revert cls. induction kvs as [|kv kvs IH]; intros cls; [reflexivity|].
  cbn [fold_left]. rewrite IH. apply add_token, sort_ok.
Qed.

Lemma consume_trimmed w cls size :
  trimmedLedger cls -> trimmedLedger (consume sort_Sort cls size w).
Proof.
  revert cls. induction w as [|wresp w IH]; intros cls H; [exact H|].
  cbn [consume].
  assert (H1 : trimmedLedger
                 (fold_left (fun c ev => addKv sort_Sort c (Kv ev)) (Events wresp) cls)).
  { clear IH. revert cls H. induction (Events wresp) as [|ev evs IHe];
      intros cls H; [exact H|]. apply IHe, addKv_trimmed, H. }
  destruct (size <=? Len _); [exact H1|apply IH, H1].
Qed.

(** C10. The keys and values read from the registry, by
    [getClusterMembers] or from the events of a watch, reach [add] only
    through [strings.TrimSpace]: no record of the ledger starts or ends
    with white space in its key or value, and of two entries whose keys
    are the same key with white space around it, the second is rejected
    once the first is accepted: the key is present, so [add] returns an
    error, the duplicate one when the value holds '='. *)
Theorem registry_entries_are_trimmed :
  (forall cls kv,
     addKv sort_Sort cls kv
     = fst (add sort_Sort cls (TrimSpace (Key kv)) (TrimSpace (Value kv))
              (CreateRevision kv))) /\
  (forall d cls rev d',
     getClusterMembers sort_Sort d = (Some cls, rev, None, d') ->
     trimmedLedger cls /\
     exists resp,
       Get (d_c d) (d_ncalls d) (getMemberKeyPrefix (d_clusterToken d)) true
       = inl resp /\
       cls = fold_left (addKv sort_Sort) (Kvs resp) (emptyLedger (d_clusterToken d))) /\
  (forall cls size rev d,
     trimmedLedger cls ->
     trimmedLedger (fst (waitPeers sort_Sort cls size rev d))) /\
  (forall cls core kv1 kvs kv2,
     surroundedBy core (Key kv1) ->
     surroundedBy core (Key kv2) ->
     snd (add sort_Sort cls (TrimSpace (Key kv1)) (TrimSpace (Value kv1))
            (CreateRevision kv1)) = None ->
     let cls1 := fold_left (addKv sort_Sort) kvs (addKv sort_Sort cls kv1) in
     exist cls1 core = true /\
     addKv sort_Sort cls1 kv2 = cls1 /\
     exists e,
       add sort_Sort cls1 (TrimSpace (Key kv2)) (TrimSpace (Value kv2))
         (CreateRevision kv2) = (cls1, Some e) /\
       (In "="%char (list_ascii_of_string (TrimSpace (Value kv2))) ->
        e = errorString "found duplicate peer from discovery service")).
Proof using sort_ok.
  split; [reflexivity|]. split; [|split].
  - intros d cls rev d'. unfold getClusterMembers.
    destruct (Get _ _ _ _) as [resp|msg] eqn:Hg; [|discriminate].
    intros [= <- _ _]. split.
    + apply fold_addKv_trimmed. constructor.
    + now exists resp.
  - intros cls size rev d H. cbn [waitPeers fst]. now apply consume_trimmed.
  - intros cls core kv1 kvs kv2 Hk1 Hk2 Hacc cls1.
    apply TrimSpace_surroundedBy in Hk1, Hk2.
    assert (Hk : TrimSpace (Key kv1) = TrimSpace (Key kv2)) by congruence.
    rewrite <- Hk2.
    assert (He : exist cls1 (TrimSpace (Key kv2)) = true).
    { apply fold_addKv_exist. unfold addKv. rewrite <- Hk.
      destruct (add_members cls (TrimSpace (Key kv1)) (TrimSpace (Value kv1))
                  (CreateRevision kv1)) as [[_ Hperm]|[e He]];
        [|rewrite He in Hacc; discriminate].
      apply exist_spec.
      exists {| peerRegKey := TrimSpace (Key kv1);
                peerURLsMap := TrimSpace (Value kv1);
                createRev := CreateRevision kv1 |}.
      split; [|reflexivity].
      rewrite Hperm. apply elem_of_app. right. now left. }
    destruct (add_rejected sort_Sort cls1 (TrimSpace (Key kv2))
                (TrimSpace (Value kv2)) (CreateRevision kv2)) as [e Hrej]; [auto|].
    unfold addKv at 1. rewrite Hrej. split; [exact He|]. split; [reflexivity|].
    exists e. split; [reflexivity|]. intros Hin.
    assert (Hp : HasPrefix (TrimSpace (Key kv2))
                   (getMemberKeyPrefix (clusterToken cls1)) = true).
    { destruct (HasPrefix _ _) eqn:E; [reflexivity|]. exfalso.
      revert Hrej. unfold add. rewrite E. cbn [negb].
      assert (Ht : clusterToken cls1 = clusterToken cls).
      { subst cls1. rewrite fold_addKv_token. apply add_token, sort_ok. }
      revert Hacc. unfold add. rewrite Hk, <- Ht, E. discriminate. }
    revert Hrej. unfold add. rewrite Hp, He. cbn [negb].
    destruct (Z.eqb_spec (IndexRune (TrimSpace (Value kv2)) "=") (-1)) as [Hv|_].
    + exfalso. apply IndexRune_absent in Hv. contradiction.
    + now intros [= <-].
Qed.

End TrimClaims.

(** ** The ledger claims at the sample cluster, with Go's insertion sort *)

Lemma getInitClusterStr_caps_witness :
  0 <= 2 < Len (addAll insertionSort (emptyLedger sampleToken) [m3; m1; m2]) /\
  exists first rest,
    members (addAll insertionSort (emptyLedger sampleToken) [m3; m1; m2])
    = first ++ rest /\
    Z.of_nat (length first) = 2 /\
    StronglySorted byRev first /\
    (forall a b, a ∈ first -> b ∈ rest -> createRev a <= createRev b) /\
    fst (getInitClusterStr acceptURLs
           (addAll insertionSort (emptyLedger sampleToken) [m3; m1; m2]) 2)
    = strings_Join (map peerURLsMap first) ",".
Proof.
  assert (H : 0 <= 2 < Len (addAll insertionSort (emptyLedger sampleToken) [m3; m1; m2]))
    by (vm_compute; split; [discriminate|reflexivity]).
  split; [exact H|].
  exact (getInitClusterStr_caps insertionSort acceptURLs insertionSort_sortsByLess
           sampleToken [m3; m1; m2] 2 H).
Defined.

Example getInitClusterStr_sample :
  getInitClusterStr acceptURLs
    (addAll insertionSort (emptyLedger sampleToken) [m3; m1; m2]) 2
  = ("infra1=http://127.0.0.1:12380,infra2=http://127.0.0.1:22380", None).
Proof. reflexivity. Qed.

Lemma add_rejects_or_grows_witness :
  snd (add insertionSort (emptyLedger sampleToken)
         (peerRegKey m1) (peerURLsMap m1) (createRev m1)) = None /\
  length (members (fst (add insertionSort (emptyLedger sampleToken)
                          (peerRegKey m1) (peerURLsMap m1) (createRev m1))))
  = 1%nat.
Proof.
  apply (add_rejects_or_grows insertionSort insertionSort_sortsByLess
           (emptyLedger sampleToken) (peerRegKey m1) (peerURLsMap m1) (createRev m1)).
  intros [H|[H|H]].
  - discriminate H.
  - apply H. vm_compute. tauto.
  - destruct H as [m [Hm _]]. inversion Hm.
Defined.

Lemma ledger_invariant_witness :
  ledger_ok (addAll insertionSort (emptyLedger sampleToken) [m3; m1; m2; m1]) /\
  clusterToken (addAll insertionSort (emptyLedger sampleToken) [m3; m1; m2; m1])
  = sampleToken.
Proof.
  exact (proj2 (proj2 (ledger_invariant insertionSort insertionSort_sortsByLess))
           sampleToken [m3; m1; m2; m1]).
Defined.

Lemma addAll_order_independent_witness :
  addAll insertionSort (emptyLedger sampleToken) [m3; m1; m2]
  = addAll insertionSort (emptyLedger sampleToken) [m2; m3; m1].
Proof.
  refine (proj1 (addAll_order_independent insertionSort acceptURLs
                   insertionSort_sortsByLess sampleToken [m3; m1; m2] [m2; m3; m1] _ _ _)).
  - change ([m3; m1; m2] ≡ₚ [m2] ++ [m3; m1]).
    apply (Permutation_app_comm [m3; m1] [m2]).
  - repeat (apply NoDup_cons_2; [vm_compute; intros H; repeat (apply elem_of_cons in H as [H|H]; [discriminate H|]); inversion H|]).
    apply NoDup_nil_2.
  - repeat (apply NoDup_cons_2; [vm_compute; intros H; repeat (apply elem_of_cons in H as [H|H]; [discriminate H|]); inversion H|]).
    apply NoDup_nil_2.
Defined.

(** C2 as stated fails when two records have the same [createRev]: with
    the insertion sort the library runs on two elements, the records stay
    in the order of their insertion, so the two orders of insertion give
    two different strings. *)
Lemma addAll_order_matters_on_ties :
  [m1; m2tie] ≡ₚ [m2tie; m1] /\
  createRev m1 = createRev m2tie /\
  fst (getInitClusterStr acceptURLs
         (addAll insertionSort (emptyLedger sampleToken) [m1; m2tie]) 2)
  = "infra1=http://127.0.0.1:12380,infra2=http://127.0.0.1:22380" /\
  fst (getInitClusterStr acceptURLs
         (addAll insertionSort (emptyLedger sampleToken) [m2tie; m1]) 2)
  = "infra2=http://127.0.0.1:22380,infra1=http://127.0.0.1:12380".
Proof.
  split; [apply Permutation_swap|]. repeat split; reflexivity.
Qed.

(** ** The engine claims at the sample cluster *)

(** Self at the last permitted position, index [clusterSize-1]. *)
Lemma checkCluster_full_cluster_witness :
  let d := newDiscovery sampleToken (sampleClient "3" [m1; m2; m3] (fun _ => [])) id3 in
  peerRegKey m3 = getMemberKey (d_clusterToken d) (ID_hex (d_memberId d)) /\
  checkCluster insertionSort ID_hex 1 d
  = Done (Some ledger3, 3, 20, None) (set_retries 0 (called (called d))).
Proof.
  intros d. split; [vm_compute; reflexivity|].
  destruct (checkCluster_full_cluster insertionSort ID_hex 0 d 3 (called d)
              ledger3 20 (called (called d)))
    as (err & Hrun & _ & _ & H3); [vm_compute; reflexivity..|].
  rewrite Hrun. f_equal. f_equal.
  apply (H3 eq_refl m1 m2 m3 eq_refl). right. right. vm_compute. reflexivity.
Defined.

(** Three records for a size of two: the second registrant is not turned
    away. *)
Lemma checkCluster_self_among_first_witness :
  let d := newDiscovery sampleToken (sampleClient "2" [m1; m2; m3] (fun _ => [])) id2 in
  checkCluster insertionSort ID_hex 1 d
  = Done (Some ledger3, 2, 20, None) (set_retries 0 (called (called d))) /\
  m2 ∈ take (Z.to_nat 2) (members ledger3) /\
  peerRegKey m2 = getMemberKey (d_clusterToken d) (ID_hex (d_memberId d)) /\
  @None error = None.
Proof.
  intros d.
  assert (Hrun : checkCluster insertionSort ID_hex 1 d
                 = Done (Some ledger3, 2, 20, None) (set_retries 0 (called (called d))))
    by (vm_compute; reflexivity).
  assert (Hin : m2 ∈ take (Z.to_nat 2) (members ledger3))
    by (right; left).
  assert (Hkey : peerRegKey m2
                 = getMemberKey (d_clusterToken d) (ID_hex (d_memberId d)))
    by (vm_compute; reflexivity).
  split; [exact Hrun|]. split; [exact Hin|]. split; [exact Hkey|].
  exact (checkCluster_self_among_first insertionSort ID_hex 1 d ledger3 2 20 None _
           Hrun (ex_intro _ m2 (conj Hin Hkey))).
Defined.

(** C6 as stated fails when self is registered after the first
    [clusterSize] records: with a size of two and self third in revision
    order, the scan stops at index 1 and [checkCluster] returns
    [ErrFullCluster], although the ledger holds the key of self. *)
Lemma checkCluster_full_despite_self :
  let d := newDiscovery sampleToken (sampleClient "2" [m1; m2; m3] (fun _ => [])) id3 in
  exist ledger3 (getMemberKey (d_clusterToken d) (ID_hex (d_memberId d))) = true /\
  checkCluster insertionSort ID_hex 1 d
  = Done (Some ledger3, 2, 20, Some ErrFullCluster)
      (set_retries 0 (called (called d))).
Proof. split; vm_compute; reflexivity. Qed.

(** One retry left and a registry that cannot be reached. *)
Lemma size_errors_and_retries_witness :
  exists d',
    checkCluster insertionSort ID_hex 2
      (set_retries (nRetries - 1) (newDiscovery sampleToken downClient id1))
    = Done (None, 0, 0, Some ErrTooManyRetries) d'
    /\ d_retries d' = nRetries.
Proof.
  apply (proj2 (proj2 (proj2 (proj2 (size_errors_and_retries insertionSort ID_hex))))).
  - vm_compute. split; discriminate.
  - intros n _. left. now exists "context deadline exceeded".
  - vm_compute. lia.
Defined.

Example size_not_found_is_fatal :
  returned (checkCluster insertionSort ID_hex 1
              (newDiscovery sampleToken
                 {| Get := fun _ _ _ => inl {| Kvs := []; Revision := 20 |};
                    Put := fun _ _ _ => None;
                    Watch := fun _ _ _ => [] |} id1))
  = Some (None, 0, 0, Some ErrSizeNotFound).
Proof. vm_compute. reflexivity. Qed.

Example bad_size_is_fatal :
  returned (checkCluster insertionSort ID_hex 1
              (newDiscovery sampleToken (sampleClient "three" [] (fun _ => [])) id1))
  = Some (None, 0, 0, Some ErrBadSizeKey) /\
  returned (checkCluster insertionSort ID_hex 1
              (newDiscovery sampleToken (sampleClient "0" [] (fun _ => [])) id1))
  = Some (None, 0, 0, Some ErrBadSizeKey).
Proof. split; vm_compute; reflexivity. Qed.

(** A registry with one member registered, whose first watch (the call
    number 2 of an observer) is closed before it delivers anything, and
    whose later watches deliver the second member. *)
Lemma waitPeers_ends_without_error_witness :
  let c := sampleClient "2" [m1]
             (fun n => match n with
                       | 2%nat => []
                       | _ => [ {| Events := [ {| Kv := kvOf m2 |} ] |} ]
                       end) in
  let d := called (called (newDiscovery sampleToken c 0)) in
  let cls := {| clusterToken := sampleToken; members := [m1] |} in
  Len cls < 2 /\
  Len (fst (waitPeers insertionSort cls 2 20 d)) < 2 /\
  waitLoop insertionSort 2 cls 2 20 d
  = waitLoop insertionSort 0
      (fst (waitPeers insertionSort (fst (waitPeers insertionSort cls 2 20 d))
              2 20 (called d)))
      2 20 (called (called d)).
Proof.
  intros c d cls.
  assert (H0 : Len cls < 2) by (vm_compute; reflexivity).
  assert (H1 : Len (fst (waitPeers insertionSort cls 2 20 d)) < 2)
    by (vm_compute; reflexivity).
  split; [exact H0|]. split; [exact H1|].
  exact (proj1 (proj2 (waitPeers_ends_without_error insertionSort acceptURLs ID_hex))
           0%nat cls 2 20 d H0 H1).
Defined.

(** C9 as stated fails: the first watch is closed with the ledger short
    of the target size, and [GetCluster] and [JoinCluster] return the
    cluster string with no error, after a second watch. *)
Lemma closed_watch_is_no_error :
  let c := sampleClient "2" [m1]
             (fun n => match n with
                       | 2%nat | 4%nat => []
                       | _ => [ {| Events := [ {| Kv := kvOf m2 |} ] |} ]
                       end) in
  Watch c 2 (getMemberKeyPrefix sampleToken) 21 = [] /\
  Watch c 4 (getMemberKeyPrefix sampleToken) 21 = [] /\
  returned (GetCluster insertionSort acceptURLs ID_hex 3 sampleToken c)
  = Some ("infra1=http://127.0.0.1:12380,infra2=http://127.0.0.1:22380", None) /\
  returned (JoinCluster insertionSort acceptURLs ID_hex 3 sampleToken c id1
              "infra1=http://127.0.0.1:12380")
  = Some ("infra1=http://127.0.0.1:12380,infra2=http://127.0.0.1:22380", None).
Proof. repeat split; vm_compute; reflexivity. Qed.

(** Two registry keys that differ in a trailing space. *)
Lemma registry_entries_are_trimmed_witness :
  let kv1 := {| Key := "/_etcd/registry/cluster-1/members/8e9e05c52164694d ";
                Value := " infra1=http://127.0.0.1:12380";
                CreateRevision := 11 |} in
  let kv2 := kvOf m1 in
  let cls1 := addKv insertionSort (emptyLedger sampleToken) kv1 in
  members cls1 = [m1] /\
  addKv insertionSort cls1 kv2 = cls1 /\
  exists e,
    add insertionSort cls1 (TrimSpace (Key kv2)) (TrimSpace (Value kv2))
      (CreateRevision kv2) = (cls1, Some e) /\
    (In "="%char (list_ascii_of_string (TrimSpace (Value kv2))) ->
     e = errorString "found duplicate peer from discovery service").
Proof.
  intros kv1 kv2 cls1. split; [vm_compute; reflexivity|].
  refine (proj2 (proj2 (proj2 (proj2 (registry_entries_are_trimmed insertionSort
            insertionSort_sortsByLess))) (emptyLedger sampleToken)
            (peerRegKey m1) kv1 [] kv2 _ _ _)).
  - exists [], [ [" "%char] ]. repeat split; try (vm_compute; reflexivity).
    + constructor.
    + repeat constructor.
  - exists [], []. repeat split; try (vm_compute; reflexivity); constructor.
  - vm_compute. reflexivity.
Defined.

(** * Further properties of the package *)

(** The key functions, as equations; past these they are not unfolded. *)
Lemma geClusterKeyPrefix_eq cluster :
  geClusterKeyPrefix cluster = path_Join [discoveryPrefix; cluster].
Proof. reflexivity. Qed.

Lemma geClusterSizeKey_eq cluster :
  geClusterSizeKey cluster
  = path_Join [geClusterKeyPrefix cluster; "_config/size"].
Proof. reflexivity. Qed.

Lemma getMemberKeyPrefix_eq token :
  getMemberKeyPrefix token = path_Join [geClusterKeyPrefix token; "members"].
Proof. reflexivity. Qed.

Lemma getMemberKey_eq cluster memberId :
  getMemberKey cluster memberId
  = path_Join [getMemberKeyPrefix cluster; memberId].
Proof. reflexivity. Qed.

Opaque getMemberKey getMemberKeyPrefix geClusterSizeKey geClusterKeyPrefix.

(** ** The ledger as a [sort.Interface] *)

Lemma insert_head_perm {A} (l : list A) j x b :
  l !! j = Some b -> b :: <[j := x]> l ≡ₚ x :: l.
Proof.
  revert j. induction l as [|y l IH]; intros [|j] H; simpl in *; try discriminate.
  - injection H as ->. apply Permutation_swap.
  - rewrite Permutation_swap, (IH j H). apply Permutation_swap.
Qed.

Lemma insert_swap_perm {A} (l : list A) i j a b :
  l !! i = Some a -> l !! j = Some b -> <[i := b]> (<[j := a]> l) ≡ₚ l.
Proof.
  revert i j. induction l as [|x l IH]; intros [|i] [|j] Ha Hb; simpl in *;
    try discriminate.
  - injection Ha as ->. now injection Hb as ->.
  - injection Ha as ->. now apply insert_head_perm.
  - injection Hb as ->. now apply insert_head_perm.
  - now rewrite (IH i j Ha Hb).
Qed.

(** [Swap] exchanges the members at two positions of the ledger and
    touches nothing else: the others stay, the token and the length stay,
    the members are the same up to order, and swapping again undoes it. *)
Theorem Swap_exchanges cls i j mi mj :
  members cls !! i = Some mi ->
  members cls !! j = Some mj ->
  clusterToken (Swap cls i j) = clusterToken cls /\
  members (Swap cls i j) !! i = Some mj /\
  members (Swap cls i j) !! j = Some mi /\
  (forall k, k <> i -> k <> j ->
             members (Swap cls i j) !! k = members cls !! k) /\
  Len (Swap cls i j) = Len cls /\
  members (Swap cls i j) ≡ₚ members cls /\
  Swap (Swap cls i j) i j = cls.
Proof.
  intros Hi Hj.
  assert (Hli : (i < length (members cls))%nat) by (eapply lookup_lt_Some; eassumption).
  assert (Hlj : (j < length (members cls))%nat) by (eapply lookup_lt_Some; eassumption).
  assert (Hsi : members (Swap cls i j) !! i = Some mj).
  { unfold Swap. rewrite Hi, Hj. cbn [members].
    apply list_lookup_insert_eq. now rewrite length_insert. }
  assert (Hsj : members (Swap cls i j) !! j = Some mi).
  { unfold Swap. rewrite Hi, Hj. cbn [members].
    destruct (decide (i = j)) as [->|Hne].
    - rewrite list_lookup_insert_eq by (now rewrite length_insert). congruence.
    - rewrite list_lookup_insert_ne by exact Hne.
      now apply list_lookup_insert_eq. }
  assert (Hother : forall k, k <> i -> k <> j ->
            members (Swap cls i j) !! k = members cls !! k).
  { intros k Hki Hkj. unfold Swap. rewrite Hi, Hj. cbn [members].
    rewrite !list_lookup_insert_ne by congruence. reflexivity. }
  split; [unfold Swap; now rewrite Hi, Hj|].
  split; [exact Hsi|]. split; [exact Hsj|]. split; [exact Hother|].
  split; [unfold Len, Swap; rewrite Hi, Hj; cbn [members];
          now rewrite !length_insert|].
  split; [unfold Swap; rewrite Hi, Hj; cbn [members];
          now apply insert_swap_perm|].
  unfold Swap at 1. rewrite Hsi, Hsj.
  destruct cls as [tok ms]. cbn [members clusterToken] in *.
  assert (Ht : clusterToken (Swap {| clusterToken := tok; members := ms |} i j) = tok)
    by (unfold Swap; cbn [members]; now rewrite Hi, Hj).
  rewrite Ht. f_equal. apply list_eq. intros k.
  destruct (decide (k = i)) as [->|Hki].
  - rewrite list_lookup_insert_eq by (rewrite length_insert; eapply lookup_lt_Some, Hsi).
    now symmetry.
  - rewrite list_lookup_insert_ne by congruence.
    destruct (decide (k = j)) as [->|Hkj].
    + rewrite list_lookup_insert_eq by (eapply lookup_lt_Some, Hsj). now symmetry.
    + rewrite list_lookup_insert_ne by congruence. now apply Hother.
Qed.

Lemma Swap_exchanges_witness :
  members (Swap ledger3 0 2) = [m3; m2; m1] /\
  Swap (Swap ledger3 0 2) 0 2 = ledger3.
Proof.
  destruct (Swap_exchanges ledger3 0 2 m1 m3 eq_refl eq_refl)
    as (_ & _ & _ & _ & _ & _ & H).
  split; [reflexivity|exact H].
Defined.

(** [Less] is a strict weak order on the positions of the ledger, as
    [sort.Sort] needs: irreflexive, asymmetric, transitive, and with a
    transitive incomparability (equal revisions). *)
Theorem Less_strict_weak_order cls :
  (forall i, Less cls i i = false) /\
  (forall i j, Less cls i j = true -> Less cls j i = false) /\
  (forall i j k, Less cls i j = true -> Less cls j k = true ->
                 Less cls i k = true) /\
  (forall i j k mj, members cls !! j = Some mj ->
     Less cls i j = false -> Less cls j i = false ->
     Less cls j k = false -> Less cls k j = false ->
     Less cls i k = false /\ Less cls k i = false).
Proof.
  unfold Less. repeat split.
  - intros i. destruct (members cls !! i); [apply Z.ltb_irrefl|reflexivity].
  - intros i j. destruct (members cls !! i), (members cls !! j); try discriminate.
    intros H. apply Z.ltb_lt in H. apply Z.ltb_ge. lia.
  - intros i j k.
    destruct (members cls !! i), (members cls !! j), (members cls !! k);
      try discriminate.
    intros H1 H2. apply Z.ltb_lt in H1, H2. apply Z.ltb_lt. lia.
  - revert H0 H1 H2 H3. rewrite H.
    destruct (members cls !! i), (members cls !! k); try reflexivity.
    intros H1 H2 H3 H4. apply Z.ltb_ge in H1, H2, H3, H4. apply Z.ltb_ge. lia.
  - revert H0 H1 H2 H3. rewrite H.
    destruct (members cls !! i), (members cls !! k); try reflexivity.
    intros H1 H2 H3 H4. apply Z.ltb_ge in H1, H2, H3, H4. apply Z.ltb_ge. lia.
Qed.

(** ** [add], [exist] and the rendering *)

Lemma exist_perm cls1 cls2 k :
  members cls1 ≡ₚ members cls2 -> exist cls1 k = exist cls2 k.
Proof.
  intros H. destruct (exist cls2 k) eqn:E.
  - apply exist_spec in E as (m & Hm & Hk). apply exist_spec.
    exists m. now rewrite H.
  - apply exist_false_keys in E. apply exist_false_keys. now rewrite H.
Qed.

Lemma exist_snoc tok ms m k :
  exist {| clusterToken := tok; members := ms ++ [m] |} k
  = exist {| clusterToken := tok; members := ms |} k
    || String.eqb k (peerRegKey m).
Proof.
  unfold exist. cbn [members]. rewrite existsb_app. cbn [existsb].
  now rewrite orb_false_r.
Qed.

Section LedgerExtras.

Variable sort_Sort : clusterInfo -> clusterInfo.
Hypothesis sort_ok : sortsByLess sort_Sort.

(** After [add] has accepted a key, [exist] finds it, and a second [add]
    of the key, whatever its value and revision, returns an error and
    leaves the ledger as it is; [add] never changes what [exist] says of
    the other keys, and never removes a key. *)
Theorem add_then_exist cls key value rev :
  (snd (add sort_Sort cls key value rev) = None ->
   exist cls key = false /\
   exist (fst (add sort_Sort cls key value rev)) key = true /\
   Len (fst (add sort_Sort cls key value rev)) = Len cls + 1 /\
   forall value' rev',
     exists e,
       add sort_Sort (fst (add sort_Sort cls key value rev)) key value' rev'
       = (fst (add sort_Sort cls key value rev), Some e)) /\
  (forall k, k <> key ->
     exist (fst (add sort_Sort cls key value rev)) k = exist cls k) /\
  (forall k, exist cls k = true ->
     exist (fst (add sort_Sort cls key value rev)) k = true).
Proof using sort_ok.
  destruct (add_members sort_Sort sort_ok cls key value rev)
    as [[Hacc Hperm]|[e Hrej]].
  - assert (Hex : forall k,
              exist (fst (add sort_Sort cls key value rev)) k
              = exist cls k || String.eqb k key).
    { intros k.
      rewrite (exist_perm _ {| clusterToken := clusterToken cls;
                               members := members cls ++
                                 [ {| peerRegKey := key; peerURLsMap := value;
                                      createRev := rev |} ] |} k Hperm).
      rewrite exist_snoc. now destruct cls. }
    split; [|split].
    + intros _.
      assert (He : exist cls key = false).
      { destruct (exist cls key) eqn:E; [|reflexivity].
        destruct (add_rejected sort_Sort cls key value rev) as [e He]; [auto|].
        rewrite He in Hacc. discriminate. }
      split; [exact He|]. split; [rewrite Hex, String.eqb_refl; apply orb_true_r|].
      split; [unfold Len; rewrite Hperm, length_app; cbn [length]; lia|].
      intros value' rev'. apply add_rejected. right. right.
      rewrite Hex, String.eqb_refl. apply orb_true_r.
    + intros k Hk. rewrite Hex.
      destruct (String.eqb_spec k key); [contradiction|apply orb_false_r].
    + intros k Hk. rewrite Hex, Hk. reflexivity.
  - rewrite Hrej. cbn [fst snd]. split; [discriminate|]. now split.
Qed.

End LedgerExtras.

Lemma add_then_exist_witness :
  exist (emptyLedger sampleToken) (peerRegKey m1) = false /\
  exist (fst (add insertionSort (emptyLedger sampleToken)
                (peerRegKey m1) (peerURLsMap m1) (createRev m1)))
    (peerRegKey m1) = true.
Proof.
  destruct (add_then_exist insertionSort insertionSort_sortsByLess
              (emptyLedger sampleToken) (peerRegKey m1) (peerURLsMap m1)
              (createRev m1)) as (H & _).
  destruct H as (H1 & H2 & _); [vm_compute; reflexivity|]. now split.
Defined.


(** ** The reads of the registry *)

(** [getClusterSize] makes one [Get] of the size key. It returns a size
    with no error exactly when the reply holds a key-value whose first
    value parses to a positive integer, which is the size (later
    key-values are not read); with an error, the size is 0 and the error
    is [ErrSizeNotFound], [ErrBadSizeKey] or the error of the client. *)
Theorem getClusterSize_spec d :
  snd (getClusterSize d) = called d /\
  (forall size,
     fst (getClusterSize d) = (size, None) <->
     0 < size /\
     exists resp kv rest,
       Get (d_c d) (d_ncalls d) (geClusterSizeKey (d_clusterToken d)) false
       = inl resp /\
       Kvs resp = kv :: rest /\ ParseInt (Value kv) = Some size) /\
  (forall size e,
     fst (getClusterSize d) = (size, Some e) ->
     size = 0 /\
     (e = ErrSizeNotFound \/ e = ErrBadSizeKey \/
      exists msg,
        e = clientError msg /\
        Get (d_c d) (d_ncalls d) (geClusterSizeKey (d_clusterToken d)) false
        = inr msg)).
Proof.
  split; [apply getClusterSize_called|].
  unfold getClusterSize.
  destruct (Get _ _ _ _) as [resp|msg]; cbn [fst].
  2:{ split.
      - intros size. split; [discriminate|]. now intros (_ & resp & kv & rest & H & _).
      - intros size e [= <- <-]. split; [reflexivity|]. right. right. now exists msg. }
  destruct (Kvs resp) as [|kv rest] eqn:Hk; cbn [fst].
  { split.
    - intros size. split; [discriminate|].
      intros (_ & resp' & kv & rest & [= <-] & H & _). congruence.
    - intros size e [= <- <-]. auto. }
  destruct (ParseInt (Value kv)) as [n|] eqn:Hp; cbn [fst].
  2:{ split.
      - intros size. split; [discriminate|].
        intros (_ & resp' & kv' & rest' & [= <-] & H & Hp').
        rewrite Hk in H. injection H as <- <-. congruence.
      - intros size e [= <- <-]. auto. }
  destruct (Z.leb_spec n 0) as [Hle|Hpos]; cbn [fst].
  - split.
    + intros size. split; [discriminate|].
      intros (Hs & resp' & kv' & rest' & [= <-] & H & Hp').
      rewrite Hk in H. injection H as <- <-. rewrite Hp in Hp'.
      injection Hp' as <-. lia.
    + intros size e [= <- <-]. auto.
  - split.
    + intros size. split.
      * intros [= <-]. split; [exact Hpos|]. now exists resp, kv, rest.
      * intros (Hs & resp' & kv' & rest' & [= <-] & H & Hp').
        rewrite Hk in H. injection H as <- <-. congruence.
    + intros size e. discriminate.
Qed.

Section ReadExtras.

Variable sort_Sort : clusterInfo -> clusterInfo.
Hypothesis sort_ok : sortsByLess sort_Sort.

Lemma addKv_ledger_ok cls kv :
  ledger_ok cls -> ledger_ok (addKv sort_Sort cls kv).
Proof. apply add_ledger_ok, sort_ok. Qed.

Lemma addKv_members cls kv m :
  m ∈ members (addKv sort_Sort cls kv) ->
  m ∈ members cls \/
  m = {| peerRegKey := TrimSpace (Key kv); peerURLsMap := TrimSpace (Value kv);
         createRev := CreateRevision kv |}.
Proof.
  unfold addKv.
  destruct (add_members sort_Sort sort_ok cls (TrimSpace (Key kv))
              (TrimSpace (Value kv)) (CreateRevision kv))
    as [[_ Hperm]|[e ->]]; [|now left].
  rewrite Hperm. intros H. apply elem_of_app in H as [H|H]; [now left|].
  right. now apply list_elem_of_singleton in H.
Qed.

Lemma addKv_Len cls kv :
  Len cls <= Len (addKv sort_Sort cls kv) <= Len cls + 1.
Proof.
  unfold addKv, Len.
  destruct (add_members sort_Sort sort_ok cls (TrimSpace (Key kv))
              (TrimSpace (Value kv)) (CreateRevision kv))
    as [[_ Hperm]|[e ->]]; [|cbn [fst]; lia].
  rewrite Hperm, length_app. cbn [length]. lia.
Qed.

(** A valid entry is in the ledger once it has been fed to it. *)
Lemma addKv_valid_exists cls kv :
  HasPrefix (TrimSpace (Key kv)) (getMemberKeyPrefix (clusterToken cls)) = true ->
  In "="%char (list_ascii_of_string (TrimSpace (Value kv))) ->
  exist (addKv sort_Sort cls kv) (TrimSpace (Key kv)) = true.
Proof.
  intros Hp Hv. destruct (exist cls (TrimSpace (Key kv))) eqn:He.
  - now apply addKv_exist.
  - unfold addKv.
    destruct (add_accepted sort_Sort sort_ok cls (TrimSpace (Key kv))
                (TrimSpace (Value kv)) (CreateRevision kv) Hp)
      as (cls' & -> & _ & Hperm & _); [|exact He|].
    { intros H. apply IndexRune_absent in H. contradiction. }
    cbn [fst]. apply exist_spec. eexists. split.
    + rewrite Hperm. apply elem_of_app. right. left.
    + reflexivity.
Qed.

Lemma fold_addKv_spec kvs : forall cls,
  ledger_ok cls ->
  let cls' := fold_left (addKv sort_Sort) kvs cls in
  ledger_ok cls' /\
  Len cls <= Len cls' <= Len cls + Z.of_nat (length kvs) /\
  (forall m, m ∈ members cls' ->
     m ∈ members cls \/
     exists kv, kv ∈ kvs /\
       m = {| peerRegKey := TrimSpace (Key kv);
              peerURLsMap := TrimSpace (Value kv);
              createRev := CreateRevision kv |}) /\
  (forall kv, kv ∈ kvs ->
     HasPrefix (TrimSpace (Key kv)) (getMemberKeyPrefix (clusterToken cls)) = true ->
     In "="%char (list_ascii_of_string (TrimSpace (Value kv))) ->
     exist cls' (TrimSpace (Key kv)) = true).
Proof.
  induction kvs as [|kv kvs IH]; intros cls Hok; cbn [fold_left].
  - split; [exact Hok|]. split; [cbn [length]; lia|]. split; [now left|].
    intros kv H. inversion H.
  - destruct (IH (addKv sort_Sort cls kv) (addKv_ledger_ok cls kv Hok))
      as (H1 & H2 & H3 & H4).
    pose proof (addKv_Len cls kv) as HL.
    split; [exact H1|]. split; [cbn [length]; lia|]. split.
    + intros m Hm. destruct (H3 m Hm) as [Hin|(kv' & Hkv' & ->)].
      * apply addKv_members in Hin as [Hin| ->]; [now left|].
        right. exists kv. split; [left|reflexivity].
      * right. exists kv'. split; [now right|reflexivity].
    + intros kv' Hin Hp Hv. apply elem_of_cons in Hin as [-> |Hin].
      * apply fold_addKv_exist; [exact sort_ok|]. now apply addKv_valid_exists.
      * apply H4; [exact Hin| |exact Hv].
        unfold addKv. now rewrite add_token.
Qed.

Lemma getClusterMembers_ok d cls rev d' :
  getClusterMembers sort_Sort d = (Some cls, rev, None, d') ->
  ledger_ok cls /\ clusterToken cls = d_clusterToken d.
Proof using sort_ok.
  unfold getClusterMembers.
  destruct (Get _ _ _ _) as [resp|msg]; [|discriminate].
  intros [= <- _ _].
  destruct (fold_addKv_spec (Kvs resp) (emptyLedger (d_clusterToken d))
              (emptyLedger_ok _)) as (H1 & _).
  split; [exact H1|apply (fold_addKv_token sort_Sort sort_ok)].
Qed.

(** [getClusterMembers] makes one [Get] of the member prefix. When it
    fails, the ledger is nil, the revision 0 and the error the client's.
    When it succeeds, the revision is the one of the reply, and the ledger
    keeps its invariant under the token of the engine: each of its
    records is the trimmed key and value of an entry of the reply, it has
    no more records than the reply has entries, and every entry with a
    valid key and value has its key in the ledger. *)
Theorem getClusterMembers_spec d :
  match Get (d_c d) (d_ncalls d) (getMemberKeyPrefix (d_clusterToken d)) true with
  | inr msg =>
      getClusterMembers sort_Sort d = (None, 0, Some (clientError msg), called d)
  | inl resp =>
      exists cls,
        getClusterMembers sort_Sort d = (Some cls, Revision resp, None, called d) /\
        clusterToken cls = d_clusterToken d /\
        ledger_ok cls /\
        Len cls <= Z.of_nat (length (Kvs resp)) /\
        (forall m, m ∈ members cls ->
           exists kv, kv ∈ Kvs resp /\
             m = {| peerRegKey := TrimSpace (Key kv);
                    peerURLsMap := TrimSpace (Value kv);
                    createRev := CreateRevision kv |}) /\
        (forall kv, kv ∈ Kvs resp ->
           HasPrefix (TrimSpace (Key kv)) (getMemberKeyPrefix (d_clusterToken d)) = true ->
           In "="%char (list_ascii_of_string (TrimSpace (Value kv))) ->
           exist cls (TrimSpace (Key kv)) = true)
  end.
Proof using sort_ok.
  unfold getClusterMembers.
  destruct (Get _ _ _ _) as [resp|msg]; [|reflexivity].
  eexists. split; [reflexivity|].
  destruct (fold_addKv_spec (Kvs resp) (emptyLedger (d_clusterToken d))
              (emptyLedger_ok _)) as (H1 & H2 & H3 & H4).
  split; [apply (fold_addKv_token sort_Sort sort_ok)|].
  split; [exact H1|]. split; [exact (proj2 H2)|]. split; [|exact H4].
  intros m Hm. destruct (H3 m Hm) as [Hin|H]; [inversion Hin|exact H].
Qed.

End ReadExtras.

Lemma getClusterMembers_spec_witness :
  exists cls,
    getClusterMembers insertionSort
      (newDiscovery sampleToken (sampleClient "3" [m3; m1; m2] (fun _ => [])) id1)
    = (Some cls, 20, None,
       called (newDiscovery sampleToken (sampleClient "3" [m3; m1; m2] (fun _ => [])) id1)) /\
    ledger_ok cls /\ Len cls <= 3.
Proof.
  destruct (getClusterMembers_spec insertionSort insertionSort_sortsByLess
              (newDiscovery sampleToken (sampleClient "3" [m3; m1; m2] (fun _ => [])) id1))
    as (cls & H1 & _ & H2 & H3 & _).
  exists cls. split; [exact H1|]. split; [exact H2|exact H3].
Defined.

(** ** Rules for the retrying methods *)

Section EngineRules.

Variable sort_Sort : clusterInfo -> clusterInfo.
Variable ID_String : Z -> string.

(** A property [P] kept by the client calls and by the back-off gives [Q]
    of whatever [checkCluster] returns, when [Q] holds at each of its
    three ways out. *)
Lemma checkCluster_rule (P : discovery -> Prop)
  (Q : option clusterInfo * Z * Z * option error -> discovery -> Prop) :
  (forall d, P d -> P (called d)) ->
  (forall d, P d -> d_retries d < nRetries ->
             P (logAndBackoffForRetry "cluster status check" d)) ->
  (forall d size e, P d -> getClusterSize d = (size, Some e, called d) ->
     e = ErrSizeNotFound \/ e = ErrBadSizeKey ->
     Q (None, 0, 0, Some e) (called d)) ->
  (forall d, P d -> nRetries <= d_retries d ->
     Q (None, 0, 0, Some ErrTooManyRetries) d) ->
  (forall d size cls rev, P d ->
     getClusterSize d = (size, None, called d) ->
     getClusterMembers sort_Sort (called d)
     = (Some cls, rev, None, called (called d)) ->
     Q (Some cls, size, rev,
        findSelf (selfKey ID_String d) size 0 (members cls))
       (set_retries 0 (called (called d)))) ->
  forall fuel d r d',
    P d -> checkCluster sort_Sort ID_String fuel d = Done r d' -> Q r d'.
Proof.
  intros Hcall Hback Hfatal Hstop Hok.
  induction fuel as [|fuel IH]; intros d r d' HP; [discriminate|].
  cbn [checkCluster].
  assert (Hretry : forall d0, P d0 ->
            checkClusterRetry (checkCluster sort_Sort ID_String fuel) d0
            = Done r d' -> Q r d').
  { intros d0 HP0. unfold checkClusterRetry.
    destruct (Z.ltb_spec (d_retries d0) nRetries) as [Hlt|Hge].
    - apply IH. now apply Hback.
    - intros [= <- <-]. now apply Hstop. }
  destruct (getClusterSize d) as [[sz e] d1] eqn:Hs.
  pose proof (getClusterSize_called d) as E1. rewrite Hs in E1. cbn in E1. subst d1.
  destruct e as [e|].
  - destruct e; cbn [isErrSizeNotFound isErrBadSizeKey orb];
      try (apply Hretry, Hcall, HP);
      intros [= <- <-]; eapply Hfatal; eauto.
  - destruct (getClusterMembers sort_Sort (called d)) as [[[ocls rv] e] d2] eqn:Hm.
    pose proof (getClusterMembers_called sort_Sort (called d)) as E2.
    rewrite Hm in E2. cbn in E2. subst d2.
    destruct e as [e|]; [apply Hretry, Hcall, Hcall, HP|].
    destruct ocls as [cls|]; [|discriminate].
    intros [= <- <-]. now apply Hok.
Qed.

Lemma registerSelf_rule (P : discovery -> Prop)
  (Q : option error -> discovery -> Prop) contents :
  (forall d, P d -> P (called d)) ->
  (forall d, P d -> d_retries d < nRetries ->
             P (logAndBackoffForRetry "register member itself" d)) ->
  (forall d, P d -> nRetries <= d_retries d -> Q (Some ErrTooManyRetries) d) ->
  (forall d, P d ->
     Put (d_c d) (d_ncalls d) (selfKey ID_String d) contents = None ->
     Q None (set_retries 0 (called d))) ->
  forall fuel d r d',
    P d -> registerSelf ID_String fuel contents d = Done r d' -> Q r d'.
Proof.
  intros Hcall Hback Hstop Hok.
  induction fuel as [|fuel IH]; intros d r d' HP; [discriminate|].
  cbn [registerSelf]. fold (selfKey ID_String d).
  destruct (Put _ _ _ _) eqn:E.
  - unfold registerSelfRetry.
    destruct (Z.ltb_spec (d_retries (called d)) nRetries) as [Hlt|Hge].
    + apply IH. apply Hback; [now apply Hcall|exact Hlt].
    + intros [= <- <-]. apply Hstop; [now apply Hcall|exact Hge].
  - intros [= <- <-]. now apply Hok.
Qed.

End EngineRules.

(** ** What the engine keeps *)

Lemma advances_refl d : 0 <= d_retries d <= nRetries -> advances d d.
Proof.
  intros H. repeat split; try lia. exists []. split; [reflexivity|constructor].
Qed.

Lemma advances_called d0 d : advances d0 d -> advances d0 (called d).
Proof.
  intros (H1 & H2 & H3 & H4 & H5 & H6). repeat split; try assumption; cbn; lia.
Qed.

Lemma advances_set_retries d0 d : advances d0 d -> advances d0 (set_retries 0 d).
Proof.
  intros (H1 & H2 & H3 & H4 & H5 & H6).
  repeat split; try assumption; cbn; unfold nRetries; lia.
Qed.

Lemma advances_backoff step d0 d :
  advances d0 d -> d_retries d < nRetries ->
  advances d0 (logAndBackoffForRetry step d).
Proof.
  intros (H1 & H2 & H3 & H4 & H5 & more & H6 & H7) Hlt.
  rewrite logAndBackoffForRetry_spec by lia.
  repeat split; try assumption; cbn [d_retries Sleep set_retries]; try lia.
  exists (2 ^ Z.min (d_retries d + 1) 8 * time_Second :: more).
  cbn [d_slept Sleep set_retries]. split; [now rewrite H6|].
  constructor; [|exact H7]. unfold boundedSleep, time_Second.
  assert (E : 2 ^ 1 <= 2 ^ Z.min (d_retries d + 1) 8 <= 2 ^ 8)
    by (split; apply Z.pow_le_mono_r; lia).
  change (2 ^ 1) with 2 in E. change (2 ^ 8) with 256 in E. lia.
Qed.

Lemma findSelf_none self size ms : forall idx,
  idx < size ->
  findSelf self size idx ms = None ->
  idx + Z.of_nat (length ms) < size \/
  exists j m, ms !! j = Some m /\ peerRegKey m = self /\
              idx + Z.of_nat j <= size - 1.
Proof.
  induction ms as [|m ms IH]; intros idx Hidx; cbn [findSelf length].
  - intros _. left. lia.
  - destruct (String.eqb_spec (peerRegKey m) self) as [Heq|Hne].
    + intros _. right. exists 0%nat, m. split; [reflexivity|]. split; [exact Heq|lia].
    + destruct (Z.leb_spec (size - 1) idx) as [|Hgt]; [discriminate|].
      intros Hf. apply IH in Hf; [|lia].
      destruct Hf as [Hf|(j & m' & Hj & Hk & Hle)].
      * left. lia.
      * right. exists (S j), m'. split; [exact Hj|]. split; [exact Hk|lia].
Qed.

Section CheckClusterExtras.

Variable sort_Sort : clusterInfo -> clusterInfo.
Variable ID_String : Z -> string.
Hypothesis sort_ok : sortsByLess sort_Sort.

(** What [checkCluster] returns is one of three things. With no error:
    the ledger read, under the invariant and the token of the engine, a
    positive size, the retry counter at zero, and either room left in the
    cluster or self among the first [clusterSize] records. With
    [ErrFullCluster]: the same, but the ledger holds at least
    [clusterSize] records and none of the first [clusterSize] is self.
    With any other error, which is [ErrSizeNotFound], [ErrBadSizeKey] or
    [ErrTooManyRetries]: a nil ledger, size 0 and revision 0. *)
Theorem checkCluster_result fuel d ocls size rev err d' :
  checkCluster sort_Sort ID_String fuel d = Done (ocls, size, rev, err) d' ->
  match err with
  | None =>
      exists cls,
        ocls = Some cls /\ 0 < size /\ d_retries d' = 0 /\
        ledger_ok cls /\ clusterToken cls = d_clusterToken d /\
        (Len cls < size \/
         exists m, m ∈ take (Z.to_nat size) (members cls) /\
                   peerRegKey m = selfKey ID_String d)
  | Some ErrFullCluster =>
      exists cls,
        ocls = Some cls /\ 0 < size <= Len cls /\ d_retries d' = 0 /\
        ledger_ok cls /\ clusterToken cls = d_clusterToken d /\
        forall m, m ∈ take (Z.to_nat size) (members cls) ->
                  peerRegKey m <> selfKey ID_String d
  | Some e =>
      ocls = None /\ size = 0 /\ rev = 0 /\
      (e = ErrSizeNotFound \/ e = ErrBadSizeKey \/ e = ErrTooManyRetries)
  end.
Proof using sort_ok.
  intros Hrun.
  refine (checkCluster_rule sort_Sort ID_String
            (fun d1 => d_clusterToken d1 = d_clusterToken d /\
                       d_memberId d1 = d_memberId d)
            (fun r d1 => match r with
               | (ocls, size, rev, err) => match err with
                 | None => exists cls, ocls = Some cls /\ 0 < size /\ d_retries d1 = 0 /\
                     ledger_ok cls /\ clusterToken cls = d_clusterToken d /\
                     (Len cls < size \/
                      exists m, m ∈ take (Z.to_nat size) (members cls) /\
                                peerRegKey m = selfKey ID_String d)
                 | Some ErrFullCluster => exists cls,
                     ocls = Some cls /\ 0 < size <= Len cls /\ d_retries d1 = 0 /\
                     ledger_ok cls /\ clusterToken cls = d_clusterToken d /\
                     forall m, m ∈ take (Z.to_nat size) (members cls) ->
                               peerRegKey m <> selfKey ID_String d
                 | Some e => ocls = None /\ size = 0 /\ rev = 0 /\
                     (e = ErrSizeNotFound \/ e = ErrBadSizeKey \/ e = ErrTooManyRetries)
                 end end)
            _ _ _ _ _ fuel d (ocls, size, rev, err) d' (conj eq_refl eq_refl) Hrun).
  - now intros d1 [? ?].
  - now intros d1 [? ?] _.
  - intros d1 sz e _ _ [-> | ->]; repeat split; auto.
  - intros d1 _ _. repeat split; auto.
  - intros d1 sz cls rv [Ht Hi] Hs Hm.
    assert (Hself : selfKey ID_String d1 = selfKey ID_String d)
      by (unfold selfKey; now rewrite Ht, Hi).
    rewrite Hself.
    apply getClusterSize_positive in Hs.
    destruct (getClusterMembers_ok sort_Sort sort_ok _ _ _ _ Hm) as [Hok Htok].
    cbn [d_clusterToken called] in Htok. rewrite Ht in Htok.
    destruct (findSelf_cases (selfKey ID_String d) sz 0 (members cls)) as [E|E];
      rewrite E.
    + eexists. split; [reflexivity|]. split; [exact Hs|].
      split; [reflexivity|]. split; [exact Hok|]. split; [exact Htok|].
      apply findSelf_none in E; [|exact Hs].
      destruct E as [Hf|(j & m & Hj & Hk & Hle)].
      * left. unfold Len. lia.
      * right. exists m. split; [|exact Hk].
        apply elem_of_take. exists j. split; [exact Hj|lia].
    + apply findSelf_full in E as (i & Hi1 & Hi2 & Hnot).
      eexists. split; [reflexivity|]. split; [unfold Len; lia|].
      split; [reflexivity|]. split; [exact Hok|]. split; [exact Htok|].
      intros m Hm'. apply elem_of_take in Hm' as (j & Hj & Hlt).
      apply (Hnot j m); [lia|exact Hj].
Qed.

End CheckClusterExtras.

Lemma checkCluster_result_witness :
  exists cls,
    Some ledger3 = Some cls /\ 0 < 2 <= Len cls /\
    ledger_ok cls /\
    forall m, m ∈ take (Z.to_nat 2) (members cls) ->
      peerRegKey m
      <> selfKey ID_hex
           (newDiscovery sampleToken
              (sampleClient "2" [m1; m2; m3] (fun _ => [])) id3).
Proof.
  pose proof (checkCluster_result insertionSort ID_hex insertionSort_sortsByLess 1
                (newDiscovery sampleToken (sampleClient "2" [m1; m2; m3] (fun _ => [])) id3)
                (Some ledger3) 2 20 (Some ErrFullCluster)
                (set_retries 0 (called (called
                   (newDiscovery sampleToken (sampleClient "2" [m1; m2; m3] (fun _ => [])) id3)))))
    as H.
  cbv beta iota in H. destruct H as (cls & H1 & H2 & _ & H3 & _ & H4).
  - vm_compute. reflexivity.
  - exists cls. split; [exact H1|]. split; [exact H2|]. split; [exact H3|exact H4].
Defined.

(** ** Back-off bounds *)

(** The more failures were counted, the longer the back-off, between 2
    and 256 seconds. *)
Theorem backoff_nondecreasing step d1 d2 :
  0 <= d_retries d1 <= d_retries d2 ->
  d_retries d2 < nRetries ->
  exists t1 t2,
    d_slept (logAndBackoffForRetry step d1) = t1 :: d_slept d1 /\
    d_slept (logAndBackoffForRetry step d2) = t2 :: d_slept d2 /\
    2 * time_Second <= t1 /\ t1 <= t2 /\ t2 <= 256 * time_Second.
Proof.
  intros H1 H2. rewrite !logAndBackoffForRetry_spec by lia.
  cbn [d_slept Sleep set_retries]. eexists _, _.
  split; [reflexivity|]. split; [reflexivity|].
  assert (E1 : 2 ^ 1 <= 2 ^ Z.min (d_retries d1 + 1) 8)
    by (apply Z.pow_le_mono_r; lia).
  assert (E2 : 2 ^ Z.min (d_retries d1 + 1) 8 <= 2 ^ Z.min (d_retries d2 + 1) 8)
    by (apply Z.pow_le_mono_r; lia).
  assert (E3 : 2 ^ Z.min (d_retries d2 + 1) 8 <= 2 ^ 8)
    by (apply Z.pow_le_mono_r; lia).
  change (2 ^ 1) with 2 in E1. change (2 ^ 8) with 256 in E3.
  unfold time_Second. lia.
Qed.

Lemma backoff_nondecreasing_witness :
  exists t1 t2,
    d_slept (logAndBackoffForRetry "register member itself"
               (set_retries 2 (newDiscovery sampleToken downClient id1)))
    = t1 :: [] /\
    d_slept (logAndBackoffForRetry "register member itself"
               (set_retries 20 (newDiscovery sampleToken downClient id1)))
    = t2 :: [] /\
    2 * time_Second <= t1 /\ t1 <= t2 /\ t2 <= 256 * time_Second.
Proof.
  apply (backoff_nondecreasing "register member itself"
           (set_retries 2 (newDiscovery sampleToken downClient id1))
           (set_retries 20 (newDiscovery sampleToken downClient id1)));
    vm_compute; [split; discriminate|reflexivity].
Defined.

(** ** Registration *)

Section RegisterExtras.

Variable ID_String : Z -> string.

Lemma registerSelf_exhausts contents k : forall d fuel,
  d_retries d = nRetries - Z.of_nat k ->
  0 <= d_retries d ->
  (forall n, (d_ncalls d <= n)%nat ->
     Put (d_c d) n (selfKey ID_String d) contents <> None) ->
  (k < fuel)%nat ->
  exists d', registerSelf ID_String fuel contents d
             = Done (Some ErrTooManyRetries) d'
             /\ d_retries d' = nRetries.
Proof.
  induction k as [|k IH]; intros d fuel Hr H0 Hfail Hfuel;
    (destruct fuel as [|fuel]; [lia|]); cbn [registerSelf];
    fold (selfKey ID_String d);
    (destruct (Put _ _ _ _) eqn:E; [|now apply Hfail in E]);
    unfold registerSelfRetry; cbn [d_retries called].
  - destruct (Z.ltb_spec (d_retries d) nRetries); [lia|].
    eexists. split; [reflexivity|]. cbn. lia.
  - destruct (Z.ltb_spec (d_retries d) nRetries); [|lia].
    apply IH.
    + rewrite logAndBackoffForRetry_spec by (cbn; lia). cbn. lia.
    + rewrite logAndBackoffForRetry_spec by (cbn; lia). cbn. lia.
    + intros n Hn. apply Hfail. cbn in Hn. lia.
    + lia.
Qed.

(** [registerSelf] puts the contents under the key of self. When the
    first [Put] succeeds it returns nil after that one call, with the
    retry counter reset and nothing slept. Its only error is
    [ErrTooManyRetries], which it returns when every [Put] fails, with
    the retry counter at [nRetries]. *)
Theorem registerSelf_spec contents :
  (forall fuel d,
     Put (d_c d) (d_ncalls d) (selfKey ID_String d) contents = None ->
     registerSelf ID_String (S fuel) contents d
     = Done None (set_retries 0 (called d))) /\
  (forall fuel d e d',
     registerSelf ID_String fuel contents d = Done (Some e) d' ->
     e = ErrTooManyRetries) /\
  (forall fuel d d',
     registerSelf ID_String fuel contents d = Done None d' ->
     d_retries d' = 0) /\
  (forall d fuel,
     0 <= d_retries d <= nRetries ->
     (forall n, (d_ncalls d <= n)%nat ->
        Put (d_c d) n (selfKey ID_String d) contents <> None) ->
     (Z.to_nat (nRetries - d_retries d) < fuel)%nat ->
     exists d', registerSelf ID_String fuel contents d
                = Done (Some ErrTooManyRetries) d'
                /\ d_retries d' = nRetries).
Proof.
  split; [|split; [|split]].
  - intros fuel d H. cbn [registerSelf]. fold (selfKey ID_String d). now rewrite H.
  - intros fuel d e d'. apply registerSelf_errors.
  - intros fuel d d'. apply registerSelf_resets.
  - intros d fuel Hr Hfail Hfuel.
    apply (registerSelf_exhausts contents (Z.to_nat (nRetries - d_retries d)));
      [lia|lia|exact Hfail|exact Hfuel].
Qed.

End RegisterExtras.

Lemma registerSelf_spec_witness :
  exists d',
    registerSelf ID_hex 3 "infra1=http://127.0.0.1:12380"
      (set_retries (nRetries - 2) (newDiscovery sampleToken downClient id1))
    = Done (Some ErrTooManyRetries) d'
    /\ d_retries d' = nRetries.
Proof.
  apply (proj2 (proj2 (proj2 (registerSelf_spec ID_hex "infra1=http://127.0.0.1:12380")))).
  - vm_compute. split; discriminate.
  - intros n _. discriminate.
  - vm_compute. lia.
Defined.

(** ** The watch *)

Section WaitExtras.

Variable sort_Sort : clusterInfo -> clusterInfo.
Hypothesis sort_ok : sortsByLess sort_Sort.

Lemma feedEvents_spec evs : forall cls,
  ledger_ok cls ->
  ledger_ok (fold_left (fun c ev => addKv sort_Sort c (Kv ev)) evs cls) /\
  clusterToken (fold_left (fun c ev => addKv sort_Sort c (Kv ev)) evs cls)
  = clusterToken cls /\
  Len cls <= Len (fold_left (fun c ev => addKv sort_Sort c (Kv ev)) evs cls).
Proof using sort_ok.
  induction evs as [|ev evs IH]; intros cls Hok; cbn [fold_left].
  - split; [exact Hok|]. split; [reflexivity|lia].
  - destruct (IH (addKv sort_Sort cls (Kv ev))
                (addKv_ledger_ok sort_Sort sort_ok _ _ Hok)) as (H1 & H2 & H3).
    pose proof (addKv_Len sort_Sort sort_ok cls (Kv ev)).
    split; [exact H1|]. split; [|lia].
    rewrite H2. unfold addKv. now rewrite add_token.
Qed.

Lemma feed_spec w : forall cls,
  ledger_ok cls ->
  ledger_ok (feed sort_Sort cls w) /\
  clusterToken (feed sort_Sort cls w) = clusterToken cls /\
  Len cls <= Len (feed sort_Sort cls w).
Proof using sort_ok.
  unfold feed. induction w as [|wresp w IH]; intros cls Hok; cbn [fold_left].
  - split; [exact Hok|]. split; [reflexivity|lia].
  - destruct (feedEvents_spec (Events wresp) cls Hok) as (H1 & H2 & H3).
    destruct (IH _ H1) as (H4 & H5 & H6).
    split; [exact H4|]. split; [congruence|lia].
Qed.

Lemma consume_feed size w : forall cls,
  exists w1 w2,
    w = w1 ++ w2 /\
    consume sort_Sort cls size w = feed sort_Sort cls w1 /\
    (w2 <> [] -> size <= Len (feed sort_Sort cls w1)) /\
    (forall w0 wr, w0 <> [] -> wr <> [] -> w1 = w0 ++ wr ->
                   Len (feed sort_Sort cls w0) < size).
Proof using Type.
  induction w as [|wresp w IH]; intros cls.
  - exists [], []. repeat split; try reflexivity; try congruence.
    intros w0 wr H0 _ H. destruct w0; [congruence|discriminate].
  - cbn [consume].
    set (cls1 := fold_left (fun c ev => addKv sort_Sort c (Kv ev)) (Events wresp) cls).
    destruct (Z.leb_spec size (Len cls1)) as [Hle|Hgt].
    + exists [wresp], w. split; [reflexivity|]. split; [reflexivity|].
      split; [now intros _|].
      intros w0 wr H0 Hr H. apply (f_equal (@length _)) in H.
      rewrite length_app in H. destruct w0, wr; cbn in H; try congruence; lia.
    + destruct (IH cls1) as (w1 & w2 & -> & Hc & Hstop & Hmin).
      exists (wresp :: w1), w2. split; [reflexivity|]. split; [exact Hc|].
      split; [exact Hstop|].
      intros w0 wr H0 Hr H. destruct w0 as [|r0 w0]; [congruence|].
      injection H as <- ->. destruct w0 as [|r1 w0].
      * exact Hgt.
      * apply (Hmin (r1 :: w0) wr); [discriminate|exact Hr|reflexivity].
Qed.

Lemma consume_ok cls size w :
  ledger_ok cls ->
  ledger_ok (consume sort_Sort cls size w) /\
  clusterToken (consume sort_Sort cls size w) = clusterToken cls /\
  Len cls <= Len (consume sort_Sort cls size w).
Proof using sort_ok.
  intros Hok. destruct (consume_feed size w cls) as (w1 & _ & _ & -> & _).
  now apply feed_spec.
Qed.

(** [waitPeers] makes one [Watch] call and feeds the ledger with the
    responses of the stream, in order, up to the first one after which
    the ledger has reached the target size, and no further; when no
    response brings it there, with all of them. The ledger keeps its
    invariant and its token, and loses no record. *)
Theorem waitPeers_feeds_until_full cls size rev d :
  ledger_ok cls ->
  snd (waitPeers sort_Sort cls size rev d) = called d /\
  ledger_ok (fst (waitPeers sort_Sort cls size rev d)) /\
  clusterToken (fst (waitPeers sort_Sort cls size rev d)) = clusterToken cls /\
  Len cls <= Len (fst (waitPeers sort_Sort cls size rev d)) /\
  exists w1 w2,
    Watch (d_c d) (d_ncalls d) (getMemberKeyPrefix (d_clusterToken d))
      (wrap_int64 (rev + 1)) = w1 ++ w2 /\
    fst (waitPeers sort_Sort cls size rev d) = feed sort_Sort cls w1 /\
    (w2 <> [] -> size <= Len (feed sort_Sort cls w1)) /\
    (forall w0 wr, w0 <> [] -> wr <> [] -> w1 = w0 ++ wr ->
                   Len (feed sort_Sort cls w0) < size).
Proof using sort_ok.
  intros Hok. cbn [waitPeers fst snd]. split; [reflexivity|].
  destruct (consume_ok cls size
              (Watch (d_c d) (d_ncalls d) (getMemberKeyPrefix (d_clusterToken d))
                 (wrap_int64 (rev + 1))) Hok) as (H1 & H2 & H3).
  split; [exact H1|]. split; [exact H2|]. split; [exact H3|].
  destruct (consume_feed size
              (Watch (d_c d) (d_ncalls d) (getMemberKeyPrefix (d_clusterToken d))
                 (wrap_int64 (rev + 1))) cls) as (w1 & w2 & Hw & Hc & Hstop & Hmin).
  exists w1, w2. now repeat split.
Qed.

Lemma waitLoop_done fuel : forall cls size rev d cls' d',
  ledger_ok cls ->
  waitLoop sort_Sort fuel cls size rev d = Done cls' d' ->
  size <= Len cls' /\ ledger_ok cls' /\
  clusterToken cls' = clusterToken cls /\ Len cls <= Len cls' /\
  exists k, (k <= fuel)%nat /\ d' = Nat.iter k called d.
Proof using sort_ok.
  induction fuel as [|fuel IH]; intros cls size rev d cls' d' Hok;
    cbn [waitLoop]; destruct (Z.ltb_spec (Len cls) size) as [Hlt|Hge];
    try discriminate.
  - intros [= <- <-]. split; [lia|]. split; [exact Hok|].
    split; [reflexivity|]. split; [lia|].
    exists 0%nat. split; [lia|reflexivity].
  - cbn [waitPeers].
    destruct (consume_ok cls size
                (Watch (d_c d) (d_ncalls d) (getMemberKeyPrefix (d_clusterToken d))
                   (wrap_int64 (rev + 1))) Hok) as (H1 & H2 & H3).
    intros H. apply IH in H; [|exact H1].
    destruct H as (G1 & G2 & G3 & G4 & k & Hk & ->).
    split; [exact G1|]. split; [exact G2|]. split; [congruence|]. split; [lia|].
    exists (S k). split; [lia|]. now rewrite Nat.iter_succ_r.
  - intros [= <- <-]. split; [lia|]. split; [exact Hok|].
    split; [reflexivity|]. split; [lia|].
    exists 0%nat. split; [lia|reflexivity].
Qed.

Lemma waitLoop_no_panic fuel : forall cls size rev d,
  waitLoop sort_Sort fuel cls size rev d <> Panic.
Proof using Type.
  induction fuel as [|fuel IH]; intros cls size rev d; cbn [waitLoop];
    destruct (Len cls <? size); try discriminate.
  cbn [waitPeers]. apply IH.
Qed.

(** The loop around [waitPeers] makes no [Watch] call on a ledger that
    has reached the target size. When it ends, the ledger has reached the
    target size, keeps its invariant and its token and has lost no
    record, and the engine has only made [Watch] calls, one for each turn
    of the loop: no retry is counted and nothing is slept. A watch that
    brings the ledger to the target size ends the loop. *)
Theorem waitLoop_ends_full :
  (forall fuel cls size rev d,
     size <= Len cls -> waitLoop sort_Sort fuel cls size rev d = Done cls d) /\
  (forall fuel cls size rev d cls' d',
     ledger_ok cls ->
     waitLoop sort_Sort fuel cls size rev d = Done cls' d' ->
     size <= Len cls' /\ ledger_ok cls' /\
     clusterToken cls' = clusterToken cls /\ Len cls <= Len cls' /\
     exists k, (k <= fuel)%nat /\ d' = Nat.iter k called d) /\
  (forall fuel cls size rev d,
     Len cls < size ->
     size <= Len (fst (waitPeers sort_Sort cls size rev d)) ->
     waitLoop sort_Sort (S fuel) cls size rev d
     = Done (fst (waitPeers sort_Sort cls size rev d)) (called d)).
Proof using sort_ok.
  split; [|split].
  - intros fuel cls size rev d H.
    destruct fuel; cbn [waitLoop]; destruct (Z.ltb_spec (Len cls) size);
      try lia; reflexivity.
  - intros fuel cls size rev d cls' d'. apply waitLoop_done.
  - intros fuel cls size rev d H1 H2. cbn [waitLoop].
    destruct (Z.ltb_spec (Len cls) size); [|lia].
    cbn [waitPeers fst] in *.
    destruct fuel; cbn [waitLoop];
      match goal with |- context [Len ?c <? size] =>
        destruct (Z.ltb_spec (Len c) size); [lia|reflexivity] end.
Qed.

End WaitExtras.

(** ** The engine across its methods *)

Lemma advances_iter_called k : forall d0 d,
  advances d0 d -> advances d0 (Nat.iter k called d).
Proof.
  induction k as [|k IH]; intros d0 d H; [exact H|].
  cbn [Nat.iter]. apply advances_called, IH, H.
Qed.


Section EngineExtras.

Variable sort_Sort : clusterInfo -> clusterInfo.
Variable NewURLsMap : string -> option error.
Variable ID_String : Z -> string.
Hypothesis sort_ok : sortsByLess sort_Sort.

Lemma checkCluster_advances d0 fuel d r d' :
  advances d0 d ->
  checkCluster sort_Sort ID_String fuel d = Done r d' -> advances d0 d'.
Proof using Type.
  apply (checkCluster_rule sort_Sort ID_String (advances d0)
           (fun _ d1 => advances d0 d1)).
  - apply advances_called.
  - intros d1 H1 H2. now apply advances_backoff.
  - intros d1 _ _ H1 _ _. now apply advances_called.
  - now intros d1 H1 _.
  - intros d1 _ _ _ H1 _ _. now apply advances_set_retries, advances_called, advances_called.
Qed.

Lemma registerSelf_advances d0 fuel contents d r d' :
  advances d0 d ->
  registerSelf ID_String fuel contents d = Done r d' -> advances d0 d'.
Proof using Type.
  apply (registerSelf_rule ID_String (advances d0) (fun _ d1 => advances d0 d1)).
  - apply advances_called.
  - intros d1 H1 H2. now apply advances_backoff.
  - now intros d1 H1 _.
  - intros d1 H1 _. now apply advances_set_retries, advances_called.
Qed.

Lemma checkCluster_ends k : forall d fuel,
  d_retries d = nRetries - Z.of_nat k ->
  0 <= d_retries d ->
  (k < fuel)%nat ->
  exists r d', checkCluster sort_Sort ID_String fuel d = Done r d' /\
               (d_ncalls d' <= d_ncalls d + 2 * (k + 1))%nat.
Proof using Type.
  induction k as [|k IH]; intros d fuel Hr H0 Hfuel;
    (destruct fuel as [|fuel]; [lia|]); cbn [checkCluster].
  - assert (Hretry : forall d0, d_retries d0 = d_retries d ->
              (d_ncalls d0 <= d_ncalls d + 2)%nat ->
              exists r d', checkClusterRetry (checkCluster sort_Sort ID_String fuel) d0
                           = Done r d' /\
                           (d_ncalls d' <= d_ncalls d + 2 * (0 + 1))%nat).
    { intros d0 E En. unfold checkClusterRetry.
      destruct (Z.ltb_spec (d_retries d0) nRetries) as [Hlt|_]; [lia|].
      eexists _, d0. split; [reflexivity|lia]. }
    destruct (getClusterSize d) as [[sz e] d1] eqn:Hs.
    pose proof (getClusterSize_called d) as E1. rewrite Hs in E1. cbn in E1. subst d1.
    destruct e as [e|].
    + destruct e; cbn [isErrSizeNotFound isErrBadSizeKey orb];
        try (apply Hretry; cbn; [reflexivity|lia]);
        (eexists _, _; split; [reflexivity|cbn; lia]).
    + destruct (getClusterMembers sort_Sort (called d)) as [[[ocls rv] e] d2] eqn:Hm.
      pose proof (getClusterMembers_called sort_Sort (called d)) as E2.
      rewrite Hm in E2. cbn in E2. subst d2.
      destruct e as [e|]; [apply Hretry; cbn; [reflexivity|lia]|].
      destruct ocls as [cls|].
      * eexists _, _. split; [reflexivity|cbn; lia].
      * exfalso. revert Hm. unfold getClusterMembers.
        destruct (Get _ _ _ _); discriminate.
  - assert (Hretry : forall d0, d_retries d0 = d_retries d ->
              (d_ncalls d0 <= d_ncalls d + 2)%nat ->
              exists r d', checkClusterRetry (checkCluster sort_Sort ID_String fuel) d0
                           = Done r d' /\
                           (d_ncalls d' <= d_ncalls d + 2 * (S k + 1))%nat).
    { intros d0 E En. unfold checkClusterRetry.
      destruct (Z.ltb_spec (d_retries d0) nRetries) as [Hlt|Hge]; [|lia].
      destruct (logAndBackoffForRetry_frame "cluster status check" d0)
        as (Fc & Ft & _ & Fn).
      destruct (IH (logAndBackoffForRetry "cluster status check" d0) fuel)
        as (r & d' & Hrun & Hn).
      - rewrite logAndBackoffForRetry_spec by lia. cbn [d_retries Sleep set_retries]. lia.
      - rewrite logAndBackoffForRetry_spec by lia. cbn [d_retries Sleep set_retries]. lia.
      - lia.
      - exists r, d'. split; [exact Hrun|]. rewrite Fn in Hn. lia. }
    destruct (getClusterSize d) as [[sz e] d1] eqn:Hs.
    pose proof (getClusterSize_called d) as E1. rewrite Hs in E1. cbn in E1. subst d1.
    destruct e as [e|].
    + destruct e; cbn [isErrSizeNotFound isErrBadSizeKey orb];
        try (apply Hretry; cbn; [reflexivity|lia]);
        (eexists _, _; split; [reflexivity|cbn; lia]).
    + destruct (getClusterMembers sort_Sort (called d)) as [[[ocls rv] e] d2] eqn:Hm.
      pose proof (getClusterMembers_called sort_Sort (called d)) as E2.
      rewrite Hm in E2. cbn in E2. subst d2.
      destruct e as [e|]; [apply Hretry; cbn; [reflexivity|lia]|].
      destruct ocls as [cls|].
      * eexists _, _. split; [reflexivity|cbn; lia].
      * exfalso. revert Hm. unfold getClusterMembers.
        destruct (Get _ _ _ _); discriminate.
Qed.

Lemma registerSelf_ends contents k : forall d fuel,
  d_retries d = nRetries - Z.of_nat k ->
  0 <= d_retries d ->
  (k < fuel)%nat ->
  exists r d', registerSelf ID_String fuel contents d = Done r d' /\
               (d_ncalls d' <= d_ncalls d + (k + 1))%nat.
Proof using Type.
  induction k as [|k IH]; intros d fuel Hr H0 Hfuel;
    (destruct fuel as [|fuel]; [lia|]); cbn [registerSelf];
    (destruct (Put _ _ _ _) eqn:E;
      [|eexists _, _; split; [reflexivity|cbn; lia]]);
    unfold registerSelfRetry; cbn [d_retries called].
  - destruct (Z.ltb_spec (d_retries d) nRetries); [lia|].
    eexists _, _. split; [reflexivity|cbn; lia].
  - destruct (Z.ltb_spec (d_retries d) nRetries); [|lia].
    destruct (logAndBackoffForRetry_frame "register member itself" (called d))
      as (Fc & Ft & _ & Fn).
    destruct (IH (logAndBackoffForRetry "register member itself" (called d)) fuel)
      as (r & d' & Hrun & Hn).
    + rewrite logAndBackoffForRetry_spec by (cbn; lia). cbn. lia.
    + rewrite logAndBackoffForRetry_spec by (cbn; lia). cbn. lia.
    + lia.
    + exists r, d'. split; [exact Hrun|]. rewrite Fn in Hn. cbn in Hn. lia.
Qed.

(** The retrying methods end, whatever the registry answers: from a
    retry counter [nRetries - k], [checkCluster] returns after at most
    [k + 1] attempts, of at most two reads each, and [registerSelf]
    after at most [k + 1] writes. *)
Theorem retrying_methods_end d fuel :
  0 <= d_retries d <= nRetries ->
  (Z.to_nat (nRetries - d_retries d) < fuel)%nat ->
  (exists r d',
     checkCluster sort_Sort ID_String fuel d = Done r d' /\
     (d_ncalls d' <= d_ncalls d
                     + 2 * (Z.to_nat (nRetries - d_retries d) + 1))%nat) /\
  (forall contents, exists r d',
     registerSelf ID_String fuel contents d = Done r d' /\
     (d_ncalls d' <= d_ncalls d
                     + (Z.to_nat (nRetries - d_retries d) + 1))%nat).
Proof using Type.
  intros Hr Hfuel. split.
  - apply checkCluster_ends; lia.
  - intros contents. apply registerSelf_ends; lia.
Qed.

(** Whatever [checkCluster], [registerSelf], [getCluster] and
    [joinCluster] return, the engine afterwards has the token, the member
    id and the client it had, a retry counter between 0 and [nRetries],
    and has slept, since, only back-offs between 2 and 256 seconds. *)
Theorem engine_advances d :
  0 <= d_retries d <= nRetries ->
  (forall fuel r d',
     checkCluster sort_Sort ID_String fuel d = Done r d' -> advances d d') /\
  (forall fuel contents r d',
     registerSelf ID_String fuel contents d = Done r d' -> advances d d') /\
  (forall fuel r d',
     getCluster sort_Sort NewURLsMap ID_String fuel d = Done r d' ->
     advances d d') /\
  (forall fuel config r d',
     joinCluster sort_Sort NewURLsMap ID_String fuel config d = Done r d' ->
     advances d d').
Proof using Type.
  intros Hr. pose proof (advances_refl d Hr) as H0.
  assert (Hwait : forall fuel cls size rev d1 cls' d2,
            advances d d1 ->
            waitLoop sort_Sort fuel cls size rev d1 = Done cls' d2 ->
            advances d d2).
  { induction fuel as [|fuel IH]; intros cls size rev d1 cls' d2 H1;
      cbn [waitLoop]; destruct (Len cls <? size); try discriminate;
      try (intros [= _ <-]; exact H1).
    cbn [waitPeers]. apply IH. now apply advances_called. }
  split; [|split; [|split]].
  - intros fuel r d'. now apply checkCluster_advances.
  - intros fuel contents r d'. now apply registerSelf_advances.
  - intros fuel r d'. unfold getCluster.
    destruct (checkCluster sort_Sort ID_String fuel d)
      as [[[[ocls size] rev] err] d1| |] eqn:Hc; cbn [bind]; try discriminate.
    apply (checkCluster_advances d) in Hc; [|exact H0].
    destruct err as [e|].
    + destruct (isErrFullCluster e); [destruct ocls; [|discriminate]|];
        intros [= _ <-]; exact Hc.
    + destruct ocls as [cls|]; [|discriminate].
      destruct (waitLoop sort_Sort fuel cls size rev d1) as [cls1 d2| |] eqn:Hw;
        cbn [bind]; try discriminate.
      intros [= _ <-]. eapply Hwait; eauto.
  - intros fuel config r d'. unfold joinCluster.
    destruct (checkCluster sort_Sort ID_String fuel d)
      as [[[[ocls size] rev] err] d1| |] eqn:Hc; cbn [bind]; try discriminate.
    apply (checkCluster_advances d) in Hc; [|exact H0].
    destruct err as [e|]; [intros [= _ <-]; exact Hc|].
    destruct (registerSelf ID_String fuel config d1) as [err1 d2| |] eqn:Hreg;
      cbn [bind]; try discriminate.
    apply (registerSelf_advances d) in Hreg; [|exact Hc].
    destruct err1 as [e|]; [intros [= _ <-]; exact Hreg|].
    destruct (checkCluster sort_Sort ID_String fuel d2)
      as [[[[ocls2 size2] rev2] err2] d3| |] eqn:Hc2; cbn [bind]; try discriminate.
    apply (checkCluster_advances d) in Hc2; [|exact Hreg].
    destruct err2 as [e|]; [intros [= _ <-]; exact Hc2|].
    destruct ocls2 as [cls|]; [|discriminate].
    destruct (waitLoop sort_Sort fuel cls size2 rev2 d3) as [cls1 d4| |] eqn:Hw;
      cbn [bind]; try discriminate.
    intros [= _ <-]. eapply Hwait; eauto.
Qed.

Lemma checkCluster_ledger fuel d ocls size rev err d' :
  checkCluster sort_Sort ID_String fuel d = Done (ocls, size, rev, err) d' ->
  err = None \/ err = Some ErrFullCluster -> ocls <> None.
Proof using Type.
  intros Hrun.
  refine (checkCluster_rule sort_Sort ID_String (fun _ => True)
            (fun r _ => match r with
                        | (ocls, _, _, err) =>
                            err = None \/ err = Some ErrFullCluster -> ocls <> None
                        end)
            _ _ _ _ _ fuel d (ocls, size, rev, err) d' I Hrun);
    try (intros; exact I).
  - intros d1 sz e _ _ [-> | ->] [H|H]; discriminate.
  - intros d1 _ _ [H|H]; discriminate.
  - intros d1 sz cls rv _ _ _ _. discriminate.
Qed.


Lemma checkCluster_no_panic fuel : forall d,
  checkCluster sort_Sort ID_String fuel d <> Panic.
Proof using Type.
  induction fuel as [|fuel IH]; intros d; [discriminate|].
  cbn [checkCluster].
  assert (Hretry : forall d0,
            checkClusterRetry (checkCluster sort_Sort ID_String fuel) d0 <> Panic).
  { intros d0. unfold checkClusterRetry.
    destruct (d_retries d0 <? nRetries); [apply IH|discriminate]. }
  destruct (getClusterSize d) as [[sz [e|]] d1].
  - destruct (isErrSizeNotFound e || isErrBadSizeKey e);
      [discriminate|apply Hretry].
  - unfold getClusterMembers. destruct (Get _ _ _ _); [discriminate|apply Hretry].
Qed.

Lemma registerSelf_no_panic fuel contents : forall d,
  registerSelf ID_String fuel contents d <> Panic.
Proof using Type.
  induction fuel as [|fuel IH]; intros d; [discriminate|].
  cbn [registerSelf]. destruct (Put _ _ _ _); [|discriminate].
  unfold registerSelfRetry. destruct (d_retries (called d) <? nRetries);
    [apply IH|discriminate].
Qed.




(** No method of the engine dereferences a nil ledger: whenever
    [getCluster] or [joinCluster] reads the ledger that [checkCluster]
    returned, with no error or with [ErrFullCluster], that ledger is not
    nil. *)
Theorem engine_never_panics :
  (forall fuel d ocls size rev err d',
     checkCluster sort_Sort ID_String fuel d = Done (ocls, size, rev, err) d' ->
     err = None \/ err = Some ErrFullCluster -> ocls <> None) /\
  (forall fuel d, checkCluster sort_Sort ID_String fuel d <> Panic) /\
  (forall fuel contents d, registerSelf ID_String fuel contents d <> Panic) /\
  (forall fuel cls size rev d, waitLoop sort_Sort fuel cls size rev d <> Panic) /\
  (forall fuel d, getCluster sort_Sort NewURLsMap ID_String fuel d <> Panic) /\
  (forall fuel config d,
     joinCluster sort_Sort NewURLsMap ID_String fuel config d <> Panic).
Proof using Type.
  split; [|split; [|split; [|split; [|split]]]].
  - intros fuel d ocls size rev err d'. apply checkCluster_ledger.
  - intros fuel d. apply checkCluster_no_panic.
  - intros fuel contents d. apply registerSelf_no_panic.
  - intros fuel cls size rev d. apply waitLoop_no_panic.
  - intros fuel d. unfold getCluster.
    destruct (checkCluster sort_Sort ID_String fuel d)
      as [[[[ocls size] rev] err0] d1| |] eqn:Hc; cbn [bind]; try discriminate;
      [|now apply checkCluster_no_panic in Hc].
    pose proof (checkCluster_ledger _ _ _ _ _ _ _ Hc) as Hl.
    destruct err0 as [e|].
    + destruct e; cbn [isErrFullCluster]; try discriminate.
      destruct ocls; [discriminate|]. exfalso. apply Hl; tauto.
    + destruct ocls as [cls|]; [|exfalso; apply Hl; tauto].
      destruct (waitLoop sort_Sort fuel cls size rev d1) eqn:Hw; cbn [bind];
        try discriminate.
      now apply waitLoop_no_panic in Hw.
  - intros fuel config d. unfold joinCluster.
    destruct (checkCluster sort_Sort ID_String fuel d)
      as [[[[ocls size] rev] err0] d1| |] eqn:Hc; cbn [bind]; try discriminate;
      [|now apply checkCluster_no_panic in Hc].
    destruct err0 as [e|]; [discriminate|].
    destruct (registerSelf ID_String fuel config d1) as [err1 d2| |] eqn:Hreg;
      cbn [bind]; try discriminate;
      [|now apply registerSelf_no_panic in Hreg].
    destruct err1 as [e|]; [discriminate|].
    destruct (checkCluster sort_Sort ID_String fuel d2)
      as [[[[ocls2 size2] rev2] err2] d3| |] eqn:Hc2; cbn [bind];
      try discriminate; [|now apply checkCluster_no_panic in Hc2].
    destruct err2 as [e|]; [discriminate|].
    pose proof (checkCluster_ledger _ _ _ _ _ _ _ Hc2) as Hl.
    destruct ocls2 as [cls|]; [|exfalso; apply Hl; tauto].
    destruct (waitLoop sort_Sort fuel cls size2 rev2 d3) eqn:Hw; cbn [bind];
      try discriminate.
    now apply waitLoop_no_panic in Hw.
Qed.

End EngineExtras.

(** ** The engine at the sample cluster *)

Lemma waitPeers_feeds_until_full_witness :
  let w := [ {| Events := [ {| Kv := kvOf m1 |} ] |};
             {| Events := [ {| Kv := kvOf m2 |} ] |};
             {| Events := [ {| Kv := kvOf m3 |} ] |} ] in
  let d := newDiscovery sampleToken (sampleClient "2" [] (fun _ => w)) id1 in
  ledger_ok (fst (waitPeers insertionSort (emptyLedger sampleToken) 2 20 d)) /\
  Len (emptyLedger sampleToken)
  <= Len (fst (waitPeers insertionSort (emptyLedger sampleToken) 2 20 d)).
Proof.
  intros w d.
  destruct (waitPeers_feeds_until_full insertionSort insertionSort_sortsByLess
              (emptyLedger sampleToken) 2 20 d (emptyLedger_ok sampleToken))
    as (_ & H1 & _ & H2 & _).
  split; [exact H1|exact H2].
Defined.

Lemma waitLoop_ends_full_witness :
  let w := [ {| Events := [ {| Kv := kvOf m1 |} ] |};
             {| Events := [ {| Kv := kvOf m2 |} ] |};
             {| Events := [ {| Kv := kvOf m3 |} ] |} ] in
  let d := newDiscovery sampleToken (sampleClient "2" [] (fun _ => w)) id1 in
  waitLoop insertionSort 1 (emptyLedger sampleToken) 2 20 d
  = Done (fst (waitPeers insertionSort (emptyLedger sampleToken) 2 20 d))
      (called d).
Proof.
  intros w d.
  apply (proj2 (proj2 (waitLoop_ends_full insertionSort insertionSort_sortsByLess)));
    vm_compute; [reflexivity|discriminate].
Defined.

Lemma retrying_methods_end_witness :
  let d := set_retries (nRetries - 2) (newDiscovery sampleToken downClient id1) in
  exists r d',
    checkCluster insertionSort ID_hex 3 d = Done r d' /\
    (d_ncalls d' <= d_ncalls d + 2 * (Z.to_nat (nRetries - d_retries d) + 1))%nat.
Proof.
  intros d.
  apply (retrying_methods_end insertionSort ID_hex d 3).
  - vm_compute. split; discriminate.
  - vm_compute. lia.
Defined.

Lemma engine_advances_witness :
  let d := newDiscovery sampleToken
             (sampleClient "2" [m1; m2; m3] (fun _ => [])) id3 in
  advances d (set_retries 0 (called (called d))).
Proof.
  intros d.
  refine (proj1 (engine_advances insertionSort acceptURLs ID_hex d _) 1%nat
            (Some ledger3, 2, 20, Some ErrFullCluster) _ _).
  - vm_compute. split; discriminate.
  - vm_compute. reflexivity.
Defined.



(** ** [path.Clean] on rooted paths *)

Lemma slashed_app es1 es2 : slashed (es1 ++ es2) = slashed es1 ++ slashed es2.
Proof. unfold slashed. now rewrite map_app, concat_app. Qed.

Lemma rootedPath_snoc es e : rootedPath (es ++ [e]) = slashed es ++ "/"%char :: e.
Proof.
  unfold rootedPath. destruct (es ++ [e]) eqn:E.
  - now destruct es.
  - rewrite <- E, slashed_app. unfold slashed. cbn. now rewrite app_nil_r.
Qed.

Lemma rootedPath_length es :
  Forall plainChars es ->
  (length (rootedPath es) =? 1)%nat = match es with [] => true | _ => false end.
Proof.
  intros H. destruct es as [|e es]; [reflexivity|].
  inversion H as [|? ? (He & _) _]; subst.
  unfold rootedPath, slashed. cbn. destruct e; [congruence|]. reflexivity.
Qed.

Lemma rootedPath_push es e :
  Forall plainChars es ->
  rev e ++ (if negb (length (rev (rootedPath es)) =? 1)%nat
            then "/"%char :: rev (rootedPath es) else rev (rootedPath es))
  = rev (rootedPath (es ++ [e])).
Proof.
  intros H. rewrite length_rev, rootedPath_length by exact H.
  rewrite rootedPath_snoc, rev_app_distr. cbn [rev].
  destruct es as [|e0 es]; cbn [negb].
  - cbn. now rewrite <- app_assoc.
  - unfold rootedPath. now rewrite <- app_assoc.
Qed.

Lemma spanElem_spec p : forall e rest,
  spanElem p = (e, rest) ->
  p = e ++ rest /\ ~ In "/"%char e /\ atEndOrSlash rest = true.
Proof.
  induction p as [|ch p IH]; intros e rest; cbn [spanElem].
  - intros [= <- <-]. now repeat split.
  - destruct (Ascii.eqb_spec ch "/") as [->|Hne].
    + intros [= <- <-]. repeat split; auto.
    + destruct (spanElem p) as [e' rest'] eqn:E. intros [= <- <-].
      destruct (IH e' rest' eq_refl) as (-> & Hno & Hend).
      split; [reflexivity|]. split; [|exact Hend].
      intros [H|H]; [congruence|tauto].
Qed.

Lemma spanElem_app e rest :
  ~ In "/"%char e -> atEndOrSlash rest = true -> spanElem (e ++ rest) = (e, rest).
Proof.
  induction e as [|ch e IH]; intros Hno Hend.
  - destruct rest as [|c rest]; [reflexivity|]. cbn in *. now rewrite Hend.
  - cbn [app spanElem]. destruct (Ascii.eqb_spec ch "/") as [->|Hne].
    + exfalso. apply Hno. now left.
    + rewrite IH; [reflexivity| |exact Hend]. intros H. apply Hno. now right.
Qed.

Lemma spanElem_shorter p e rest :
  spanElem p = (e, rest) -> (length rest <= length p)%nat.
Proof.
  intros H. apply spanElem_spec in H as (-> & _). rewrite length_app. lia.
Qed.

Lemma backtrack_drop l : forall R,
  l <> [] -> ~ In "/"%char l ->
  backtrack (l ++ "/"%char :: R) 1
  = match R with [] => ["/"%char] | _ => R end.
Proof.
  induction l as [|c l IH]; intros R Hne Hno; [congruence|].
  cbn [app backtrack].
  destruct (Ascii.eqb_spec c "/") as [->|Hc]; [exfalso; apply Hno; now left|].
  cbn [negb]. rewrite andb_true_r.
  destruct l as [|c' l].
  - cbn [app length]. destruct R as [|r R]; [reflexivity|].
    cbn [length]. cbn [Nat.ltb Nat.leb]. cbn [backtrack].
    rewrite Ascii.eqb_refl. cbn [negb]. now rewrite andb_false_r.
  - replace (1 <? length ((c' :: l) ++ "/"%char :: R))%nat with true.
    + apply IH; [discriminate|]. intros H. apply Hno. now right.
    + symmetry. apply Nat.ltb_lt. cbn. rewrite length_app. cbn. lia.
Qed.

Lemma backtrack_rootedPath es e :
  Forall plainChars (es ++ [e]) ->
  backtrack (rev (rootedPath (es ++ [e]))) 1 = rev (rootedPath es).
Proof.
  intros H. apply Forall_app in H as [Hes He].
  inversion He as [|? ? (Hne & Hno & _) _]; subst.
  rewrite rootedPath_snoc, rev_app_distr. cbn [rev]. rewrite <- app_assoc.
  cbn [app]. rewrite backtrack_drop.
  - destruct es as [|e0 es]; [reflexivity|].
    unfold rootedPath. destruct (rev (slashed (e0 :: es))) eqn:E; [|reflexivity].
    apply (f_equal (@length _)) in E. rewrite length_rev in E.
    unfold slashed in E. cbn in E. discriminate.
  - intros E. apply Hne. apply (f_equal (@rev _)) in E.
    now rewrite rev_involutive in E.
  - intros Hin. apply Hno. now apply in_rev.
Qed.

Lemma cleanLoop_fuel f1 : forall f2 rooted p rout dotdot,
  (length p <= f1)%nat -> (length p <= f2)%nat ->
  cleanLoop f1 rooted p rout dotdot = cleanLoop f2 rooted p rout dotdot.
Proof.
  induction f1 as [|f1 IH]; intros f2 rooted p rout dotdot H1 H2.
  - destruct p; [|cbn in H1; lia]. now destruct f2.
  - destruct f2 as [|f2]; [destruct p; [reflexivity|cbn in H2; lia]|].
    destruct p as [|ch p1]; [reflexivity|]. cbn [length] in H1, H2.
    cbn [cleanLoop].
    destruct (Ascii.eqb ch "/") eqn:Hs; [apply IH; lia|].
    destruct (Ascii.eqb ch "." && atEndOrSlash p1); [apply IH; lia|].
    assert (Ht : (length (tail p1) <= length p1)%nat)
      by (destruct p1; cbn; lia).
    destruct (Ascii.eqb ch "." && _).
    + destruct (dotdot <? length rout)%nat; [apply IH; lia|].
      destruct (negb rooted); apply IH; lia.
    + cbn [spanElem]. rewrite Hs.
      destruct (spanElem p1) as [e rest] eqn:E.
      apply spanElem_shorter in E. apply IH; lia.
Qed.

Lemma cleanLoop_slash fuel rooted p rout dotdot :
  cleanLoop (S fuel) rooted ("/"%char :: p) rout dotdot
  = cleanLoop fuel rooted p rout dotdot.
Proof. reflexivity. Qed.

(** A plain element is copied after a slash. *)
Lemma cleanLoop_push fuel e rest es :
  plainChars e -> atEndOrSlash rest = true -> Forall plainChars es ->
  cleanLoop (S fuel) true (e ++ rest) (rev (rootedPath es)) 1
  = cleanLoop fuel true rest (rev (rootedPath (es ++ [e]))) 1.
Proof.
  intros (Hne & Hno & Hd & Hdd) Hend Hes.
  destruct e as [|ch e']; [congruence|].
  assert (Hch : Ascii.eqb ch "/" = false).
  { apply Ascii.eqb_neq. intros ->. apply Hno. now left. }
  cbn [app cleanLoop]. rewrite Hch.
  replace (Ascii.eqb ch "." && atEndOrSlash (e' ++ rest)) with false; cycle 1.
  { symmetry. apply andb_false_iff.
    destruct (Ascii.eqb_spec ch ".") as [->|]; [right|now left].
    destruct e' as [|c e']; [congruence|]. cbn.
    apply Ascii.eqb_neq. intros ->. apply Hno. right. now left. }
  replace (Ascii.eqb ch "."
           && match e' ++ rest with
              | [] => false
              | ch1 :: p2 => Ascii.eqb ch1 "." && atEndOrSlash p2
              end) with false; cycle 1.
  { symmetry. apply andb_false_iff.
    destruct (Ascii.eqb_spec ch ".") as [->|]; [right|now left].
    destruct e' as [|c e']; [congruence|]. cbn [app].
    apply andb_false_iff.
    destruct (Ascii.eqb_spec c ".") as [->|]; [right|now left].
    destruct e' as [|c' e']; [congruence|]. cbn.
    apply Ascii.eqb_neq. intros ->. apply Hno. right. right. now left. }
  change (ch :: e' ++ rest) with ((ch :: e') ++ rest).
  rewrite spanElem_app by assumption.
  cbn [andb negb orb]. rewrite orb_false_r.
  now rewrite rootedPath_push.
Qed.

(** The output of the loop on a rooted path is a rooted path of plain
    elements, whatever the input. *)
Lemma cleanLoop_rooted fuel : forall p es,
  Forall plainChars es ->
  exists es', Forall plainChars es' /\
    cleanLoop fuel true p (rev (rootedPath es)) 1 = rev (rootedPath es').
Proof.
  induction fuel as [|fuel IH]; intros p es Hes; [now exists es|].
  destruct p as [|ch p1]; [now exists es|].
  destruct (Ascii.eqb ch "/") eqn:Hs.
  { cbn [cleanLoop]. rewrite Hs. now apply IH. }
  destruct (Ascii.eqb ch "." && atEndOrSlash p1) eqn:Hd.
  { cbn [cleanLoop]. rewrite Hs, Hd. now apply IH. }
  destruct (Ascii.eqb ch "."
            && match p1 with
               | [] => false
               | ch1 :: p2 => Ascii.eqb ch1 "." && atEndOrSlash p2
               end) eqn:Hdd.
  { cbn [cleanLoop]. rewrite Hs, Hd, Hdd.
    destruct es as [|e es _] using rev_ind.
    - cbn [rootedPath rev app length]. cbn [Nat.ltb Nat.leb negb].
      apply (IH _ []). constructor.
    - replace (1 <? length (rev (rootedPath (es ++ [e]))))%nat with true.
      + rewrite backtrack_rootedPath by exact Hes.
        apply IH. now apply Forall_app in Hes as [? _].
      + symmetry. apply Nat.ltb_lt.
        apply Forall_app in Hes as [_ He].
        inversion He as [|? ? (Hne & _) _]; subst.
        rewrite length_rev, rootedPath_snoc, length_app. cbn [length].
        destruct e; [congruence|]. cbn. lia. }
  destruct (spanElem (ch :: p1)) as [e rest] eqn:Hsp.
  pose proof (spanElem_spec _ _ _ Hsp) as (Hp & Hno & Hend).
  assert (He : plainChars e).
  { revert Hsp. cbn [spanElem]. rewrite Hs.
    destruct (spanElem p1) as [e' rest'] eqn:E. intros [= <- <-].
    apply spanElem_spec in E as (-> & _ & _).
    split; [discriminate|]. split; [exact Hno|].
    apply andb_false_iff in Hd. apply andb_false_iff in Hdd.
    split; intros [= -> ->].
    - cbn [app] in Hd. rewrite Hend in Hd. destruct Hd; discriminate.
    - cbn [app] in Hdd. rewrite Hend in Hdd. cbn in Hdd.
      destruct Hdd; discriminate. }
  rewrite Hp, cleanLoop_push by assumption.
  apply IH. apply Forall_app. split; [exact Hes|]. now constructor.
Qed.

(** The loop copies a rooted path of plain elements. *)
Lemma cleanLoop_slashed es : forall fuel es0 rest,
  Forall plainChars es -> Forall plainChars es0 ->
  atEndOrSlash rest = true ->
  cleanLoop (2 * length es + fuel) true (slashed es ++ rest)
    (rev (rootedPath es0)) 1
  = cleanLoop fuel true rest (rev (rootedPath (es0 ++ es))) 1.
Proof.
  induction es as [|e es IH]; intros fuel es0 rest Hes Hes0 Hend.
  - cbn. now rewrite app_nil_r.
  - inversion Hes as [|? ? He Hes']; subst.
    replace (2 * length (e :: es) + fuel)%nat
      with (S (S (2 * length es + fuel))) by (cbn [length]; lia).
    unfold slashed. cbn [map concat]. fold (slashed es).
    cbn [app]. rewrite cleanLoop_slash.
    rewrite <- app_assoc, cleanLoop_push; try assumption.
    + rewrite IH; try assumption.
      * now rewrite <- app_assoc.
      * apply Forall_app. split; [exact Hes0|]. now constructor.
    + destruct es; [exact Hend|reflexivity].
Qed.

Lemma string_of_list_ascii_app a b :
  string_of_list_ascii (a ++ b)
  = (string_of_list_ascii a ++ string_of_list_ascii b)%string.
Proof. induction a as [|c a IH]; cbn; [reflexivity|now rewrite IH]. Qed.

Lemma rootedPath_head es :
  exists p1, rootedPath es = "/"%char :: p1.
Proof.
  destruct es as [|e es]; [now exists []|].
  unfold rootedPath, slashed. cbn. eauto.
Qed.

Lemma cleanLoop_copy es fuel :
  Forall plainChars es -> (length (slashed es) <= fuel)%nat ->
  cleanLoop fuel true (slashed es) ["/"%char] 1 = rev (rootedPath es).
Proof.
  intros Hes Hf.
  rewrite (cleanLoop_fuel fuel (2 * length es + fuel)) by lia.
  rewrite <- (app_nil_r (slashed es)).
  change ["/"%char] with (rev (rootedPath [])).
  rewrite cleanLoop_slashed; [|exact Hes|constructor|reflexivity].
  cbn [app]. now destruct fuel.
Qed.

Lemma Clean_of_rooted p1 out :
  cleanLoop (S (S (length p1))) true p1 ["/"%char] 1 = rev out ->
  out <> [] ->
  Clean (string_of_list_ascii ("/"%char :: p1)) = string_of_list_ascii out.
Proof.
  intros E Hne. unfold Clean. rewrite list_ascii_of_string_of_list_ascii.
  change (Ascii.eqb "/" "/") with true. cbv iota. cbn [length]. rewrite E.
  rewrite rev_involutive. destruct (rev out) eqn:F; [|reflexivity].
  apply (f_equal (@rev _)) in F. rewrite rev_involutive in F. now subst.
Qed.

(** [Clean] of a rooted path is a rooted path of plain elements. *)
Lemma Clean_rooted p1 :
  exists es, Forall plainChars es /\
    Clean (string_of_list_ascii ("/"%char :: p1))
    = string_of_list_ascii (rootedPath es).
Proof.
  destruct (cleanLoop_rooted (S (S (length p1))) p1 [] (Forall_nil_2 _))
    as (es & Hes & E).
  exists es. split; [exact Hes|]. apply Clean_of_rooted; [exact E|].
  destruct (rootedPath_head es) as (q & ->). discriminate.
Qed.

(** [Clean] copies a rooted path of plain elements, and copies the plain
    elements joined to it. *)
Lemma Clean_join es more :
  Forall plainChars es -> Forall plainChars more -> more <> [] ->
  Clean (string_of_list_ascii (rootedPath es ++ slashed more))
  = string_of_list_ascii (rootedPath (es ++ more)).
Proof.
  intros Hes Hmore Hne.
  assert (Hall : Forall plainChars (es ++ more)) by (apply Forall_app; now split).
  assert (Hout : rootedPath (es ++ more) <> [])
    by (destruct (rootedPath_head (es ++ more)) as (q & ->); discriminate).
  destruct es as [|e es].
  - cbn [rootedPath app]. apply Clean_of_rooted; [|exact Hout].
    apply cleanLoop_copy; [exact Hmore|lia].
  - change (rootedPath (e :: es)) with (slashed (e :: es)).
    rewrite <- slashed_app.
    destruct (slashed ((e :: es) ++ more)) as [|c p1] eqn:E; [discriminate|].
    assert (c = "/"%char) as -> by (unfold slashed in E; cbn in E; congruence).
    apply Clean_of_rooted; [|exact Hout].
    pose proof (cleanLoop_copy ((e :: es) ++ more) (S (S (S (length p1)))) Hall) as H.
    rewrite E, cleanLoop_slash in H.
    apply H. cbn [length]. lia.
Qed.

(** ** The key schema *)

Lemma path_Join2 a b :
  a <> "" -> path_Join [a; b] = Clean (a ++ "/" ++ b).
Proof.
  intros Ha. unfold path_Join. cbn [forallb fold_left].
  destruct a as [|c a]; [congruence|]. reflexivity.
Qed.

Lemma plainElem_plainChars e :
  plainElem e = true -> plainChars (list_ascii_of_string e).
Proof.
  unfold plainElem. rewrite !andb_true_iff, !negb_true_iff.
  intros [[[H1 H2] H3] H4].
  apply String.eqb_neq in H1, H3, H4. apply Z.eqb_eq in H2.
  rewrite IndexRune_absent in H2.
  assert (Hinj : forall l, list_ascii_of_string e = l -> e = string_of_list_ascii l)
    by (intros l <-; now rewrite string_of_list_ascii_of_string).
  split; [|split; [exact H2|split]]; intros E; apply Hinj in E; cbn in E; congruence.
Qed.

Lemma string_of_cons c l :
  string_of_list_ascii (c :: l) = String c (string_of_list_ascii l).
Proof. reflexivity. Qed.

Lemma prefix_common a b c :
  String.prefix (a ++ b) (a ++ c) = String.prefix b c.
Proof.
  induction a as [|x a IH]; cbn; [reflexivity|].
  destruct (Ascii.ascii_dec x x); [exact IH|congruence].
Qed.

Lemma append_inv_head a b c : (a ++ b = a ++ c)%string -> b = c.
Proof. induction a as [|x a IH]; cbn; [auto|]. intros [= H]. auto. Qed.

Lemma cleanLoop_copy2 es more fuel :
  Forall plainChars es -> Forall plainChars more ->
  (length (slashed es ++ "/"%char :: slashed more) <= fuel)%nat ->
  cleanLoop fuel true (slashed es ++ "/"%char :: slashed more) ["/"%char] 1
  = rev (rootedPath (es ++ more)).
Proof.
  intros Hes Hmore Hf.
  rewrite (cleanLoop_fuel fuel (2 * length es + S (2 * length more + fuel)))
    by lia.
  change ["/"%char] with (rev (rootedPath [])).
  rewrite cleanLoop_slashed; [|exact Hes|constructor|reflexivity].
  rewrite cleanLoop_slash. rewrite <- (app_nil_r (slashed more)).
  rewrite cleanLoop_slashed; [|exact Hmore|exact Hes|reflexivity].
  cbn [app]. now destruct fuel.
Qed.

(** [path.Join] of a rooted path of plain elements with plain elements. *)
Lemma path_Join_rooted es b more :
  Forall plainChars es -> Forall plainChars more -> more <> [] ->
  "/"%char :: list_ascii_of_string b = slashed more ->
  path_Join [string_of_list_ascii (rootedPath es); b]
  = string_of_list_ascii (rootedPath (es ++ more)).
Proof.
  intros Hes Hmore Hne Hb.
  rewrite path_Join2; cycle 1.
  { destruct (rootedPath_head es) as (q & ->). discriminate. }
  rewrite <- (Clean_join es more) by assumption.
  f_equal. rewrite string_of_list_ascii_app, <- Hb.
  rewrite string_of_cons, string_of_list_ascii_of_string. reflexivity.
Qed.

Lemma geClusterKeyPrefix_rooted token :
  exists es, Forall plainChars es /\
    geClusterKeyPrefix token = string_of_list_ascii (rootedPath es).
Proof.
  rewrite geClusterKeyPrefix_eq, path_Join2 by discriminate.
  destruct (Clean_rooted (list_ascii_of_string ("_etcd/registry/" ++ token)))
    as (es & Hes & E).
  exists es. split; [exact Hes|]. rewrite <- E.
  rewrite string_of_cons, string_of_list_ascii_of_string. reflexivity.
Qed.

Lemma rootedPath_snoc2 es a b :
  rootedPath (es ++ [a; b]) = slashed es ++ "/"%char :: (a ++ "/"%char :: b).
Proof.
  change [a; b] with ([a] ++ [b]).
  rewrite app_assoc, rootedPath_snoc, slashed_app.
  unfold slashed at 2. cbn [map concat]. rewrite app_nil_r.
  now rewrite <- app_assoc.
Qed.

Lemma string_of_base es l :
  string_of_list_ascii (slashed es ++ "/"%char :: l)
  = (string_of_list_ascii (slashed es ++ ["/"%char])
     ++ string_of_list_ascii l)%string.
Proof.
  change ("/"%char :: l) with (["/"%char] ++ l).
  now rewrite app_assoc, string_of_list_ascii_app.
Qed.

Lemma registry_path token :
  string_of_list_ascii
    (slashed [list_ascii_of_string "_etcd"; list_ascii_of_string "registry";
              list_ascii_of_string token])
  = ("/_etcd/registry/" ++ token)%string.
Proof.
  unfold slashed. cbn [map concat]. rewrite app_nil_r.
  rewrite !string_of_list_ascii_app, !string_of_cons.
  rewrite !string_of_list_ascii_of_string. reflexivity.
Qed.

Lemma plain_members : plainChars (list_ascii_of_string "members").
Proof. apply plainElem_plainChars. reflexivity. Qed.

Lemma key_schema_base token :
  exists base,
    (geClusterKeyPrefix token = "/" /\ base = "/" \/
     geClusterKeyPrefix token <> "/" /\
     base = (geClusterKeyPrefix token ++ "/")%string) /\
    getMemberKeyPrefix token = (base ++ "members")%string /\
    geClusterSizeKey token = (base ++ "_config/size")%string /\
    forall id, plainElem id = true ->
      getMemberKey token id = (base ++ "members/" ++ id)%string.
Proof.
  destruct (geClusterKeyPrefix_rooted token) as (es & Hes & HC).
  assert (Hm : Forall plainChars (es ++ [list_ascii_of_string "members"])).
  { apply Forall_app. split; [exact Hes|]. constructor; [|constructor].
    exact plain_members. }
  exists (string_of_list_ascii (slashed es ++ ["/"%char])).
  split; [|split; [|split]].
  + rewrite HC. destruct es as [|e es]; [left; now split|right].
    unfold rootedPath. split.
    * inversion Hes as [|? ? (Hne & _) _]; subst.
      unfold slashed. cbn. destruct e; [congruence|]. discriminate.
    * now rewrite string_of_list_ascii_app.
  + rewrite getMemberKeyPrefix_eq, HC.
    rewrite (path_Join_rooted es "members" [list_ascii_of_string "members"]);
      [|exact Hes|constructor; [exact plain_members|constructor]
       |discriminate|reflexivity].
    now rewrite rootedPath_snoc, string_of_base.
  + rewrite geClusterSizeKey_eq, HC.
    rewrite (path_Join_rooted es "_config/size"
               [list_ascii_of_string "_config"; list_ascii_of_string "size"]);
      [|exact Hes
       |apply Forall_cons_2; [now apply plainElem_plainChars|];
        apply Forall_cons_2; [now apply plainElem_plainChars|constructor]
       |discriminate|reflexivity].
    now rewrite rootedPath_snoc2, string_of_base.
  + intros id Hid. apply plainElem_plainChars in Hid.
    rewrite getMemberKey_eq, getMemberKeyPrefix_eq, HC.
    rewrite (path_Join_rooted es "members" [list_ascii_of_string "members"]);
      [|exact Hes|constructor; [exact plain_members|constructor]
       |discriminate|reflexivity].
    rewrite (path_Join_rooted _ id [list_ascii_of_string id]);
      [|exact Hm|constructor; [exact Hid|constructor]|discriminate
       |unfold slashed; cbn; now rewrite app_nil_r].
    rewrite <- app_assoc. cbn [app].
    rewrite rootedPath_snoc2, string_of_base. f_equal.
    rewrite string_of_list_ascii_app, string_of_cons.
    rewrite !string_of_list_ascii_of_string. reflexivity.
Qed.

(** Every key of the schema is the cluster prefix, a slash when the
    prefix is not the root, and what the comments of the key functions
    say: [members], [_config/size], [members/<memberId>]; whatever the
    token, and for a member id that is a plain path element. The cluster
    prefix of a token that is a plain element, with or without a leading
    slash, is ["/_etcd/registry/<ClusterToken>"]. *)
Theorem key_schema token :
  (exists base,
     (geClusterKeyPrefix token = "/" /\ base = "/" \/
      geClusterKeyPrefix token <> "/" /\
      base = (geClusterKeyPrefix token ++ "/")%string) /\
     getMemberKeyPrefix token = (base ++ "members")%string /\
     geClusterSizeKey token = (base ++ "_config/size")%string /\
     forall id, plainElem id = true ->
       getMemberKey token id = (base ++ "members/" ++ id)%string) /\
  (plainElem token = true ->
   geClusterKeyPrefix token = ("/_etcd/registry/" ++ token)%string /\
   geClusterKeyPrefix ("/" ++ token) = ("/_etcd/registry/" ++ token)%string).
Proof.
  split; [apply key_schema_base|].
  intros Ht. apply plainElem_plainChars in Ht.
    assert (Hreg : Forall plainChars
                     [list_ascii_of_string "_etcd";
                      list_ascii_of_string "registry"]).
    { apply Forall_cons_2; [now apply plainElem_plainChars|].
      apply Forall_cons_2; [now apply plainElem_plainChars|constructor]. }
    assert (Htok : Forall plainChars [list_ascii_of_string token])
      by (apply Forall_cons_2; [exact Ht|constructor]).
    rewrite !geClusterKeyPrefix_eq, !path_Join2 by discriminate.
    rewrite <- registry_path. split.
    + pose proof (Clean_join _ _ Hreg Htok) as H.
      cbn [app] in H. unfold rootedPath in H. rewrite <- H by discriminate.
      f_equal. rewrite <- slashed_app. cbn [app]. now rewrite registry_path.
    + replace (discoveryPrefix ++ "/" ++ "/" ++ token)%string
        with (string_of_list_ascii
                ("/"%char :: list_ascii_of_string ("_etcd/registry//" ++ token)))
        by (now rewrite string_of_cons, string_of_list_ascii_of_string).
      apply Clean_of_rooted; [|discriminate].
      pose proof (cleanLoop_copy2 _ _
                    (S (S (S (length (list_ascii_of_string
                                        ("_etcd/registry//" ++ token))))))
                    Hreg Htok) as H.
      unfold slashed in H. cbn [map concat list_ascii_of_string app] in H.
      rewrite cleanLoop_slash, app_nil_r in H.
      cbn [String.append list_ascii_of_string].
      apply H. cbn [length String.append list_ascii_of_string]. lia.
Qed.

Section KeyExtras.

Variable sort_Sort : clusterInfo -> clusterInfo.

(** The key of a member whose id is a plain path element is under the
    member prefix of its token, so that [add] accepts it in a ledger of
    that token which does not hold it, with any value that has an equals
    sign; the key of the size is not under the member prefix; and
    different ids have different keys. *)
Theorem member_keys_accepted token id :
  plainElem id = true ->
  HasPrefix (getMemberKey token id) (getMemberKeyPrefix token) = true /\
  HasPrefix (geClusterSizeKey token) (getMemberKeyPrefix token) = false /\
  (forall id', plainElem id' = true ->
     getMemberKey token id' = getMemberKey token id -> id' = id) /\
  (forall cls value rev,
     clusterToken cls = token ->
     In "="%char (list_ascii_of_string value) ->
     exist cls (getMemberKey token id) = false ->
     snd (add sort_Sort cls (getMemberKey token id) value rev) = None).
Proof.
  intros Hid.
  destruct (key_schema_base token) as (base & _ & Hp & Hs & Hk).
  assert (Hpre : HasPrefix (getMemberKey token id) (getMemberKeyPrefix token)
                 = true).
  { rewrite Hp, (Hk id Hid). unfold HasPrefix. rewrite prefix_common.
    reflexivity. }
  split; [exact Hpre|]. split; [|split].
  - rewrite Hp, Hs. unfold HasPrefix. rewrite prefix_common. reflexivity.
  - intros id' Hid' E. rewrite (Hk id Hid), (Hk id' Hid') in E.
    apply append_inv_head in E.
    now apply (append_inv_head "members/") in E.
  - intros cls value rev Htok Hval Hex. unfold add.
    rewrite Htok, Hpre. cbn [negb].
    destruct (Z.eqb_spec (IndexRune value "=") (-1)) as [E|_].
    + apply IndexRune_absent in E. contradiction.
    + now rewrite Hex.
Qed.

End KeyExtras.

Lemma member_keys_accepted_witness :
  HasPrefix (getMemberKey sampleToken (ID_hex id1))
    (getMemberKeyPrefix sampleToken) = true /\
  HasPrefix (geClusterSizeKey sampleToken) (getMemberKeyPrefix sampleToken)
  = false.
Proof.
  destruct (member_keys_accepted insertionSort sampleToken (ID_hex id1))
    as (H1 & H2 & _).
  - vm_compute. reflexivity.
  - split; [exact H1|exact H2].
Defined.

(** ** The client configuration *)

Section ClientCfgExtras.

Variable fields : Type.
Variable zero : fields.
Variable ClientConfig : TLSInfo -> option (tls_Config fields) * option error.

(** [newClientCfg] fails only when the configuration names a
    certificate, a key or a CA file and [ClientConfig] fails, with the
    error of [ClientConfig]. Otherwise the client it configures has the
    discovery URL as its only endpoint and the credentials of the
    configuration, and talks plain text only when [InsecureTransport] is
    set: without it there is a TLS configuration, the empty one when no
    file is named. Verification is skipped when [InsecureSkipVerify] is
    set, and otherwise only if [ClientConfig] itself said so. *)
Theorem newClientCfg_secure_by_default dcfg dUrl :
  match newClientCfg fields zero ClientConfig dcfg dUrl with
  | (Some cfg, None) =>
      cc_Endpoints cfg = [dUrl] /\
      cc_Username cfg = dc_User dcfg /\ cc_Password cfg = dc_Password dcfg /\
      (dc_InsecureTransport dcfg = false -> cc_TLS cfg <> None) /\
      (tlsInfoOf dcfg = None -> dc_InsecureTransport dcfg = false ->
       cc_TLS cfg = Some {| tls_InsecureSkipVerify := dc_InsecureSkipVerify dcfg;
                            tls_fields := zero |}) /\
      (tlsInfoOf dcfg = None -> dc_InsecureTransport dcfg = true ->
       cc_TLS cfg = None) /\
      (forall t, cc_TLS cfg = Some t ->
         dc_InsecureSkipVerify dcfg = true -> tls_InsecureSkipVerify t = true) /\
      (forall t, cc_TLS cfg = Some t ->
         dc_InsecureSkipVerify dcfg = false ->
         tls_InsecureSkipVerify t = true ->
         exists info, tlsInfoOf dcfg = Some info /\
                      ClientConfig info = (Some t, None))
  | (None, Some err) =>
      exists info clientTLS,
        tlsInfoOf dcfg = Some info /\
        ClientConfig info = (clientTLS, Some err)
  | _ => False
  end.
Proof.
  unfold newClientCfg.
  destruct (tlsInfoOf dcfg) as [info|] eqn:Hinfo.
  - destruct (ClientConfig info) as [clientTLS [err|]] eqn:Hcc.
    + exists info, clientTLS. now split.
    + cbn [set_TLS cc_TLS].
      destruct clientTLS as [t0|];
        destruct (dc_InsecureTransport dcfg) eqn:Hit;
        destruct (dc_InsecureSkipVerify dcfg) eqn:Hsv;
        cbn [negb set_TLS cc_TLS cc_Endpoints cc_Username cc_Password];
        repeat (split; [try reflexivity; try discriminate|]);
        try (intros t [= <-]; cbn; (reflexivity || discriminate || idtac));
        try discriminate;
        try (intros _ E; exists info; split; [reflexivity|];
             destruct t0; cbn in E; now subst).
  - destruct (dc_InsecureTransport dcfg) eqn:Hit;
      destruct (dc_InsecureSkipVerify dcfg) eqn:Hsv;
      cbn [negb set_TLS cc_TLS cc_Endpoints cc_Username cc_Password];
      repeat (split; [try reflexivity; try discriminate|]);
      try (intros t [= <-]; cbn; (reflexivity || discriminate || idtac));
      try discriminate.
Qed.

End ClientCfgExtras.

(** ** Joining registers *)

Section JoinExtras.

Variable sort_Sort : clusterInfo -> clusterInfo.
Variable NewURLsMap : string -> option error.
Variable ID_String : Z -> string.

Lemma registerSelf_put fuel config d1 d2 :
  registerSelf ID_String fuel config d1 = Done None d2 ->
  exists n, (d_ncalls d1 <= n < d_ncalls d2)%nat /\
            Put (d_c d1) n (selfKey ID_String d1) config = None.
Proof.
  intros Hrun.
  refine (registerSelf_rule ID_String
            (fun x => d_c x = d_c d1 /\
                      selfKey ID_String x = selfKey ID_String d1 /\
                      (d_ncalls d1 <= d_ncalls x)%nat)
            (fun r x => r = None ->
               exists n, (d_ncalls d1 <= n < d_ncalls x)%nat /\
                         Put (d_c d1) n (selfKey ID_String d1) config = None)
            config _ _ _ _ fuel d1 None d2 _ Hrun eq_refl).
  - intros x (H1 & H2 & H3). repeat split; try assumption. cbn. lia.
  - intros x (H1 & H2 & H3) _. repeat split; assumption.
  - intros x _ _ H. discriminate H.
  - intros x (H1 & H2 & H3) HP _. exists (d_ncalls x).
    split; [cbn; lia|]. now rewrite <- H1, <- H2.
  - repeat split. lia.
Qed.

Lemma waitLoop_ncalls fuel : forall cls size rev d cls' d',
  waitLoop sort_Sort fuel cls size rev d = Done cls' d' ->
  (d_ncalls d <= d_ncalls d')%nat.
Proof.
  induction fuel as [|fuel IH]; intros cls size rev d cls' d';
    cbn [waitLoop]; destruct (Len cls <? size); try discriminate;
    try (intros [= _ <-]; lia).
  cbn [waitPeers]. intros H. apply IH in H. cbn in H. lia.
Qed.

(** [joinCluster] returns no error only if the registry accepted, at one
    of the calls of the run, the [Put] of the contents under the key of
    self: when the registry refuses every such [Put], [joinCluster] does
    not succeed. *)
Theorem joinCluster_registers fuel config d s d' :
  0 <= d_retries d <= nRetries ->
  joinCluster sort_Sort NewURLsMap ID_String fuel config d = Done (s, None) d' ->
  exists n, (d_ncalls d <= n < d_ncalls d')%nat /\
            Put (d_c d) n (selfKey ID_String d) config = None.
Proof.
  intros Hr. pose proof (advances_refl d Hr) as H0.
  unfold joinCluster.
  destruct (checkCluster sort_Sort ID_String fuel d)
    as [[[[ocls size] rev] err] d1| |] eqn:Hc; cbn [bind]; try discriminate.
  destruct err as [e|]; [discriminate|].
  apply (checkCluster_advances sort_Sort ID_String d) in Hc; [|exact H0].
  destruct (registerSelf ID_String fuel config d1) as [err1 d2| |] eqn:Hreg;
    cbn [bind]; try discriminate.
  destruct err1 as [e|]; [discriminate|].
  pose proof (registerSelf_advances ID_String d _ _ _ _ _ Hc Hreg) as Ha2.
  apply registerSelf_put in Hreg as (n & Hn & HP).
  destruct (checkCluster sort_Sort ID_String fuel d2)
    as [[[[ocls2 size2] rev2] err2] d3| |] eqn:Hc2; cbn [bind]; try discriminate.
  destruct err2 as [e|]; [discriminate|].
  assert (H2 : advances d2 d2).
  { apply advances_refl. now destruct Ha2 as (_ & _ & _ & _ & ? & _). }
  apply (checkCluster_advances sort_Sort ID_String d2) in Hc2; [|exact H2].
  destruct ocls2 as [cls|]; [|discriminate].
  destruct (waitLoop sort_Sort fuel cls size2 rev2 d3) as [cls1 d4| |] eqn:Hw;
    cbn [bind]; try discriminate.
  apply waitLoop_ncalls in Hw.
  intros [= _ <-].
  destruct Hc as (Et & Ei & Ec & En & _).
  destruct Hc2 as (_ & _ & _ & En2 & _).
  exists n. split; [lia|].
  assert (Ek : selfKey ID_String d1 = selfKey ID_String d)
    by (unfold selfKey; now rewrite Et, Ei).
  now rewrite <- Ec, <- Ek.
Qed.

End JoinExtras.

Lemma joinCluster_registers_witness :
  let d := newDiscovery sampleToken
             (sampleClient "2" [m1; m2; m3] (fun _ => [])) id1 in
  exists n, (d_ncalls d <= n)%nat /\
            Put (d_c d) n (selfKey ID_hex d) "infra1=http://127.0.0.1:12380"
            = None.
Proof.
  intros d.
  destruct (joinCluster_registers insertionSort acceptURLs ID_hex 1
              "infra1=http://127.0.0.1:12380" d
              "infra1=http://127.0.0.1:12380,infra2=http://127.0.0.1:22380"
              (set_retries 0 (called (called (set_retries 0 (called
                 (set_retries 0 (called (called d)))))))))
    as (n & Hn & HP).
  - vm_compute. split; discriminate.
  - vm_compute. reflexivity.
  - exists n. split; [lia|exact HP].
Defined.

(** ** etcdctl: the defrag command *)

Section DefragExtras.

Variable DefragData : string -> option string.
Variable Defragment : nat -> string -> string * option string.

Lemma defragLoop_spec eps : forall n failures out,
  0 <= failures ->
  failures + Z.of_nat (length eps) < 2 ^ 63 ->
  exists k,
    defragLoop Defragment n eps failures out
    = (failures + Z.of_nat k,
       out ++ imap (fun i ep => defragLine ep (Defragment (n + i) ep)) eps) /\
    (k <= length eps)%nat /\
    (k = 0%nat <->
     forall i ep, eps !! i = Some ep -> snd (Defragment (n + i) ep) = None).
Proof.
  induction eps as [|ep eps IH]; intros n failures out H0 Hb.
  - exists 0%nat. cbn. rewrite app_nil_r, Z.add_0_r.
    split; [reflexivity|]. split; [lia|]. split; [|reflexivity].
    intros _ i ep H. discriminate H.
  - cbn [defragLoop imap length] in *.
    assert (Himap : imap (fun i ep0 => defragLine ep0 (Defragment (n + S i) ep0)) eps
                    = imap (fun i ep0 => defragLine ep0 (Defragment (S n + i) ep0)) eps).
    { apply imap_ext. intros i x _. now rewrite Nat.add_succ_r. }
    destruct (Defragment n ep) as [took err] eqn:E.
    destruct err as [e|].
    + destruct (IH (S n) (int_incr failures)
                  (out ++ [Stderr ("Failed to defragment etcd member[" ++ ep
                                   ++ "]. took " ++ took ++ ". (" ++ e ++ ")"
                                   ++ newline)]))
        as (k & Hrun & Hk & _).
      * unfold int_incr, wrap_int64. 
        rewrite Z.mod_small by lia. lia.
      * unfold int_incr, wrap_int64. rewrite Z.mod_small by lia. lia.
      * exists (S k). rewrite Hrun. split; [|split; [lia|]].
        -- unfold int_incr, wrap_int64. rewrite Z.mod_small by lia.
           f_equal; [lia|]. rewrite <- app_assoc. cbn [app]. f_equal. f_equal.
           ++ unfold defragLine. rewrite Nat.add_0_r, E. reflexivity.
           ++ unfold compose. now rewrite Himap.
        -- split; [discriminate|]. intros H.
           specialize (H 0%nat ep eq_refl). rewrite Nat.add_0_r, E in H.
           discriminate H.
    + destruct (IH (S n) failures
                  (out ++ [Stdout ("Finished defragmenting etcd member[" ++ ep
                                   ++ "]. took " ++ took ++ newline)]))
        as (k & Hrun & Hk & Hz); [exact H0|lia|].
      exists k. rewrite Hrun. split; [|split; [lia|]].
      * f_equal. rewrite <- app_assoc. cbn [app]. f_equal. f_equal.
        -- unfold defragLine. rewrite Nat.add_0_r, E. reflexivity.
        -- unfold compose. now rewrite Himap.
      * rewrite Hz. split.
        -- intros H [|i] ep0 Hi.
           ++ injection Hi as <-. now rewrite Nat.add_0_r, E.
           ++ rewrite Nat.add_succ_r. now apply (H i).
        -- intros H i ep0 Hi. specialize (H (S i) ep0 Hi).
           now rewrite Nat.add_succ_r in H.
Qed.

(** Without [--data-dir], the command attempts every endpoint, in
    order, whether or not an earlier one failed, and writes one line for
    each: to the standard output when the endpoint was defragmented, to
    the standard error when it was not. It returns when all were
    defragmented and exits with [ExitError] otherwise. With [--data-dir]
    it writes the notice, contacts no endpoint, and exits with the error
    of [DefragData] when there is one. *)
Theorem defrag_attempts_every_endpoint defragDataDir endpoints :
  Z.of_nat (length endpoints) < 2 ^ 63 ->
  (defragDataDir = "" ->
   fst (defragCommandFunc DefragData Defragment defragDataDir endpoints)
   = imap (fun i ep => defragLine ep (Defragment i ep)) endpoints /\
   (snd (defragCommandFunc DefragData Defragment defragDataDir endpoints)
    = Returned <->
    forall i ep, endpoints !! i = Some ep -> snd (Defragment i ep) = None) /\
   (snd (defragCommandFunc DefragData Defragment defragDataDir endpoints)
    = Returned \/
    snd (defragCommandFunc DefragData Defragment defragDataDir endpoints)
    = Exited None)) /\
  (defragDataDir <> "" ->
   exists notice,
     fst (defragCommandFunc DefragData Defragment defragDataDir endpoints)
     = [Stderr notice] /\
     snd (defragCommandFunc DefragData Defragment defragDataDir endpoints)
     = match DefragData defragDataDir with
       | Some err => Exited (Some err)
       | None => Returned
       end).
Proof.
  intros Hlen. unfold defragCommandFunc. split.
  - intros ->. cbn [String.length Nat.ltb Nat.leb].
    destruct (defragLoop_spec endpoints 0 0 []) as (k & Hrun & Hk & Hz);
      [lia|lia|].
    rewrite Hrun. cbn [app Nat.add] in *.
    destruct (Z.eqb_spec (0 + Z.of_nat k) 0) as [E|E]; cbn [negb fst snd].
    + split; [reflexivity|]. split; [|now left].
      split; [intros _|reflexivity]. apply Hz. lia.
    + split; [reflexivity|]. split; [|now right].
      split; [discriminate|]. intros H. apply Hz in H. lia.
  - intros Hne. destruct defragDataDir as [|c s]; [congruence|].
    cbn [String.length Nat.ltb Nat.leb].
    eexists. destruct (DefragData (String c s)); split; reflexivity.
Qed.

End DefragExtras.

Lemma defrag_attempts_every_endpoint_witness :
  let Defragment := fun (n : nat) (ep : string) =>
    if String.eqb ep "10.0.0.2:2379" then ("1s", Some "context deadline exceeded")
    else ("20ms", None) in
  snd (defragCommandFunc (fun _ => None) Defragment ""
         ["10.0.0.1:2379"; "10.0.0.2:2379"; "10.0.0.3:2379"])
  = Exited None /\
  length (fst (defragCommandFunc (fun _ => None) Defragment ""
                 ["10.0.0.1:2379"; "10.0.0.2:2379"; "10.0.0.3:2379"])) = 3%nat.
Proof.
  intros Defragment.
  destruct (defrag_attempts_every_endpoint (fun _ => None) Defragment ""
              ["10.0.0.1:2379"; "10.0.0.2:2379"; "10.0.0.3:2379"])
    as [H _]; [vm_compute; reflexivity|].
  destruct (H eq_refl) as (H1 & H2 & [H3|H3]).
  - exfalso. rewrite H2 in H3. specialize (H3 1%nat "10.0.0.2:2379" eq_refl).
    discriminate H3.
  - split; [exact H3|]. rewrite H1. reflexivity.
Defined.
